(** * OPFS_POC: the worker bridge and the storage operations

    A shallow embedding of [src/OPFS.ts] (the Channel Bridge of the calling
    context) and of [src/opfs.worker.ts] (the Dispatcher and the Operation
    Executor of the worker), with the browser primitives they call
    ([navigator.storage], file and sync access handles, [TextEncoder],
    [File.text], [Worker], [Promise]) modelled as an explicit platform.

    JavaScript strings are sequences of 16-bit code units, bytes are numbers
    below 256, both carried by [N].  An [await] either yields the value of the
    awaited promise or throws its rejection, so asynchronous functions are
    written in a monad of completions over the state of the store. *)

From Stdlib Require Import NArith ZArith Lia String Ascii List Permutation Sorted
  DecimalString.
From stdpp Require Import base option list gmap.

Local Open Scope N_scope.

(* ================================================================== *)
(** ** JavaScript values *)
(* ================================================================== *)

(** A JavaScript string: its UTF-16 code units. *)
Abbreviation jsstring := (list N).

(** The code units of an ASCII literal of the source. *)
Definition js (s : string) : jsstring :=
  map N_of_ascii (list_ascii_of_string s).

(** The values a structured clone can carry in the [type] field of an
    envelope or that can be thrown: the primitives but symbols, and objects.
    A Number is given by the string [Number::toString] makes of it, a BigInt
    by its value.  An object (a plain object, an array, a Date, ...) is given
    by what its conversion to a string yields: the string, or nothing when
    the conversion throws a TypeError because neither [toString] nor
    [valueOf] gives a primitive, as for a clone of
    [{ toString: 1, valueOf: 1 }]. *)
Inductive JsVal :=
  | JUndefined
  | JNull
  | JBool (b : bool)
  | JNumber (text : jsstring)
  | JBigInt (z : Z)
  | JStr (s : jsstring)
  | JObject (text : option jsstring).

#[global] Instance JsVal_eq_dec : EqDecision JsVal.
Proof. solve_decision. Defined.

(** [BigInt::toString]: the decimal digits, after a minus sign when
    negative. *)
Definition BigInt_toString (z : Z) : jsstring :=
  js (NilZero.string_of_int (Z.to_int z)).

(** [s.startsWith(".")] *)
Definition startsWith_dot (s : jsstring) : bool :=
  match s with
  | c :: _ => c =? 46
  | [] => false
  end.

(** Names of the native errors the platform raises. *)
Inductive ErrName :=
  | TypeError
  | RangeError
  | NotFoundError
  | TypeMismatchError
  | NoModificationAllowedError
  | InvalidModificationError
  | InvalidStateError
  | QuotaExceededError
  | SecurityError
  | NotAllowedError
  | UnknownError.

#[global] Instance ErrName_eq_dec : EqDecision ErrName.
Proof. solve_decision. Defined.

(** What a [throw] or a rejected promise carries.  [ThrowError] is
    [new Error(message)], the only error this code constructs itself;
    [ThrowNative] is a [TypeError], [RangeError] or [DOMException] of the
    platform: both are [instanceof Error].  [ThrowValue] is any other thrown
    value. *)
Inductive Thrown :=
  | ThrowError (message : jsstring)
  | ThrowNative (name : ErrName) (message : jsstring)
  | ThrowValue (v : JsVal).

#[global] Instance Thrown_eq_dec : EqDecision Thrown.
Proof. solve_decision. Defined.

(** A completion: normal with a value, or abrupt with a thrown value. *)
Inductive Completion (A : Type) :=
  | Normal (a : A)
  | Throw (e : Thrown).
Arguments Normal {A} a.
Arguments Throw {A} e.

(* ================================================================== *)
(** ** UTF-8: [TextEncoder.encode] and the decoding of [File.text] *)
(* ================================================================== *)

Module Utf8.

Definition is_high (c : N) : bool := (0xD800 <=? c) && (c <=? 0xDBFF).
Definition is_low (c : N) : bool := (0xDC00 <=? c) && (c <=? 0xDFFF).
Definition is_surrogate (c : N) : bool := (0xD800 <=? c) && (c <=? 0xDFFF).

(** Conversion of a JavaScript string to a sequence of scalar values (the
    USVString conversion applied to the argument of [encode]): a surrogate
    pair becomes its code point, a lone surrogate becomes U+FFFD. *)
Fixpoint to_scalars (s : jsstring) : list N :=
  match s with
  | [] => []
  | c :: rest =>
      if is_high c then
        match rest with
        | d :: rest' =>
            if is_low d
            then (0x10000 + (c - 0xD800) * 0x400 + (d - 0xDC00)) :: to_scalars rest'
            else 0xFFFD :: to_scalars rest
        | [] => [0xFFFD]
        end
      else if is_low c then 0xFFFD :: to_scalars rest
      else c :: to_scalars rest
  end.

(** The UTF-8 encoder on one scalar value. *)
Definition encode_scalar (cp : N) : list N :=
  if cp <=? 0x7F then [cp]
  else if cp <=? 0x7FF then
    [N.shiftr cp 6 + 0xC0; N.lor 0x80 (N.land cp 0x3F)]
  else if cp <=? 0xFFFF then
    [N.shiftr cp 12 + 0xE0;
     N.lor 0x80 (N.land (N.shiftr cp 6) 0x3F);
     N.lor 0x80 (N.land cp 0x3F)]
  else
    [N.shiftr cp 18 + 0xF0;
     N.lor 0x80 (N.land (N.shiftr cp 12) 0x3F);
     N.lor 0x80 (N.land (N.shiftr cp 6) 0x3F);
     N.lor 0x80 (N.land cp 0x3F)].

(** [new TextEncoder().encode(content)] *)
Definition encode (s : jsstring) : list N :=
  flat_map encode_scalar (to_scalars s).

(** The state of the UTF-8 decoder. *)
Record DecState := {
  code_point : N;
  bytes_seen : N;
  bytes_needed : N;
  lower_boundary : N;
  upper_boundary : N
}.

Definition dec_init : DecState :=
  {| code_point := 0; bytes_seen := 0; bytes_needed := 0;
     lower_boundary := 0x80; upper_boundary := 0xBF |}.

(** The decoder on a byte when no continuation byte is awaited: the new
    state and the scalar values emitted. *)
Definition dec_lead (b : N) : DecState * list N :=
  if b <=? 0x7F then (dec_init, [b])
  else if (0xC2 <=? b) && (b <=? 0xDF) then
    ({| code_point := N.land b 0x1F; bytes_seen := 0; bytes_needed := 1;
        lower_boundary := 0x80; upper_boundary := 0xBF |}, [])
  else if (0xE0 <=? b) && (b <=? 0xEF) then
    ({| code_point := N.land b 0xF; bytes_seen := 0; bytes_needed := 2;
        lower_boundary := if b =? 0xE0 then 0xA0 else 0x80;
        upper_boundary := if b =? 0xED then 0x9F else 0xBF |}, [])
  else if (0xF0 <=? b) && (b <=? 0xF4) then
    ({| code_point := N.land b 0x7; bytes_seen := 0; bytes_needed := 3;
        lower_boundary := if b =? 0xF0 then 0x90 else 0x80;
        upper_boundary := if b =? 0xF4 then 0x8F else 0xBF |}, [])
  else (dec_init, [0xFFFD]).

(** The decoder on one byte.  A byte outside the expected range ends the
    sequence with U+FFFD and is then processed again as a lead byte. *)
Definition dec_byte (st : DecState) (b : N) : DecState * list N :=
  if bytes_needed st =? 0 then dec_lead b
  else if negb ((lower_boundary st <=? b) && (b <=? upper_boundary st)) then
    let '(st', out) := dec_lead b in (st', 0xFFFD :: out)
  else
    let cp := N.lor (N.shiftl (code_point st) 6) (N.land b 0x3F) in
    if bytes_seen st + 1 =? bytes_needed st then (dec_init, [cp])
    else ({| code_point := cp; bytes_seen := bytes_seen st + 1;
             bytes_needed := bytes_needed st;
             lower_boundary := 0x80; upper_boundary := 0xBF |}, []).

Fixpoint dec_run (st : DecState) (bs : list N) : list N :=
  match bs with
  | [] => if bytes_needed st =? 0 then [] else [0xFFFD]
  | b :: bs' => let '(st', out) := dec_byte st b in out ++ dec_run st' bs'
  end.

(** A leading byte order mark is consumed and not decoded. *)
Definition strip_bom (bs : list N) : list N :=
  match bs with
  | b0 :: b1 :: b2 :: rest =>
      if (b0 =? 0xEF) && (b1 =? 0xBB) && (b2 =? 0xBF) then rest else bs
  | _ => bs
  end.

(** UTF-8 decode, with replacement: bytes to scalar values. *)
Definition decode_scalars (bs : list N) : list N :=
  dec_run dec_init (strip_bom bs).

(** A scalar value as UTF-16 code units. *)
Definition of_scalar (cp : N) : jsstring :=
  if cp <? 0x10000 then [cp]
  else [0xD800 + (cp - 0x10000) / 0x400; 0xDC00 + (cp - 0x10000) mod 0x400].

(** The string [File.text] resolves with, given the bytes of the file. *)
Definition decode (bs : list N) : jsstring :=
  flat_map of_scalar (decode_scalars bs).

(** [s.isWellFormed()]: no lone surrogate. *)
Fixpoint isWellFormed (s : jsstring) : bool :=
  match s with
  | [] => true
  | c :: rest =>
      if is_high c then
        match rest with
        | d :: rest' => is_low d && isWellFormed rest'
        | [] => false
        end
      else negb (is_low c) && isWellFormed rest
  end.

(** The conversion of a string argument to a USVString, as code units again
    ([s.toWellFormed()]): every lone surrogate is replaced by U+FFFD. *)
Definition toWellFormed (s : jsstring) : jsstring :=
  flat_map of_scalar (to_scalars s).

(** Every element is a 16-bit code unit. *)
Definition code_units (s : jsstring) : Prop := Forall (fun c => c < 0x10000) s.

(** The string starts with U+FEFF. *)
Definition starts_with_bom (s : jsstring) : bool :=
  match s with
  | c :: _ => c =? 0xFEFF
  | [] => false
  end.

End Utf8.


(* ================================================================== *)
(** ** The platform: [navigator.storage] and the private file system *)
(* ================================================================== *)

(** What awaiting [navigator.storage.persist()] gives: the grant or its
    refusal, or a rejection. *)
Inductive PersistOutcome :=
  | PersistResolves (granted : bool)
  | PersistRejects (name : ErrName) (message : jsstring).

(** What the worker finds in [navigator.storage], and the outcome of each
    platform call of one run of an operation: [None] lets the call proceed,
    [Some (name, message)] makes it throw (or reject with) that native error.
    [message_of] is the text the platform gives the errors this model raises
    itself (a missing entry, a locked file, ...).  [position name names] is
    the place among the entries [names] at which the iterator of the
    directory will yield a new entry [name]; the order of iteration is the
    platform's own (Chromium iterates by name). *)
Record Platform := {
  storage : bool;              (* [navigator.storage] is defined *)
  getDirectory_present : bool; (* [navigator.storage.getDirectory] is defined *)
  persist : option PersistOutcome; (* [navigator.storage.persist], if defined *)
  localeCompare : jsstring -> jsstring -> Z; (* [a.localeCompare(b)] *)
  message_of : ErrName -> jsstring;
  position : jsstring -> list jsstring -> nat;
  fault_getDirectory : option (ErrName * jsstring);
  fault_values : option (ErrName * jsstring);
  fault_getFileHandle : option (ErrName * jsstring);
  fault_createSyncAccessHandle : option (ErrName * jsstring);
  fault_encode : option (ErrName * jsstring);
  fault_truncate : option (ErrName * jsstring);
  fault_write : option (ErrName * jsstring);
  fault_flush : option (ErrName * jsstring);
  fault_getFile : option (ErrName * jsstring);
  fault_text : option (ErrName * jsstring);
  fault_removeEntry : option (ErrName * jsstring)
}.

(** An entry of the root directory. *)
Inductive Node :=
  | FileNode (bytes : list N)
  | DirNode (empty : bool).

Inductive Kind := KFile | KDirectory.

#[global] Instance Kind_eq_dec : EqDecision Kind.
Proof. solve_decision. Defined.

Definition kind_of (n : Node) : Kind :=
  match n with FileNode _ => KFile | DirNode _ => KDirectory end.

(** The payload of a success envelope: [undefined], a string, or an array
    of strings. *)
Inductive Payload :=
  | PVoid
  | PString (s : jsstring)
  | PStrings (l : list jsstring).

(** [SuccessResponse<T> | ErrorResponse] *)
Inductive OPFSResponse :=
  | SuccessResponse (correlationId : jsstring) (data : Payload)
  | ErrorResponse (correlationId : jsstring) (error : jsstring).

Definition response_id (r : OPFSResponse) : jsstring :=
  match r with
  | SuccessResponse c _ => c
  | ErrorResponse c _ => c
  end.

Definition response_ok (r : OPFSResponse) : bool :=
  match r with
  | SuccessResponse _ _ => true
  | ErrorResponse _ _ => false
  end.

(** The envelope as the handlers read it: [type] is whatever value arrived,
    [fileName] and [content] are read only by the operations that have
    them. *)
Record OPFSRequest := {
  correlationId : jsstring;
  type : JsVal;
  fileName : jsstring;
  content : jsstring
}.

(** The calls a run makes on the platform, in order. *)
Inductive Call :=
  | CPersist
  | CGetDirectory
  | CValues
  | CGetFileHandle (name : jsstring) (create : bool)
  | CCreateSyncAccessHandle (name : jsstring)
  | CEncode (s : jsstring)
  | CTruncate (h : jsstring) (size : nat)
  | CWrite (h : jsstring) (buf : list N) (at_ : nat)
  | CFlush (h : jsstring)
  | CClose (h : jsstring)
  | CGetFile (name : jsstring)
  | CText (name : jsstring)
  | CRemoveEntry (name : jsstring)
  | CPostMessage (r : OPFSResponse).

(** The state of the worker's world: the root directory in the order its
    iterator yields the entries, the files whose sync access handle is open
    (each holds the exclusive lock of its file), and the calls made so far. *)
Record World := {
  entries : list (jsstring * Node);
  locks : list jsstring;
  trace : list Call
}.

Module Backend.

(** Asynchronous code over the world: a state and completion monad. *)
Definition M (A : Type) : Type := World -> Completion A * World.

Definition ret {A} (a : A) : M A := fun w => (Normal a, w).
Definition throw {A} (e : Thrown) : M A := fun w => (Throw e, w).
Definition bind {A B} (m : M A) (k : A -> M B) : M B :=
  fun w => match m w with
           | (Normal a, w') => k a w'
           | (Throw e, w') => (Throw e, w')
           end.

(** [try { body } finally { fin }]: [fin] runs on every exit of [body]; a
    throw of [fin] replaces the completion of [body]. *)
Definition try_finally {A} (body : M A) (fin : M unit) : M A :=
  fun w => let '(c, w1) := body w in
           match fin w1 with
           | (Normal _, w2) => (c, w2)
           | (Throw e, w2) => (Throw e, w2)
           end.

(** [try { body } catch (err) { handler(err) }] *)
Definition try_catch {A} (body : M A) (handler : Thrown -> M A) : M A :=
  fun w => match body w with
           | (Normal a, w1) => (Normal a, w1)
           | (Throw e, w1) => handler e w1
           end.

Definition record (c : Call) : M unit :=
  fun w => (Normal tt,
            {| entries := entries w; locks := locks w; trace := trace w ++ [c] |}).

Definition get_entries : M (list (jsstring * Node)) :=
  fun w => (Normal (entries w), w).
Definition set_entries (es : list (jsstring * Node)) : M unit :=
  fun w => (Normal tt, {| entries := es; locks := locks w; trace := trace w |}).
Definition get_locks : M (list jsstring) :=
  fun w => (Normal (locks w), w).
Definition set_locks (ls : list jsstring) : M unit :=
  fun w => (Normal tt, {| entries := entries w; locks := ls; trace := trace w |}).

Definition native {A} (P : Platform) (n : ErrName) : M A :=
  throw (ThrowNative n (message_of P n)).

(** A call the platform may fail. *)
Definition may_fail (f : option (ErrName * jsstring)) : M unit :=
  match f with
  | Some (n, msg) => throw (ThrowNative n msg)
  | None => ret tt
  end.

Fixpoint lookup_entry (name : jsstring) (es : list (jsstring * Node)) : option Node :=
  match es with
  | [] => None
  | (n, node) :: es' =>
      if decide (n = name) then Some node else lookup_entry name es'
  end.

Fixpoint update_entry (name : jsstring) (node : Node) (es : list (jsstring * Node))
  : list (jsstring * Node) :=
  match es with
  | [] => []
  | (n, old) :: es' =>
      if decide (n = name) then (n, node) :: es'
      else (n, old) :: update_entry name node es'
  end.

Definition delete_entry (name : jsstring) (es : list (jsstring * Node))
  : list (jsstring * Node) :=
  filter (fun e => fst e ≠ name) es.

Definition is_locked (name : jsstring) (ls : list jsstring) : bool :=
  bool_decide (name ∈ ls).

Definition unlock (name : jsstring) (ls : list jsstring) : list jsstring :=
  filter (fun n => n ≠ name) ls.

(** What Chromium makes of a name: it ends before the first U+0000. *)
Fixpoint cut_at_nul (s : jsstring) : jsstring :=
  match s with
  | [] => []
  | c :: rest => if c =? 0 then [] else c :: cut_at_nul rest
  end.

(** The name of the entry a [name] argument designates.  The argument is
    converted to a USVString, so a lone surrogate in it stands for U+FFFD,
    and the name ends before the first U+0000. *)
Definition entry_name (name : jsstring) : jsstring :=
  cut_at_nul (Utf8.toWellFormed name).

(** A new entry at place [k] of the directory. *)
Definition insert_entry (k : nat) (e : jsstring * Node) (es : list (jsstring * Node))
  : list (jsstring * Node) :=
  take k es ++ e :: drop k es.

(** A valid file name: not empty, not "." or "..", without "/". *)
Definition valid_name (name : jsstring) : bool :=
  negb (bool_decide (name = [])) && negb (bool_decide (name = js "."))
  && negb (bool_decide (name = js "..")) && negb (bool_decide (47 ∈ name)).

(** [file.truncate(size)]: cut, or pad with zero bytes. *)
Definition truncate_bytes (size : nat) (bs : list N) : list N :=
  take size bs ++ replicate (size - length bs) 0.

(** [file.write(buf, { at })]: overwrite from offset [at], extending the
    file (with zero bytes up to [at]) when needed. *)
Definition write_bytes (buf : list N) (at_ : nat) (bs : list N) : list N :=
  take at_ bs ++ replicate (at_ - length bs) 0 ++ buf ++ drop (at_ + length buf) bs.

(** [await navigator.storage.getDirectory()] *)
Definition getDirectory (P : Platform) : M unit :=
  bind (record CGetDirectory) (fun _ =>
  if storage P && getDirectory_present P
  then may_fail (fault_getDirectory P)
  else native P TypeError).

(** The entries [root.values()] yields, names and kinds. *)
Definition values (P : Platform) : M (list (jsstring * Kind)) :=
  bind (record CValues) (fun _ =>
  bind (may_fail (fault_values P)) (fun _ =>
  bind get_entries (fun es =>
  ret (map (fun e => (fst e, kind_of (snd e))) es)))).

(** [await root.getFileHandle(name, { create })]: the handle is the name of
    the entry. *)
Definition getFileHandle (P : Platform) (name : jsstring) (create : bool)
  : M jsstring :=
  bind (record (CGetFileHandle name create)) (fun _ =>
  bind (may_fail (fault_getFileHandle P)) (fun _ =>
  let entry := entry_name name in
  if negb (valid_name entry) then native P TypeError else
  bind get_entries (fun es =>
  match lookup_entry entry es with
  | Some (FileNode _) => ret entry
  | Some (DirNode _) => native P TypeMismatchError
  | None =>
      if create
      then bind (set_entries
                   (insert_entry (position P entry (map fst es))
                      (entry, FileNode []) es)) (fun _ =>
           ret entry)
      else native P NotFoundError
  end))).

(** [await fileHandle.createSyncAccessHandle()]: takes the exclusive lock. *)
Definition createSyncAccessHandle (P : Platform) (fh : jsstring) : M jsstring :=
  bind (record (CCreateSyncAccessHandle fh)) (fun _ =>
  bind (may_fail (fault_createSyncAccessHandle P)) (fun _ =>
  bind get_entries (fun es =>
  match lookup_entry fh es with
  | Some (FileNode _) =>
      bind get_locks (fun ls =>
      if is_locked fh ls then native P NoModificationAllowedError
      else bind (set_locks (fh :: ls)) (fun _ => ret fh))
  | _ => native P NotFoundError
  end))).

(** An operation of an open sync access handle on the bytes of its file. *)
Definition on_handle (P : Platform) (h : jsstring) (f : list N -> list N) : M unit :=
  bind get_locks (fun ls =>
  if negb (is_locked h ls) then native P InvalidStateError else
  bind get_entries (fun es =>
  match lookup_entry h es with
  | Some (FileNode bs) => set_entries (update_entry h (FileNode (f bs)) es)
  | _ => native P InvalidStateError
  end)).

(** [new TextEncoder().encode(s)] *)
Definition TextEncoder_encode (P : Platform) (s : jsstring) : M (list N) :=
  bind (record (CEncode s)) (fun _ =>
  bind (may_fail (fault_encode P)) (fun _ =>
  ret (Utf8.encode s))).

(** [syncHandle.truncate(size)] *)
Definition truncate (P : Platform) (h : jsstring) (size : nat) : M unit :=
  bind (record (CTruncate h size)) (fun _ =>
  bind (may_fail (fault_truncate P)) (fun _ =>
  on_handle P h (truncate_bytes size))).

(** [syncHandle.write(buf, { at })] *)
Definition write (P : Platform) (h : jsstring) (buf : list N) (at_ : nat) : M nat :=
  bind (record (CWrite h buf at_)) (fun _ =>
  bind (may_fail (fault_write P)) (fun _ =>
  bind (on_handle P h (write_bytes buf at_)) (fun _ =>
  ret (length buf)))).

(** [syncHandle.flush()] *)
Definition flush (P : Platform) (h : jsstring) : M unit :=
  bind (record (CFlush h)) (fun _ =>
  bind (may_fail (fault_flush P)) (fun _ =>
  on_handle P h (fun bs => bs))).

(** [syncHandle.close()]: releases the lock; never throws. *)
Definition close (h : jsstring) : M unit :=
  bind (record (CClose h)) (fun _ =>
  bind get_locks (fun ls => set_locks (unlock h ls))).

(** [await fileHandle.getFile()]: a snapshot of the bytes. *)
Definition getFile (P : Platform) (fh : jsstring) : M (list N) :=
  bind (record (CGetFile fh)) (fun _ =>
  bind (may_fail (fault_getFile P)) (fun _ =>
  bind get_entries (fun es =>
  match lookup_entry fh es with
  | Some (FileNode bs) => ret bs
  | _ => native P NotFoundError
  end))).

(** [await file.text()] *)
Definition text (P : Platform) (fh : jsstring) (bs : list N) : M jsstring :=
  bind (record (CText fh)) (fun _ =>
  bind (may_fail (fault_text P)) (fun _ =>
  ret (Utf8.decode bs))).

(** [await root.removeEntry(name)] (not recursive) *)
Definition removeEntry (P : Platform) (name : jsstring) : M unit :=
  bind (record (CRemoveEntry name)) (fun _ =>
  bind (may_fail (fault_removeEntry P)) (fun _ =>
  let entry := entry_name name in
  if negb (valid_name entry) then native P TypeError else
  bind get_entries (fun es =>
  match lookup_entry entry es with
  | None => native P NotFoundError
  | Some (DirNode false) => native P InvalidModificationError
  | Some _ =>
      bind get_locks (fun ls =>
      if is_locked entry ls then native P NoModificationAllowedError
      else set_entries (delete_entry entry es))
  end))).

(** [self.postMessage(r)] *)
Definition postMessage (r : OPFSResponse) : M unit := record (CPostMessage r).

(** The conversion of a value to a string, by [String(v)] and in a template
    literal [`${v}`]. *)
Definition ToString (P : Platform) (v : JsVal) : M jsstring :=
  match v with
  | JUndefined => ret (js "undefined")
  | JNull => ret (js "null")
  | JBool true => ret (js "true")
  | JBool false => ret (js "false")
  | JNumber text => ret text
  | JBigInt z => ret (BigInt_toString z)
  | JStr s => ret s
  | JObject (Some text) => ret text
  | JObject None => native P TypeError
  end.

End Backend.

(* ================================================================== *)
(** ** [src/opfs.worker.ts]: the operations and the dispatcher *)
(* ================================================================== *)

Module OpfsWorker.
Import Backend.

(** [names.sort(cmp)].  The sort of an array is stable, and with a consistent
    comparator its result is the one stable ordering, computed here by
    insertion: an element goes before the first one it does not follow. *)
Fixpoint sort_insert {A} (cmp : A -> A -> Z) (x : A) (l : list A) : list A :=
  match l with
  | [] => [x]
  | y :: l' => if (cmp x y <=? 0)%Z then x :: y :: l' else y :: sort_insert cmp x l'
  end.

Fixpoint sort {A} (cmp : A -> A -> Z) (l : list A) : list A :=
  match l with
  | [] => []
  | x :: l' => sort_insert cmp x (sort cmp l')
  end.

Definition opfsInit (P : Platform) : M unit :=
  if negb (storage P && getDirectory_present P)
  then throw (ThrowError (js "OPFS is not supported in this browser."))
  else
    bind (match persist P with
          | Some outcome =>
              bind (record CPersist) (fun _ =>
              match outcome with
              | PersistResolves _ => ret tt
              | PersistRejects n msg => throw (ThrowNative n msg)
              end)
          | None => ret tt
          end) (fun _ =>
    getDirectory P).

(** The loop of [opfsList] over the entries the iterator yields. *)
Fixpoint collect_names (es : list (jsstring * Kind)) (names : list jsstring)
  : list jsstring :=
  match es with
  | [] => names
  | (name, kind) :: es' =>
      match kind with
      | KFile =>
          if negb (startsWith_dot name)
          then collect_names es' (names ++ [name])
          else collect_names es' names
      | KDirectory => collect_names es' names
      end
  end.

Definition opfsList (P : Platform) : M (list jsstring) :=
  bind (getDirectory P) (fun root =>
  bind (values P) (fun es =>
  let names := collect_names es [] in
  ret (sort (localeCompare P) names))).

Definition opfsCreate (P : Platform) (fileName content : jsstring) : M jsstring :=
  bind (getDirectory P) (fun root =>
  bind (getFileHandle P fileName true) (fun fileHandle =>
  bind (createSyncAccessHandle P fileHandle) (fun syncHandle =>
  bind (try_finally
          (bind (TextEncoder_encode P content) (fun encoded =>
           bind (truncate P syncHandle 0) (fun _ =>
           bind (write P syncHandle encoded 0) (fun _ =>
           flush P syncHandle))))
          (close syncHandle)) (fun _ =>
  ret fileName)))).

Definition opfsRead (P : Platform) (fileName : jsstring) : M jsstring :=
  bind (getDirectory P) (fun root =>
  bind (getFileHandle P fileName false) (fun fileHandle =>
  bind (getFile P fileHandle) (fun file =>
  text P fileHandle file))).

Definition opfsUpdate (P : Platform) (fileName content : jsstring) : M unit :=
  bind (getDirectory P) (fun root =>
  bind (getFileHandle P fileName false) (fun fileHandle =>
  bind (createSyncAccessHandle P fileHandle) (fun syncHandle =>
  try_finally
    (bind (TextEncoder_encode P content) (fun encoded =>
     bind (truncate P syncHandle 0) (fun _ =>
     bind (write P syncHandle encoded 0) (fun _ =>
     flush P syncHandle))))
    (close syncHandle)))).

Definition opfsDelete (P : Platform) (fileName : jsstring) : M unit :=
  bind (getDirectory P) (fun root =>
  removeEntry P fileName).

(** [reply] of the handler, closed over [correlationId]. *)
Definition reply (correlationId : jsstring) (data : Payload) : M unit :=
  postMessage (SuccessResponse correlationId data).

(** [replyError]: the message is [err.message] when [err instanceof Error],
    and [String(err)] otherwise. *)
Definition replyError (P : Platform) (correlationId : jsstring) (err : Thrown)
  : M unit :=
  bind (match err with
        | ThrowError message => ret message
        | ThrowNative _ message => ret message
        | ThrowValue v => ToString P v
        end) (fun message =>
  postMessage (ErrorResponse correlationId message)).

(** [self.onmessage], on [event.data]. *)
Definition onmessage (P : Platform) (data : OPFSRequest) : M unit :=
  let correlationId := correlationId data in
  let type := type data in
  try_catch
    (if decide (type = JStr (js "init")) then
       bind (opfsInit P) (fun _ => reply correlationId PVoid)
     else if decide (type = JStr (js "list")) then
       bind (opfsList P) (fun names => reply correlationId (PStrings names))
     else if decide (type = JStr (js "create")) then
       bind (opfsCreate P (fileName data) (content data)) (fun name =>
       reply correlationId (PString name))
     else if decide (type = JStr (js "read")) then
       bind (opfsRead P (fileName data)) (fun s =>
       reply correlationId (PString s))
     else if decide (type = JStr (js "update")) then
       bind (opfsUpdate P (fileName data) (content data)) (fun _ =>
       reply correlationId PVoid)
     else if decide (type = JStr (js "delete")) then
       bind (opfsDelete P (fileName data)) (fun _ => reply correlationId PVoid)
     else
       bind (ToString P type) (fun text =>
       replyError P correlationId
         (ThrowValue (JStr (js "Unknown message type: " ++ text)))))
    (fun err => replyError P correlationId err).

(** The envelopes a run posted. *)
Definition posted (t : list Call) : list OPFSResponse :=
  omap (fun c => match c with CPostMessage r => Some r | _ => None end) t.

End OpfsWorker.

(* ================================================================== *)
(** ** [src/OPFS.ts]: the bridge of the calling context *)
(* ================================================================== *)

(** One call of [resolve] or [reject] of a promise. *)
Inductive Settlement :=
  | Resolved (data : Payload)
  | Rejected (reason : Thrown).

(** A [Worker] object: the handlers set on it, and the envelopes posted to
    it that it has not answered yet. *)
Record WorkerObj := {
  onerror_set : bool;
  onmessage_set : bool;
  inbox : list OPFSRequest
}.

(** The module state of [OPFS.ts] together with the objects it created.  A
    worker is named by its index in [workers], a promise by its index in
    [promises].  [PendingResolvers] is the [resolve]/[reject] pair of one
    promise, so it is named by that promise.  For each promise the calls made
    to its [resolve] and [reject] are kept in order: the first one settles
    it, and it is unsettled while there is none. *)
Record Bridge := {
  worker : option nat;
  workers : list WorkerObj;
  pending : gmap jsstring nat;
  promises : list (list Settlement)
}.

(** The six procedures of [OPFSFileSystem] with their arguments. *)
Inductive Procedure :=
  | Init
  | List_
  | Create (fileName content : jsstring)
  | Read (fileName : jsstring)
  | Update (fileName content : jsstring)
  | Delete (fileName : jsstring).

(** What happens to the bridge: a caller invokes a procedure (and
    [crypto.randomUUID()] returns [uuid] in it), a worker object receives a
    [message] event, or an [error] event. *)
Inductive Event :=
  | ECall (uuid : jsstring) (proc : Procedure)
  | EMessage (w : nat) (data : OPFSResponse)
  | EError (w : nat).


Module OPFS.

Definition initial : Bridge :=
  {| worker := None; workers := []; pending := ∅; promises := [] |}.

Definition set_worker (v : option nat) (s : Bridge) : Bridge :=
  {| worker := v; workers := workers s; pending := pending s;
     promises := promises s |}.

Definition set_workers (ws : list WorkerObj) (s : Bridge) : Bridge :=
  {| worker := worker s; workers := ws; pending := pending s;
     promises := promises s |}.

Definition set_pending (m : gmap jsstring nat) (s : Bridge) : Bridge :=
  {| worker := worker s; workers := workers s; pending := m;
     promises := promises s |}.

Definition set_promises (ps : list (list Settlement)) (s : Bridge) : Bridge :=
  {| worker := worker s; workers := workers s; pending := pending s;
     promises := ps |}.

(** [new Worker(...)]: a fresh object without handlers. *)
Definition new_Worker (s : Bridge) : nat * Bridge :=
  (length (workers s),
   set_workers (workers s ++ [{| onerror_set := false; onmessage_set := false;
                                 inbox := [] |}]) s).

(** The handler of [worker.onerror]. *)
Definition onerror (s : Bridge) : Bridge := set_worker None s.

(** [resolvers.resolve(v)] and [resolvers.reject(e)] *)
Definition settle (p : nat) (o : Settlement) (s : Bridge) : Bridge :=
  set_promises (alter (fun calls => calls ++ [o]) p (promises s)) s.

(** The handler [attachResponseListener] sets as [w.onmessage]. *)
Definition onmessage (data : OPFSResponse) (s : Bridge) : Bridge :=
  let correlationId := response_id data in
  match pending s !! correlationId with
  | None => s
  | Some resolvers =>
      let s1 := set_pending (delete correlationId (pending s)) s in
      match data with
      | SuccessResponse _ d => settle resolvers (Resolved d) s1
      | ErrorResponse _ error => settle resolvers (Rejected (ThrowError error)) s1
      end
  end.

Definition attachResponseListener (w : nat) (s : Bridge) : Bridge :=
  set_workers
    (alter (fun o => {| onerror_set := onerror_set o; onmessage_set := true;
                        inbox := inbox o |}) w (workers s)) s.

Definition set_onerror (w : nat) (s : Bridge) : Bridge :=
  set_workers
    (alter (fun o => {| onerror_set := true; onmessage_set := onmessage_set o;
                        inbox := inbox o |}) w (workers s)) s.

Definition getWorker (s : Bridge) : nat * Bridge :=
  match worker s with
  | Some w => (w, s)
  | None =>
      let '(w, s1) := new_Worker s in
      let s2 := set_worker (Some w) s1 in
      let s3 := set_onerror w s2 in
      let s4 := attachResponseListener w s3 in
      (w, s4)
  end.

(** [new Promise(...)]: a fresh unsettled promise. *)
Definition new_Promise (s : Bridge) : nat * Bridge :=
  (length (promises s), set_promises (promises s ++ [[]]) s).

(** [pending.set(id, { resolve, reject })] *)
Definition pending_set (id : jsstring) (p : nat) (s : Bridge) : Bridge :=
  set_pending (<[id := p]> (pending s)) s.

(** [w.postMessage(request)] *)
Definition postMessage (w : nat) (request : OPFSRequest) (s : Bridge) : Bridge :=
  set_workers
    (alter (fun o => {| onerror_set := onerror_set o;
                        onmessage_set := onmessage_set o;
                        inbox := inbox o ++ [request] |}) w (workers s)) s.

(** The code of the bridge is synchronous: a function runs to completion,
    one statement after the other.  [Steps A] gives, from the state at the
    start, the result, the state at the end, and the state after each
    statement, in the order of execution. *)
Definition Steps (A : Type) : Type := Bridge -> A * Bridge * list Bridge.

(** One statement, with its value. *)
Definition stmt {A} (f : Bridge -> A * Bridge) : Steps A :=
  fun s => let '(a, s1) := f s in (a, s1, [s1]).

(** One statement without a value. *)
Definition stmt_ (f : Bridge -> Bridge) : Steps unit :=
  fun s => (tt, f s, [f s]).

(** [m; k]: the statements of [m], then those of [k]. *)
Definition then_ {A B} (m : Steps A) (k : A -> Steps B) : Steps B :=
  fun s => let '(a, s1, l1) := m s in
           let '(b, s2, l2) := k a s1 in
           (b, s2, l1 ++ l2).

Definition return_ {A} (a : A) : Steps A := fun s => (a, s, []).

(** The states a function passes through, from the first statement on. *)
Definition moments {A} (m : Steps A) (s : Bridge) : list Bridge := snd (m s).

(** The body of [send]: [new Promise] creates the promise and calls its
    executor at once, which sets the entry and then posts the envelope. *)
Definition send_body (request : OPFSRequest) : Steps nat :=
  then_ (stmt getWorker) (fun w =>
  then_ (stmt new_Promise) (fun p =>
  then_ (stmt_ (pending_set (correlationId request) p)) (fun _ =>
  then_ (stmt_ (postMessage w request)) (fun _ =>
  return_ p)))).

Definition send (request : OPFSRequest) (s : Bridge) : nat * Bridge :=
  let '(p, s', _) := send_body request s in (p, s').

(** The envelope each procedure of [OPFSFileSystem] sends; a field the
    envelope does not have is left empty. *)
Definition request_of (uuid : jsstring) (proc : Procedure) : OPFSRequest :=
  match proc with
  | Init => {| correlationId := uuid; type := JStr (js "init");
               fileName := []; content := [] |}
  | List_ => {| correlationId := uuid; type := JStr (js "list");
                fileName := []; content := [] |}
  | Create f c => {| correlationId := uuid; type := JStr (js "create");
                     fileName := f; content := c |}
  | Read f => {| correlationId := uuid; type := JStr (js "read");
                 fileName := f; content := [] |}
  | Update f c => {| correlationId := uuid; type := JStr (js "update");
                     fileName := f; content := c |}
  | Delete f => {| correlationId := uuid; type := JStr (js "delete");
                   fileName := f; content := [] |}
  end.

(** [OPFSFileSystem]: each of its six procedures sends its envelope, with
    the value [crypto.randomUUID()] returns in it as correlation id. *)
Definition OPFSFileSystem (uuid : jsstring) (proc : Procedure) (s : Bridge)
  : nat * Bridge :=
  send (request_of uuid proc) s.

(** The first envelope with this id leaves the inbox: it is answered. *)
Fixpoint answered (id : jsstring) (l : list OPFSRequest) : list OPFSRequest :=
  match l with
  | [] => []
  | r :: l' => if decide (correlationId r = id) then l' else r :: answered id l'
  end.

(** A [message] event on worker [w]: the envelope it answers is no longer
    in flight, and the handler runs if one is set. *)
Definition deliver (w : nat) (data : OPFSResponse) (s : Bridge) : Bridge :=
  match workers s !! w with
  | Some o =>
      let s1 := set_workers
                  (alter (fun o => {| onerror_set := onerror_set o;
                                      onmessage_set := onmessage_set o;
                                      inbox := answered (response_id data) (inbox o) |})
                         w (workers s)) s in
      if onmessage_set o then onmessage data s1 else s1
  | None => s
  end.

Definition step (s : Bridge) (e : Event) : Bridge :=
  match e with
  | ECall uuid proc => snd (OPFSFileSystem uuid proc s)
  | EMessage w data => deliver w data s
  | EError w =>
      match workers s !! w with
      | Some o => if onerror_set o then onerror s else s
      | None => s
      end
  end.

Definition run (s : Bridge) (es : list Event) : Bridge := foldl step s es.

(** The states the bridge passes through on an event: those of the
    statements of [send] on a call, the state after the handler otherwise. *)
Definition step_moments (s : Bridge) (e : Event) : list Bridge :=
  match e with
  | ECall uuid proc => moments (send_body (request_of uuid proc)) s
  | _ => [step s e]
  end.

Fixpoint run_moments (s : Bridge) (es : list Event) : list Bridge :=
  match es with
  | [] => []
  | e :: es' => step_moments s e ++ run_moments (step s e) es'
  end.



(** The envelopes in flight: posted to some worker and not answered. *)
Definition in_flight (s : Bridge) : list OPFSRequest :=
  flat_map inbox (workers s).

(** The calls made so far to the resolvers of promise [p]. *)
Definition settlements (p : nat) (s : Bridge) : list Settlement :=
  default [] (promises s !! p).

End OPFS.

(* ================================================================== *)
(** ** The vocabulary of the statements about the worker *)
(* ================================================================== *)

Module WorkerSpec.
Import Utf8 Backend OpfsWorker.

(** A state of the decoder from its five components. *)
Definition mkDecState := Build_DecState.

(** A Unicode scalar value: a code point that is not a surrogate. *)
Definition scalar (cp : N) : Prop := cp < 0x110000 /\ is_surrogate cp = false.

(** What a call throws when the platform fails it. *)
Definition call_fails (f : option (ErrName * jsstring)) : option Thrown :=
  match f with Some (n, msg) => Some (ThrowNative n msg) | None => None end.

(** The world after one more call. *)
Definition logged (c : Call) (w : World) : World :=
  {| entries := entries w; locks := locks w; trace := trace w ++ [c] |}.

(** The world with new bytes in file [h]. *)
Definition with_bytes (h : jsstring) (bs : list N) (w : World) : World :=
  {| entries := update_entry h (FileNode bs) (entries w); locks := locks w;
     trace := trace w |}.

(** The calls of the write path on an acquired handle, before its close. *)
Definition write_calls (h content : jsstring) : list Call :=
  [CEncode content; CTruncate h 0; CWrite h (Utf8.encode content) 0; CFlush h].

(** The [try]/[finally] block that [opfsCreate] and [opfsUpdate] share. *)
Definition write_block (P : Platform) (h content : jsstring) : M unit :=
  try_finally
    (bind (TextEncoder_encode P content) (fun encoded =>
     bind (truncate P h 0) (fun _ =>
     bind (write P h encoded 0) (fun _ =>
     flush P h))))
    (close h).

(** The world when the block is left after [k] of its calls: the handle is
    closed, the entries are [es]. *)
Definition closed_after (h content : jsstring) (k : nat)
    (es : list (jsstring * Node)) (w : World) : World :=
  {| entries := es; locks := unlock h (locks w);
     trace := trace w ++ take k (write_calls h content) ++ [CClose h] |}.

(** The three awaited calls by which [opfsCreate] and [opfsUpdate] get
    their sync access handle. *)
Definition acquire (P : Platform) (name : jsstring) (create : bool) : M jsstring :=
  bind (getDirectory P) (fun _ =>
  bind (getFileHandle P name create) (fun fileHandle =>
  createSyncAccessHandle P fileHandle)).

(** These three calls in the trace; the handle is the entry the name
    designates. *)
Definition acquire_calls (name : jsstring) (create : bool) : list Call :=
  [CGetDirectory; CGetFileHandle name create;
   CCreateSyncAccessHandle (entry_name name)].

(** What a completion threw, if it is abrupt. *)
Definition thrown {A} (c : Completion A) : option Thrown :=
  match c with Normal _ => None | Throw e => Some e end.

(** What a run of the write path of [create] or [update] leaves: the locks
    as they were, and either the handle was never acquired, or the calls on
    it are a prefix of truncate, write, flush (after the encoding) followed
    by its close. *)
Definition write_path (create : bool) (name content : jsstring)
    (w : World) (failure : option Thrown) (w' : World) : Prop :=
  locks w' = locks w /\
  ((is_Some failure /\
    exists k, (1 <= k <= 3)%nat /\
      trace w' = trace w ++ take k (acquire_calls name create)) \/
   (exists k, (1 <= k <= 4)%nat /\
      trace w' = trace w ++ acquire_calls name create
                   ++ take k (write_calls (entry_name name) content)
                   ++ [CClose (entry_name name)] /\
      (failure = None ->
       k = 4%nat /\
       lookup_entry (entry_name name) (entries w')
         = Some (FileNode (Utf8.encode content))))).

(** The storage is there and the platform fails no call. *)
Definition healthy (P : Platform) : Prop :=
  storage P = true /\ getDirectory_present P = true /\
  fault_getDirectory P = None /\ fault_values P = None /\
  fault_getFileHandle P = None /\ fault_createSyncAccessHandle P = None /\
  fault_encode P = None /\ fault_truncate P = None /\ fault_write P = None /\
  fault_flush P = None /\ fault_getFile P = None /\ fault_text P = None /\
  fault_removeEntry P = None.

(** The store is as it was. *)
Definition unchanged (w w' : World) : Prop :=
  entries w' = entries w /\ locks w' = locks w.

(** The error of the platform for a missing entry. *)
Definition not_found (P : Platform) : Thrown :=
  ThrowNative NotFoundError (message_of P NotFoundError).

(** The error [opfsInit] throws itself. *)
Definition unsupported : Thrown :=
  ThrowError (js "OPFS is not supported in this browser.").

(** The world after the calls [t], the store as it was. *)
Definition with_trace (t : list Call) (w : World) : World :=
  {| entries := entries w; locks := locks w; trace := trace w ++ t |}.

(** The names [list] is to return, before sorting: the file entries whose
    name does not start with a dot. *)
Definition visible (es : list (jsstring * Node)) : list jsstring :=
  map fst
    (filter (fun e => kind_of (snd e) = KFile /\ startsWith_dot (fst e) = false)
       es).

(** A consistent comparator: the results for (a, b) and (b, a) have opposite
    signs, and "not after" is transitive. *)
Definition consistent {A} (cmp : A -> A -> Z) : Prop :=
  (forall a b, (cmp a b < 0)%Z <-> (0 < cmp b a)%Z) /\
  (forall a b c, (cmp a b <= 0)%Z -> (cmp b c <= 0)%Z -> (cmp a c <= 0)%Z).

(** Ordering by code units, the collation of the sample platform. *)
Fixpoint compare_units (a b : jsstring) : Z :=
  match a, b with
  | [], [] => 0
  | [], _ :: _ => -1
  | _ :: _, [] => 1
  | x :: a', y :: b' =>
      if x <? y then -1 else if y <? x then 1 else compare_units a' b'
  end.

(** [a] does not come after [b]. *)
Definition ordered {A} (cmp : A -> A -> Z) (a b : A) : Prop := (cmp a b <= 0)%Z.

(** The operation an envelope selects, with its result as the payload of
    the reply; [None] when [type] is none of the six names. *)
Definition executor (P : Platform) (data : OPFSRequest) : option (M Payload) :=
  if decide (type data = JStr (js "init")) then
    Some (bind (opfsInit P) (fun _ => ret PVoid))
  else if decide (type data = JStr (js "list")) then
    Some (bind (opfsList P) (fun names => ret (PStrings names)))
  else if decide (type data = JStr (js "create")) then
    Some (bind (opfsCreate P (fileName data) (content data)) (fun name => ret (PString name)))
  else if decide (type data = JStr (js "read")) then
    Some (bind (opfsRead P (fileName data)) (fun s => ret (PString s)))
  else if decide (type data = JStr (js "update")) then
    Some (bind (opfsUpdate P (fileName data) (content data)) (fun _ => ret PVoid))
  else if decide (type data = JStr (js "delete")) then
    Some (bind (opfsDelete P (fileName data)) (fun _ => ret PVoid))
  else None.

(** The six values of [type] the dispatcher knows. *)
Definition recognized : list JsVal :=
  map (fun s => JStr (js s)) ["init"; "list"; "create"; "read"; "update"; "delete"]%string.

(** The string form of a value that has one. *)
Definition string_form (v : JsVal) : option jsstring :=
  match v with
  | JUndefined => Some (js "undefined")
  | JNull => Some (js "null")
  | JBool b => Some (js (if b then "true" else "false"))
  | JNumber text => Some text
  | JBigInt z => Some (BigInt_toString z)
  | JStr s => Some s
  | JObject text => text
  end.

(** An Error object: what [new Error] makes and what the platform throws. *)
Definition is_Error (e : Thrown) : Prop :=
  match e with
  | ThrowError _ | ThrowNative _ _ => True
  | ThrowValue _ => False
  end.

(** A computation that throws nothing but Error objects. *)
Definition throws_errors {A} (m : M A) : Prop :=
  forall w e, fst (m w) = Throw e -> is_Error e.

(** A computation that posts nothing. *)
Definition quiet {A} (m : M A) : Prop :=
  forall w, posted (trace (snd (m w))) = posted (trace w).

(** The place of a name among names in ascending order of code units. *)
Fixpoint by_name (name : jsstring) (names : list jsstring) : nat :=
  match names with
  | [] => 0
  | n :: rest =>
      if (compare_units n name <? 0)%Z then S (by_name name rest) else 0
  end.

(** A platform with the storage present that fails no call, ordering names
    by code units. *)
Definition sample_platform : Platform :=
  {| storage := true; getDirectory_present := true; persist := None;
     localeCompare := compare_units;
     message_of := fun n =>
       match n with
       | TypeError => js "Cannot convert object to primitive value"
       | _ => js "The operation failed."
       end;
     position := by_name;
     fault_getDirectory := None; fault_values := None;
     fault_getFileHandle := None; fault_createSyncAccessHandle := None;
     fault_encode := None; fault_truncate := None; fault_write := None;
     fault_flush := None; fault_getFile := None; fault_text := None;
     fault_removeEntry := None |}.

(** An empty root directory. *)
Definition empty_world : World := {| entries := []; locks := []; trace := [] |}.

(** The directory of the listing example, in the order of creation. *)
Definition listing_world : World :=
  {| entries := [(js "b.txt", FileNode []); (js "a.txt", FileNode []);
                 (js ".hidden", FileNode [])];
     locks := []; trace := [] |}.

(** "hé€" followed by U+1F600 as a surrogate pair. *)
Definition sample_content : jsstring := [0x68; 0xE9; 0x20AC; 0xD83D; 0xDE00].

(** An envelope whose [type] is an object that cannot be converted to a
    string, as the clone of [{ toString: 1, valueOf: 1 }] is. *)
Definition unconvertible_request : OPFSRequest :=
  {| correlationId := js "id-1"; type := JObject None;
     fileName := []; content := [] |}.

(** A directory with the one file "a.txt". *)
Definition one_file_world : World :=
  {| entries := [(js "a.txt", FileNode [0x68])]; locks := []; trace := [] |}.

End WorkerSpec.

(* ================================================================== *)
(** ** The vocabulary of the statements about the bridge *)
(* ================================================================== *)

Module BridgeSpec.
Import OPFS.

(** The call of [resolve] or [reject] an envelope leads to. *)
Definition settlement_of (data : OPFSResponse) : Settlement :=
  match data with
  | SuccessResponse _ d => Resolved d
  | ErrorResponse _ error => Rejected (ThrowError error)
  end.

(** What holds of the bridge after any sequence of events. *)
Record bridge_inv (s : Bridge) : Prop := {
  inv_unsettled : forall id p, pending s !! id = Some p -> promises s !! p = Some [];
  inv_injective : forall id1 id2 p,
    pending s !! id1 = Some p -> pending s !! id2 = Some p -> id1 = id2;
  inv_once : forall p calls, promises s !! p = Some calls -> (length calls <= 1)%nat;
  inv_handlers : forall w o, workers s !! w = Some o ->
    onerror_set o = true /\ onmessage_set o = true;
  inv_slot : forall w, worker s = Some w -> is_Some (workers s !! w)
}.

(** A worker object with one more envelope posted to it. *)
Definition post (request : OPFSRequest) (o : WorkerObj) : WorkerObj :=
  {| onerror_set := onerror_set o; onmessage_set := onmessage_set o;
     inbox := inbox o ++ [request] |}.

(** The worker object [getWorker] creates, both handlers set. *)
Definition fresh_worker : WorkerObj :=
  {| onerror_set := true; onmessage_set := true; inbox := [] |}.

(** A worker object after it answered the envelope with this id. *)
Definition answer (id : jsstring) (o : WorkerObj) : WorkerObj :=
  {| onerror_set := onerror_set o; onmessage_set := onmessage_set o;
     inbox := answered id (inbox o) |}.

(** Calls issued in a row, each with the id [crypto.randomUUID] gives it. *)
Definition issue (calls : list (jsstring * Procedure)) : list Event :=
  map (fun c => ECall (fst c) (snd c)) calls.

(** What the bridge's surroundings do: [crypto.randomUUID] gives an id that
    no outstanding call has, and a worker answers an envelope it was sent and
    has not answered. *)
Definition admissible (s : Bridge) (e : Event) : Prop :=
  match e with
  | ECall u _ => pending s !! u = None
  | EMessage w data =>
      exists o req, workers s !! w = Some o /\ req ∈ inbox o /\
                    correlationId req = response_id data
  | EError w => True
  end.

(** Every event of the sequence is admissible where it happens. *)
Fixpoint admissible_run (s : Bridge) (es : list Event) : Prop :=
  match es with
  | [] => True
  | e :: es' => admissible s e /\ admissible_run (step s e) es'
  end.

(** Every envelope in flight has its entry, and no two have the same id. *)
Record flight_inv (s : Bridge) : Prop := {
  flight_registered :
    forall req, req ∈ in_flight s -> is_Some (pending s !! correlationId req);
  flight_distinct : NoDup (map correlationId (in_flight s))
}.




(** Every envelope in flight has its entry in the registry. *)
Definition registered (s : Bridge) : Prop :=
  forall req, req ∈ in_flight s -> is_Some (pending s !! correlationId req).




(** Two calls, then the answer of worker 0 to the second. *)
Definition sample_events : list Event :=
  [ECall (js "id-1") Init; ECall (js "id-2") List_;
   EMessage 0 (SuccessResponse (js "id-2") (PStrings []))].

(** The bridge after call A. *)
Definition after_call_A : Bridge := run initial [ECall (js "A") Init].



(** A failure envelope for call A. *)
Definition late_answer_A : OPFSResponse := ErrorResponse (js "A") (js "late").

End BridgeSpec.

(* ================================================================== *)
(** ** The helpers of the user interface ([App]) *)
(* ================================================================== *)

Module App.




(** [s.substring(start, end)] for [start <= end]. *)
Definition substring (start end_ : nat) (s : jsstring) : jsstring :=
  take (end_ - start) (drop start s).

(** The name [createNewFile] makes up; [digits] is
    [Math.random().toString(36)]. *)
Definition randomName (digits : jsstring) : jsstring :=
  js "note_" ++ substring 2 7 digits ++ js ".txt".

Inductive LogType := info | success | warning | error.

(** A log entry; [id] is the number [Math.random()] returned, by its
    text. *)
Record LogEntry := {
  id : jsstring;
  timestamp : jsstring;
  message : jsstring;
  type_ : LogType
}.

(** The update [addLog] applies to the logs: the new entry first, at most
    50 kept. *)
Definition addLog (entry : LogEntry) (previousLogs : list LogEntry)
  : list LogEntry :=
  take 50 (entry :: previousLogs).

End App.

(* ================================================================== *)
(** ** The vocabulary of further statements *)
(* ================================================================== *)

Module ExtraSpec.
Import Utf8 Backend OpfsWorker WorkerSpec OPFS BridgeSpec.

(** The string without its first code unit when that is U+FEFF. *)
Definition drop_bom (s : jsstring) : jsstring :=
  match s with
  | c :: rest => if c =? 0xFEFF then rest else s
  | [] => []
  end.


(** The names of a directory, in the order of its entries. *)
Definition names (es : list (jsstring * Node)) : list jsstring := map fst es.


(** The entries [create] or [update] can leave: those before, with the new
    empty file at its place when [create] made it, and with the bytes of the
    named file replaced by nothing or by the encoded content when the write
    path got that far. *)
Definition entries_after (P : Platform) (create : bool) (name content : jsstring)
    (es es' : list (jsstring * Node)) : Prop :=
  exists es1,
    (es1 = es \/
     (create = true /\ lookup_entry (entry_name name) es = None /\
      es1 = insert_entry (position P (entry_name name) (map fst es))
              (entry_name name, FileNode []) es)) /\
    (es' = es1 \/
     (is_Some (lookup_entry (entry_name name) es1) /\
      (es' = update_entry (entry_name name) (FileNode []) es1 \/
       es' = update_entry (entry_name name) (FileNode (Utf8.encode content)) es1))).

(** A list with one more element somewhere in it. *)
Definition inserted {A} (x : A) (l l' : list A) : Prop :=
  exists k, l' = take k l ++ x :: drop k l.

(** The platform fails no call except the given one of the write path. *)
Definition healthy_but (P : Platform)
    (encode truncate write flush : option (ErrName * jsstring)) : Prop :=
  storage P = true /\ getDirectory_present P = true /\
  fault_getDirectory P = None /\ fault_getFileHandle P = None /\
  fault_createSyncAccessHandle P = None /\
  fault_encode P = encode /\ fault_truncate P = truncate /\
  fault_write P = write /\ fault_flush P = flush.

(** The operation of the worker a procedure of the bridge stands for, with
    its result as a payload. *)
Definition operation (P : Platform) (proc : Procedure) : M Payload :=
  match proc with
  | Init => bind (opfsInit P) (fun _ => ret PVoid)
  | List_ => bind (opfsList P) (fun l => ret (PStrings l))
  | Create f c => bind (opfsCreate P f c) (fun name => ret (PString name))
  | Read f => bind (opfsRead P f) (fun s => ret (PString s))
  | Update f c => bind (opfsUpdate P f c) (fun _ => ret PVoid)
  | Delete f => bind (opfsDelete P f) (fun _ => ret PVoid)
  end.

(** The message of an Error object. *)
Definition message_of_error (e : Thrown) : jsstring :=
  match e with
  | ThrowError message | ThrowNative _ message => message
  | ThrowValue _ => []
  end.

(** The envelope that reports the outcome of an operation. *)
Definition envelope_for (id : jsstring) (c : Completion Payload) : OPFSResponse :=
  match c with
  | Normal d => SuccessResponse id d
  | Throw e => ErrorResponse id (message_of_error e)
  end.

(** The envelopes of a list of calls. *)
Definition requests (calls : list (jsstring * Procedure)) : list OPFSRequest :=
  map (fun c => request_of (fst c) (snd c)) calls.

(** The payload a procedure resolves with has the type its signature
    promises. *)
Definition payload_fits (proc : Procedure) (d : Payload) : Prop :=
  match proc with
  | Init | Update _ _ | Delete _ => d = PVoid
  | List_ => exists l, d = PStrings l
  | Create f _ => d = PString f
  | Read _ => exists s, d = PString s
  end.

(** The characters of [Math.random().toString(36)]: digits, lowercase
    letters and the point. *)
Definition base36 (c : N) : Prop := c = 46 \/ 48 <= c <= 57 \/ 97 <= c <= 122.

(** The sample platform with a write that fails. *)
Definition write_fails : Platform :=
  {| storage := true; getDirectory_present := true; persist := None;
     localeCompare := compare_units;
     message_of := message_of sample_platform;
     position := by_name;
     fault_getDirectory := None; fault_values := None;
     fault_getFileHandle := None; fault_createSyncAccessHandle := None;
     fault_encode := None; fault_truncate := None;
     fault_write := Some (QuotaExceededError, js "The quota has been exceeded.");
     fault_flush := None; fault_getFile := None; fault_text := None;
     fault_removeEntry := None |}.


End ExtraSpec.

(* ================================================================== *)
(** ** UTF-8: decoding undoes encoding *)
(* ================================================================== *)

Module Utf8Facts.
Import Utf8 WorkerSpec.

Ltac nlia := zify; Z.to_euclidean_division_equations; lia.

Section Bits.

Lemma land_high_low (a b n : N) : b < 2 ^ n -> N.land (a * 2 ^ n) b = 0.
Proof.
  intros Hb. apply N.bits_inj; intros k. rewrite N.land_spec, N.bits_0.
  destruct (N.lt_ge_cases k n) as [Hk|Hk].
  - rewrite N.mul_pow2_bits_low by auto. reflexivity.
  - destruct (N.eq_dec b 0) as [->|Hn].
    + rewrite N.bits_0. apply andb_false_r.
    + rewrite (N.bits_above_log2 b k), andb_false_r; auto.
      apply N.log2_lt_pow2; [lia|].
      eapply N.lt_le_trans; [ apply Hb | apply N.pow_le_mono_r; lia ].
Qed.

Lemma lor_high_low (a b n : N) : b < 2 ^ n -> N.lor (a * 2 ^ n) b = a * 2 ^ n + b.
Proof.
  intros Hb. rewrite N.add_nocarry_lxor, N.lxor_lor; auto using land_high_low.
Qed.

Lemma land_3F x : N.land x 0x3F = x mod 64.
Proof. exact (N.land_ones x 6). Qed.
Lemma land_1F x : N.land x 0x1F = x mod 32.
Proof. exact (N.land_ones x 5). Qed.
Lemma land_F x : N.land x 0xF = x mod 16.
Proof. exact (N.land_ones x 4). Qed.
Lemma land_7 x : N.land x 0x7 = x mod 8.
Proof. exact (N.land_ones x 3). Qed.
Lemma shiftr_6 x : N.shiftr x 6 = x / 64.
Proof. exact (N.shiftr_div_pow2 x 6). Qed.
Lemma shiftr_12 x : N.shiftr x 12 = x / 4096.
Proof. exact (N.shiftr_div_pow2 x 12). Qed.
Lemma shiftr_18 x : N.shiftr x 18 = x / 262144.
Proof. exact (N.shiftr_div_pow2 x 18). Qed.

Lemma continuation_byte x : N.lor 0x80 (N.land x 0x3F) = 128 + x mod 64.
Proof.
  rewrite land_3F. apply (lor_high_low 2 (x mod 64) 6).
  change (2 ^ 6) with 64. nlia.
Qed.

Lemma shift_in c b : N.lor (N.shiftl c 6) (N.land b 0x3F) = c * 64 + b mod 64.
Proof.
  rewrite land_3F, N.shiftl_mul_pow2. apply (lor_high_low c (b mod 64) 6).
  change (2 ^ 6) with 64. nlia.
Qed.

End Bits.

Lemma encode_scalar_bytes cp :
  encode_scalar cp =
    if cp <=? 0x7F then [cp]
    else if cp <=? 0x7FF then [cp / 64 + 192; 128 + cp mod 64]
    else if cp <=? 0xFFFF then
      [cp / 4096 + 224; 128 + (cp / 64) mod 64; 128 + cp mod 64]
    else [cp / 262144 + 240; 128 + (cp / 4096) mod 64;
          128 + (cp / 64) mod 64; 128 + cp mod 64].
Proof.
  unfold encode_scalar.
  rewrite !continuation_byte, shiftr_6, shiftr_12, shiftr_18. reflexivity.
Qed.

Lemma dec_lead_1 b : b <= 0x7F -> dec_lead b = (dec_init, [b]).
Proof. intros H. unfold dec_lead. apply N.leb_le in H. rewrite H. reflexivity. Qed.

Lemma dec_lead_2 b :
  0xC2 <= b <= 0xDF -> dec_lead b = (mkDecState (b mod 32) 0 1 0x80 0xBF, []).
Proof.
  intros [H1 H2]. unfold dec_lead. rewrite land_1F.
  destruct (N.leb_spec b 0x7F); [lia|].
  apply N.leb_le in H1, H2. rewrite H1, H2. reflexivity.
Qed.

Lemma dec_lead_3 b :
  0xE0 <= b <= 0xEF ->
  dec_lead b = (mkDecState (b mod 16) 0 2 (if b =? 0xE0 then 0xA0 else 0x80)
                   (if b =? 0xED then 0x9F else 0xBF), []).
Proof.
  intros [H1 H2]. unfold dec_lead. rewrite land_F.
  destruct (N.leb_spec b 0x7F); [lia|].
  destruct (N.leb_spec 0xC2 b); [|lia].
  destruct (N.leb_spec b 0xDF); [lia|].
  apply N.leb_le in H1, H2. rewrite H1, H2. reflexivity.
Qed.

Lemma dec_lead_4 b :
  0xF0 <= b <= 0xF4 ->
  dec_lead b = (mkDecState (b mod 8) 0 3 (if b =? 0xF0 then 0x90 else 0x80)
                   (if b =? 0xF4 then 0x8F else 0xBF), []).
Proof.
  intros [H1 H2]. unfold dec_lead. rewrite land_7.
  destruct (N.leb_spec b 0x7F); [lia|].
  destruct (N.leb_spec 0xC2 b); [|lia].
  destruct (N.leb_spec b 0xDF); [lia|].
  destruct (N.leb_spec 0xE0 b); [|lia].
  destruct (N.leb_spec b 0xEF); [lia|].
  apply N.leb_le in H1, H2. rewrite H1, H2. reflexivity.
Qed.

Lemma dec_byte_more c seen needed lo hi b :
  needed <> 0 -> seen + 1 <> needed -> lo <= b <= hi ->
  dec_byte (mkDecState c seen needed lo hi) b =
    (mkDecState (c * 64 + b mod 64) (seen + 1) needed 0x80 0xBF, []).
Proof.
  intros Hn Hm [H1 H2]. unfold dec_byte, mkDecState.
  cbn [bytes_needed lower_boundary upper_boundary code_point bytes_seen].
  destruct (N.eqb_spec needed 0); [contradiction|].
  destruct (N.eqb_spec (seen + 1) needed); [contradiction|].
  apply N.leb_le in H1, H2. rewrite H1, H2. cbn [negb andb].
  rewrite shift_in. reflexivity.
Qed.

Lemma dec_byte_last c seen needed lo hi b :
  needed <> 0 -> seen + 1 = needed -> lo <= b <= hi ->
  dec_byte (mkDecState c seen needed lo hi) b = (dec_init, [c * 64 + b mod 64]).
Proof.
  intros Hn Hm [H1 H2]. unfold dec_byte, mkDecState.
  cbn [bytes_needed lower_boundary upper_boundary code_point bytes_seen].
  destruct (N.eqb_spec needed 0); [contradiction|].
  destruct (N.eqb_spec (seen + 1) needed); [|contradiction].
  apply N.leb_le in H1, H2. rewrite H1, H2. cbn [negb andb].
  rewrite shift_in. reflexivity.
Qed.

Lemma not_surrogate cp : is_surrogate cp = false -> cp < 0xD800 \/ 0xDFFF < cp.
Proof.
  unfold is_surrogate. intros H.
  destruct (N.leb_spec 0xD800 cp); destruct (N.leb_spec cp 0xDFFF); try discriminate; lia.
Qed.

Lemma dec_run_encode_scalar cp rest :
  scalar cp ->
  dec_run dec_init (encode_scalar cp ++ rest) = cp :: dec_run dec_init rest.
Proof.
  intros [Hlt Hs]. apply not_surrogate in Hs.
  rewrite encode_scalar_bytes.
  destruct (N.leb_spec cp 0x7F) as [H1|H1].
  { cbn [app dec_run]. change (dec_byte dec_init cp) with (dec_lead cp).
    rewrite dec_lead_1 by lia. reflexivity. }
  destruct (N.leb_spec cp 0x7FF) as [H2|H2].
  { cbn [app dec_run]. change (dec_byte dec_init ?b) with (dec_lead b).
    rewrite dec_lead_2 by nlia.
    rewrite dec_byte_last by (try discriminate; try reflexivity; nlia).
    cbn [app]. f_equal. nlia. }
  destruct (N.leb_spec cp 0xFFFF) as [H3|H3].
  { cbn [app dec_run]. change (dec_byte dec_init ?b) with (dec_lead b).
    rewrite dec_lead_3 by nlia.
    rewrite dec_byte_more.
    2,3: discriminate.
    2: { destruct (N.eqb_spec (cp / 4096 + 224) 224);
         destruct (N.eqb_spec (cp / 4096 + 224) 237); nlia. }
    rewrite dec_byte_last by (try discriminate; try reflexivity; nlia).
    cbn [app]. f_equal. nlia. }
  { cbn [app dec_run]. change (dec_byte dec_init ?b) with (dec_lead b).
    rewrite dec_lead_4 by nlia.
    rewrite dec_byte_more.
    2,3: discriminate.
    2: { destruct (N.eqb_spec (cp / 262144 + 240) 240);
         destruct (N.eqb_spec (cp / 262144 + 240) 244); nlia. }
    rewrite dec_byte_more by (try discriminate; nlia).
    rewrite dec_byte_last by (try discriminate; try reflexivity; nlia).
    cbn [app]. f_equal. nlia. }
Qed.

Lemma dec_run_encode cps :
  Forall scalar cps -> dec_run dec_init (flat_map encode_scalar cps) = cps.
Proof.
  induction 1 as [|cp cps Hcp _ IH]; [reflexivity|].
  cbn [flat_map]. rewrite dec_run_encode_scalar by assumption. now rewrite IH.
Qed.

(** Induction on a string two code units at a time. *)
Lemma jsstring_pair_ind (P : jsstring -> Prop) :
  P [] -> (forall c, P [c]) ->
  (forall c d rest, P rest -> P (d :: rest) -> P (c :: d :: rest)) ->
  forall s, P s.
Proof.
  intros H0 H1 H2 s. enough (P s /\ forall c, P (c :: s)) by tauto.
  induction s as [|d rest [IHa IHb]]; split; auto.
Qed.

Lemma surrogate_bounds c :
  (is_high c = true <-> 0xD800 <= c <= 0xDBFF) /\
  (is_low c = true <-> 0xDC00 <= c <= 0xDFFF).
Proof.
  unfold is_high, is_low. rewrite !andb_true_iff, !N.leb_le. tauto.
Qed.

Lemma to_scalars_scalar s : code_units s -> Forall scalar (to_scalars s).
Proof.
  unfold code_units, scalar, is_surrogate.
  induction s as [| c | c d rest IH1 IH2] using jsstring_pair_ind; intros Hs.
  - constructor.
  - inversion_clear Hs as [|? ? Hc _]. cbn [to_scalars].
    destruct (is_high c) eqn:Hh; [repeat constructor|].
    destruct (is_low c) eqn:Hl; [repeat constructor|].
    repeat constructor; [lia|].
    unfold is_high, is_low in *.
    destruct (N.leb_spec 0xD800 c), (N.leb_spec c 0xDBFF), (N.leb_spec 0xDC00 c),
      (N.leb_spec c 0xDFFF); simpl in *; try discriminate; try reflexivity; lia.
  - inversion Hs as [|? ? Hc Hs']; subst. inversion Hs' as [|? ? Hd Hs'']; subst.
    specialize (IH1 Hs''). specialize (IH2 Hs').
    change (to_scalars (c :: d :: rest)) with
      (if is_high c then
         if is_low d
         then (0x10000 + (c - 0xD800) * 0x400 + (d - 0xDC00)) :: to_scalars rest
         else 0xFFFD :: to_scalars (d :: rest)
       else if is_low c then 0xFFFD :: to_scalars (d :: rest)
       else c :: to_scalars (d :: rest)).
    destruct (is_high c) eqn:Hh.
    + destruct (is_low d) eqn:Hl.
      * apply surrogate_bounds in Hh, Hl. constructor; [|assumption]. split; [lia|].
        destruct (N.leb_spec 0xD800 (65536 + (c - 55296) * 1024 + (d - 56320)));
          destruct (N.leb_spec (65536 + (c - 55296) * 1024 + (d - 56320)) 0xDFFF);
          simpl; try reflexivity; lia.
      * constructor; [split; [lia|reflexivity]|assumption].
    + destruct (is_low c) eqn:Hl.
      * constructor; [split; [lia|reflexivity]|assumption].
      * constructor; [|assumption]. split; [lia|].
        unfold is_high, is_low in *.
        destruct (N.leb_spec 0xD800 c), (N.leb_spec c 0xDBFF), (N.leb_spec 0xDC00 c),
          (N.leb_spec c 0xDFFF); simpl in *; try discriminate; try reflexivity; lia.
Qed.

Lemma of_scalars_to_scalars s :
  code_units s -> isWellFormed s = true -> flat_map of_scalar (to_scalars s) = s.
Proof.
  unfold code_units.
  induction s as [| c | c d rest IH1 IH2] using jsstring_pair_ind; intros Hs Hw.
  - reflexivity.
  - inversion_clear Hs as [|? ? Hc _]. cbn [to_scalars isWellFormed] in *.
    destruct (is_high c); [discriminate|].
    destruct (is_low c); [discriminate|].
    cbn [flat_map app]. unfold of_scalar.
    destruct (N.ltb_spec c 0x10000); [reflexivity|lia].
  - inversion Hs as [|? ? Hc Hs']; subst. inversion Hs' as [|? ? Hd Hs'']; subst.
    change (to_scalars (c :: d :: rest)) with
      (if is_high c then
         if is_low d
         then (0x10000 + (c - 0xD800) * 0x400 + (d - 0xDC00)) :: to_scalars rest
         else 0xFFFD :: to_scalars (d :: rest)
       else if is_low c then 0xFFFD :: to_scalars (d :: rest)
       else c :: to_scalars (d :: rest)).
    change (isWellFormed (c :: d :: rest)) with
      (if is_high c then is_low d && isWellFormed rest
       else negb (is_low c) && isWellFormed (d :: rest)) in Hw.
    destruct (is_high c) eqn:Hh.
    + apply andb_true_iff in Hw as [Hl Hw]. rewrite Hl.
      cbn [flat_map]. rewrite (IH1 Hs'' Hw).
      apply surrogate_bounds in Hh, Hl. unfold of_scalar.
      destruct (N.ltb_spec (65536 + (c - 55296) * 1024 + (d - 56320)) 0x10000); [lia|].
      cbn [app]. f_equal; [nlia|]. f_equal. nlia.
    + apply andb_true_iff in Hw as [Hl Hw]. apply negb_true_iff in Hl. rewrite Hl.
      cbn [flat_map]. rewrite (IH2 Hs' Hw). unfold of_scalar.
      destruct (N.ltb_spec c 0x10000); [reflexivity|lia].
Qed.

Lemma strip_bom_encode_scalar cp rest :
  cp <> 0xFEFF -> strip_bom (encode_scalar cp ++ rest) = encode_scalar cp ++ rest.
Proof.
  intros Hne. rewrite encode_scalar_bytes.
  destruct (N.leb_spec cp 0x7F) as [H1|H1].
  { cbn [app]. destruct rest as [|b1 [|b2 rest]]; try reflexivity.
    unfold strip_bom. destruct (N.eqb_spec cp 0xEF); [lia|reflexivity]. }
  destruct (N.leb_spec cp 0x7FF) as [H2|H2].
  { cbn [app]. destruct rest as [|b2 rest]; try reflexivity.
    unfold strip_bom. destruct (N.eqb_spec (cp / 64 + 192) 0xEF); [nlia|reflexivity]. }
  destruct (N.leb_spec cp 0xFFFF) as [H3|H3].
  { cbn [app]. unfold strip_bom.
    destruct (N.eqb_spec (cp / 4096 + 224) 0xEF); [|reflexivity].
    destruct (N.eqb_spec (128 + (cp / 64) mod 64) 0xBB); [|reflexivity].
    destruct (N.eqb_spec (128 + cp mod 64) 0xBF); [|reflexivity].
    exfalso. apply Hne. nlia. }
  { cbn [app]. unfold strip_bom.
    destruct (N.eqb_spec (cp / 262144 + 240) 0xEF); [nlia|reflexivity]. }
Qed.

Lemma strip_bom_encode s :
  starts_with_bom s = false -> strip_bom (encode s) = encode s.
Proof.
  unfold encode. destruct s as [|c rest]; [reflexivity|].
  cbn [starts_with_bom]. intros Hc. apply N.eqb_neq in Hc.
  cbn [to_scalars].
  destruct (is_high c) eqn:Hh.
  - destruct rest as [|d rest]; [reflexivity|].
    destruct (is_low d) eqn:Hl; cbn [flat_map]; apply strip_bom_encode_scalar; [|discriminate].
    apply surrogate_bounds in Hh, Hl. lia.
  - destruct (is_low c); cbn [flat_map]; apply strip_bom_encode_scalar; [discriminate|assumption].
Qed.

(** [TextEncoder] then [File.text] gives a well-formed string back, unless
    it starts with a byte order mark. *)
Lemma decode_encode s :
  code_units s -> isWellFormed s = true -> starts_with_bom s = false ->
  decode (encode s) = s.
Proof.
  intros Hu Hw Hb. unfold decode, decode_scalars.
  rewrite strip_bom_encode by assumption. unfold encode.
  rewrite dec_run_encode by (apply to_scalars_scalar; assumption).
  apply of_scalars_to_scalars; assumption.
Qed.

End Utf8Facts.

(* ================================================================== *)
(** ** The operations and the dispatcher of the worker *)
(* ================================================================== *)

Module WorkerFacts.
Import Utf8 Backend OpfsWorker WorkerSpec Utf8Facts.

Lemma lookup_entry_update h n es :
  is_Some (lookup_entry h es) -> lookup_entry h (update_entry h n es) = Some n.
Proof.
  induction es as [|[k v] es IH]; simpl; intros [x Hx]; [discriminate|].
  destruct (decide (k = h)) as [->|Hne]; simpl.
  - rewrite decide_True by reflexivity. reflexivity.
  - rewrite decide_False by assumption. apply IH. eauto.
Qed.

Lemma lookup_entry_update_ne h k n es :
  k <> h -> lookup_entry k (update_entry h n es) = lookup_entry k es.
Proof.
  intros Hne. induction es as [|[k' v] es IH]; simpl; [reflexivity|].
  destruct (decide (k' = h)) as [->|Hne']; simpl.
  - rewrite !decide_False by congruence. reflexivity.
  - destruct (decide (k' = k)); [reflexivity|apply IH].
Qed.

Lemma lookup_entry_insert_new h k n i es :
  lookup_entry h es = None ->
  lookup_entry k (insert_entry i (h, n) es) =
    if decide (h = k) then Some n else lookup_entry k es.
Proof.
  unfold insert_entry. revert i.
  induction es as [|[k' v] es IH]; intros i Hn.
  - now destruct i.
  - simpl in Hn. destruct (decide (k' = h)) as [->|Hne']; [discriminate|].
    destruct i as [|i]; simpl; [reflexivity|].
    destruct (decide (k' = k)) as [->|Hk].
    + rewrite decide_False by congruence. reflexivity.
    + apply IH, Hn.
Qed.

Lemma lookup_entry_delete h es : lookup_entry h (delete_entry h es) = None.
Proof.
  unfold delete_entry. induction es as [|[k v] es IH]; [reflexivity|].
  destruct (decide (k = h)) as [->|Hne].
  - rewrite filter_cons_False by (simpl; intros H; apply H; reflexivity). apply IH.
  - rewrite filter_cons_True by (simpl; assumption). simpl.
    rewrite decide_False by assumption. apply IH.
Qed.

Lemma is_locked_true h ls : is_locked h ls = true <-> h ∈ ls.
Proof. unfold is_locked. apply bool_decide_eq_true. Qed.

Lemma is_locked_false h ls : is_locked h ls = false <-> h ∉ ls.
Proof. unfold is_locked. apply bool_decide_eq_false. Qed.

Lemma unlock_fresh h ls : h ∉ ls -> unlock h (h :: ls) = ls.
Proof.
  intros Hn. unfold unlock. rewrite filter_cons_False by (intros H; apply H; reflexivity).
  induction ls as [|x ls IH]; [reflexivity|].
  rewrite filter_cons_True.
  - f_equal. apply IH. intros Hin. apply Hn. now right.
  - intros ->. apply Hn. left.
Qed.

Lemma on_handle_spec P h f w bs :
  h ∈ locks w -> lookup_entry h (entries w) = Some (FileNode bs) ->
  on_handle P h f w = (Normal tt, with_bytes h (f bs) w).
Proof.
  intros Hl He. unfold on_handle, bind, get_locks, get_entries, set_entries.
  apply is_locked_true in Hl. rewrite Hl. simpl. rewrite He. reflexivity.
Qed.

Lemma truncate_spec P h size w bs :
  h ∈ locks w -> lookup_entry h (entries w) = Some (FileNode bs) ->
  truncate P h size w =
    match call_fails (fault_truncate P) with
    | Some e => (Throw e, logged (CTruncate h size) w)
    | None => (Normal tt, with_bytes h (truncate_bytes size bs) (logged (CTruncate h size) w))
    end.
Proof.
  intros Hl He. unfold truncate, bind, record, may_fail, call_fails.
  destruct (fault_truncate P) as [[n msg]|]; [reflexivity|].
  unfold ret. fold (logged (CTruncate h size) w).
  now rewrite (on_handle_spec P h _ _ bs).
Qed.

Lemma write_spec P h buf at_ w bs :
  h ∈ locks w -> lookup_entry h (entries w) = Some (FileNode bs) ->
  write P h buf at_ w =
    match call_fails (fault_write P) with
    | Some e => (Throw e, logged (CWrite h buf at_) w)
    | None => (Normal (length buf),
               with_bytes h (write_bytes buf at_ bs) (logged (CWrite h buf at_) w))
    end.
Proof.
  intros Hl He. unfold write, bind, record, may_fail, call_fails.
  destruct (fault_write P) as [[n msg]|]; [reflexivity|].
  unfold ret. fold (logged (CWrite h buf at_) w).
  now rewrite (on_handle_spec P h _ _ bs).
Qed.

Lemma flush_spec P h w bs :
  h ∈ locks w -> lookup_entry h (entries w) = Some (FileNode bs) ->
  flush P h w =
    match call_fails (fault_flush P) with
    | Some e => (Throw e, logged (CFlush h) w)
    | None => (Normal tt, with_bytes h bs (logged (CFlush h) w))
    end.
Proof.
  intros Hl He. unfold flush, bind, record, may_fail, call_fails.
  destruct (fault_flush P) as [[n msg]|]; [reflexivity|].
  unfold ret. fold (logged (CFlush h) w).
  now rewrite (on_handle_spec P h _ _ bs).
Qed.

Lemma overwrite_bytes buf bs : write_bytes buf 0 (truncate_bytes 0 bs) = buf.
Proof.
  unfold write_bytes, truncate_bytes. simpl. rewrite drop_nil. apply app_nil_r.
Qed.

Lemma update_entry_twice h n1 n2 es :
  update_entry h n2 (update_entry h n1 es) = update_entry h n2 es.
Proof.
  induction es as [|[k v] es IH]; simpl; [reflexivity|].
  destruct (decide (k = h)) as [->|Hne]; simpl.
  - rewrite decide_True by reflexivity. reflexivity.
  - rewrite decide_False by assumption. now rewrite IH.
Qed.

Lemma write_block_spec P h content w bs :
  h ∈ locks w -> lookup_entry h (entries w) = Some (FileNode bs) ->
  write_block P h content w =
    match call_fails (fault_encode P) with
    | Some e => (Throw e, closed_after h content 1 (entries w) w)
    | None =>
    match call_fails (fault_truncate P) with
    | Some e => (Throw e, closed_after h content 2 (entries w) w)
    | None =>
    match call_fails (fault_write P) with
    | Some e => (Throw e, closed_after h content 3
                            (update_entry h (FileNode []) (entries w)) w)
    | None =>
      let es := update_entry h (FileNode (Utf8.encode content)) (entries w) in
      match call_fails (fault_flush P) with
      | Some e => (Throw e, closed_after h content 4 es w)
      | None => (Normal tt, closed_after h content 4 es w)
      end
    end end end.
Proof.
  intros Hl He. unfold write_block, try_finally, closed_after, write_calls.
  unfold bind at 1. unfold TextEncoder_encode at 1.
  unfold bind at 1 2, record at 1, may_fail at 1, call_fails at 1.
  destruct (fault_encode P) as [[n msg]|].
  { cbn. rewrite <- !app_assoc. reflexivity. }
  unfold ret at 1 2. fold (logged (CEncode content) w).
  unfold bind at 1.
  rewrite (truncate_spec P h 0 _ bs) by assumption.
  destruct (call_fails (fault_truncate P)).
  { cbn. rewrite <- !app_assoc. reflexivity. }
  unfold bind at 1.
  rewrite (write_spec P h _ 0 _ (truncate_bytes 0 bs)).
  2: assumption.
  2: { cbn. apply lookup_entry_update. rewrite He. eauto. }
  destruct (call_fails (fault_write P)).
  { cbn. rewrite <- !app_assoc. reflexivity. }
  rewrite overwrite_bytes.
  rewrite (flush_spec P h _ (Utf8.encode content)).
  2: assumption.
  2: { cbn. rewrite update_entry_twice. apply lookup_entry_update. rewrite He. eauto. }
  destruct (call_fails (fault_flush P)).
  all: cbn; rewrite !update_entry_twice, <- !app_assoc; reflexivity.
Qed.

Ltac unfold_backend :=
  unfold getDirectory, values, getFileHandle, createSyncAccessHandle, getFile,
    text, removeEntry, postMessage, bind, record, may_fail, native, throw, ret,
    get_entries, set_entries, get_locks, set_locks in *.

Lemma acquire_spec P name create w :
  match acquire P name create w with
  | (Normal h, w1) =>
      h = entry_name name /\ (h ∉ locks w) /\ locks w1 = h :: locks w /\
      valid_name h = true /\
      trace w1 = trace w ++ acquire_calls name create /\
      (exists bs, lookup_entry h (entries w1) = Some (FileNode bs)) /\
      match lookup_entry h (entries w) with
      | Some _ => entries w1 = entries w
      | None =>
          create = true /\
          entries w1 = insert_entry (position P h (map fst (entries w)))
                         (h, FileNode []) (entries w)
      end
  | (Throw e, w1) =>
      locks w1 = locks w /\
      (exists k, (1 <= k <= 3)%nat /\
                 trace w1 = trace w ++ take k (acquire_calls name create)) /\
      (entries w1 = entries w \/
       create = true /\ lookup_entry (entry_name name) (entries w) = None /\
       entries w1 = insert_entry (position P (entry_name name) (map fst (entries w)))
                      (entry_name name, FileNode []) (entries w))
  end.
Proof.
  unfold acquire, acquire_calls. unfold_backend. cbv zeta.
  generalize (entry_name name) as h. intros h.
  repeat (first [ rewrite lookup_entry_insert_new in * by assumption
                | rewrite decide_True in * by reflexivity
                | case_match ]; simplify_eq/=).
  all: rewrite <- ?app_assoc; cbn [app].
  all: try match goal with H : is_locked _ _ = false |- _ => apply is_locked_false in H end.
  all: try match goal with H : negb _ = false |- _ => apply negb_false_iff in H end.
  all: repeat split; eauto.
  all: try (exists 1%nat; split; [lia|reflexivity]).
  all: try (exists 2%nat; split; [lia|reflexivity]).
  all: try (exists 3%nat; split; [lia|reflexivity]).
Qed.

Lemma opfsCreate_unfold P name content w :
  opfsCreate P name content w =
    match acquire P name true w with
    | (Normal h, w1) =>
        match write_block P h content w1 with
        | (Normal _, w2) => (Normal name, w2)
        | (Throw e, w2) => (Throw e, w2)
        end
    | (Throw e, w1) => (Throw e, w1)
    end.
Proof.
  unfold opfsCreate, acquire, write_block, bind, ret.
  destruct (getDirectory P w) as [[[]|e] w0]; [|reflexivity].
  destruct (getFileHandle P name true w0) as [[fh|e] w1]; [|reflexivity].
  destruct (createSyncAccessHandle P fh w1) as [[h|e] w2]; reflexivity.
Qed.

Lemma opfsUpdate_unfold P name content w :
  opfsUpdate P name content w =
    match acquire P name false w with
    | (Normal h, w1) => write_block P h content w1
    | (Throw e, w1) => (Throw e, w1)
    end.
Proof.
  unfold opfsUpdate, acquire, write_block, bind, ret.
  destruct (getDirectory P w) as [[[]|e] w0]; [|reflexivity].
  destruct (getFileHandle P name false w0) as [[fh|e] w1]; [|reflexivity].
  destruct (createSyncAccessHandle P fh w1) as [[h|e] w2]; reflexivity.
Qed.

Lemma write_block_path P name content create w w1 :
  (entry_name name ∉ locks w) -> locks w1 = entry_name name :: locks w ->
  trace w1 = trace w ++ acquire_calls name create ->
  (exists bs, lookup_entry (entry_name name) (entries w1) = Some (FileNode bs)) ->
  write_path create name content w
    (thrown (fst (write_block P (entry_name name) content w1)))
    (snd (write_block P (entry_name name) content w1)).
Proof.
  intros Hn Hl Ht [bs Hbs].
  rewrite (write_block_spec P (entry_name name) content w1 bs)
    by (rewrite ?Hl; auto; left).
  unfold write_path, closed_after.
  destruct (call_fails (fault_encode P)); [|destruct (call_fails (fault_truncate P));
    [|destruct (call_fails (fault_write P)); [|destruct (call_fails (fault_flush P))]]].
  all: cbn [locks trace entries fst snd thrown];
    rewrite Hl, unlock_fresh, Ht, <- ?app_assoc by assumption.
  all: split; [reflexivity|right].
  1: exists 1%nat. 2: exists 2%nat. 3: exists 3%nat. 4,5: exists 4%nat.
  all: split; [lia|split; [reflexivity|try discriminate]].
  intros _. split; [reflexivity|]. apply lookup_entry_update. rewrite Hbs. eauto.
Qed.

Lemma acquire_healthy P name create w :
  healthy P -> valid_name (entry_name name) = true ->
  (entry_name name ∉ locks w) ->
  (forall e, lookup_entry (entry_name name) (entries w) <> Some (DirNode e)) ->
  create = true \/ is_Some (lookup_entry (entry_name name) (entries w)) ->
  exists w1, acquire P name create w = (Normal (entry_name name), w1).
Proof.
  intros (Hs & Hg & H1 & _ & H2 & H3 & _) Hv Hl Hd Hc.
  apply is_locked_false in Hl. unfold is_locked in Hl.
  unfold acquire. unfold_backend. unfold is_locked. cbv zeta.
  revert Hv Hl Hd Hc. generalize (entry_name name) as h. intros h Hv Hl Hd Hc.
  rewrite Hs, Hg, H1, H2, H3, Hv. cbn.
  destruct (lookup_entry h (entries w)) as [[bs|e]|] eqn:He.
  - cbn. rewrite He. cbn. rewrite Hl. eauto.
  - now destruct (Hd e).
  - destruct Hc as [->|[? [=]]]. cbn.
    rewrite lookup_entry_insert_new, decide_True by auto. cbn. rewrite Hl. eauto.
Qed.

Lemma write_block_healthy P h content w bs :
  healthy P -> h ∈ locks w ->
  lookup_entry h (entries w) = Some (FileNode bs) ->
  fst (write_block P h content w) = Normal tt.
Proof.
  intros (_ & _ & _ & _ & _ & _ & H1 & H2 & H3 & H4 & _) Hl He.
  rewrite (write_block_spec P h content w bs) by assumption.
  now rewrite H1, H2, H3, H4.
Qed.

Lemma opfsCreate_healthy P name content w :
  healthy P -> valid_name (entry_name name) = true ->
  (entry_name name ∉ locks w) ->
  (forall e, lookup_entry (entry_name name) (entries w) <> Some (DirNode e)) ->
  fst (opfsCreate P name content w) = Normal name.
Proof.
  intros Hh Hv Hl Hd. rewrite opfsCreate_unfold.
  destruct (acquire_healthy P name true w Hh Hv Hl Hd) as [w1 Ha]; [now left|].
  pose proof (acquire_spec P name true w) as Hs. rewrite Ha in *.
  destruct Hs as (_ & _ & Hlk & _ & _ & [bs Hbs] & _).
  pose proof (write_block_healthy P (entry_name name) content w1 bs Hh) as Hw.
  destruct (write_block P (entry_name name) content w1) as [[[]|e] w2]; [reflexivity|].
  discriminate Hw; [rewrite Hlk; left|assumption].
Qed.

Lemma opfsUpdate_healthy P name content w bs :
  healthy P -> valid_name (entry_name name) = true ->
  (entry_name name ∉ locks w) ->
  lookup_entry (entry_name name) (entries w) = Some (FileNode bs) ->
  fst (opfsUpdate P name content w) = Normal tt.
Proof.
  intros Hh Hv Hl He. rewrite opfsUpdate_unfold.
  destruct (acquire_healthy P name false w Hh Hv Hl) as [w1 Ha].
  { intros e. rewrite He. discriminate. }
  { right. rewrite He. eauto. }
  pose proof (acquire_spec P name false w) as Hs. rewrite Ha in *.
  destruct Hs as (_ & _ & Hlk & _ & _ & [bs' Hbs] & _).
  apply (write_block_healthy P (entry_name name) content w1 bs' Hh);
    [rewrite Hlk; left|assumption].
Qed.

(** C4.  On every run of [create] and of [update], whatever the platform
    fails: the locks are afterwards as they were, so no handle stays open;
    either the handle was never acquired and the operation failed, or the
    calls after its acquisition are the encoding, [truncate(0)], the write of
    the encoded content at offset 0 and [flush], cut short at the first one
    that throws, followed by [close]; and when the operation succeeds all
    four were made and the file the name designates holds exactly the
    encoding of the new content.  Both do succeed when the platform fails no
    call, the name is valid and the file is not locked ([update]: and
    exists). *)
Theorem write_path_closes P name content w :
  write_path true name content w
    (thrown (fst (opfsCreate P name content w))) (snd (opfsCreate P name content w)) /\
  write_path false name content w
    (thrown (fst (opfsUpdate P name content w))) (snd (opfsUpdate P name content w)) /\
  (healthy P -> valid_name (entry_name name) = true ->
   (entry_name name ∉ locks w) ->
   (forall e, lookup_entry (entry_name name) (entries w) <> Some (DirNode e)) ->
   fst (opfsCreate P name content w) = Normal name) /\
  (healthy P -> valid_name (entry_name name) = true ->
   (entry_name name ∉ locks w) ->
   (exists bs, lookup_entry (entry_name name) (entries w) = Some (FileNode bs)) ->
   fst (opfsUpdate P name content w) = Normal tt).
Proof.
  split; [|split; [|split]].
  - rewrite opfsCreate_unfold.
    pose proof (acquire_spec P name true w) as Ha.
    destruct (acquire P name true w) as [[h|e] w1].
    + destruct Ha as (-> & Hn & Hl & _ & Ht & Hbs & _).
      pose proof (write_block_path P name content true w w1 Hn Hl Ht Hbs) as Hw.
      destruct (write_block P (entry_name name) content w1) as [[[]|e] w2]; exact Hw.
    + destruct Ha as (Hl & (k & Hk & Ht) & _). split; [assumption|left].
      split; [eexists; reflexivity|eauto].
  - rewrite opfsUpdate_unfold.
    pose proof (acquire_spec P name false w) as Ha.
    destruct (acquire P name false w) as [[h|e] w1].
    + destruct Ha as (-> & Hn & Hl & _ & Ht & Hbs & _).
      exact (write_block_path P name content false w w1 Hn Hl Ht Hbs).
    + destruct Ha as (Hl & (k & Hk & Ht) & _). split; [assumption|left].
      split; [eexists; reflexivity|eauto].
  - apply opfsCreate_healthy.
  - intros Hh Hv Hl [bs Hbs]. now apply (opfsUpdate_healthy P name content w bs).
Qed.

Lemma opfsRead_file P name w bs :
  healthy P -> valid_name (entry_name name) = true ->
  lookup_entry (entry_name name) (entries w) = Some (FileNode bs) ->
  opfsRead P name w =
    (Normal (Utf8.decode bs),
     {| entries := entries w; locks := locks w;
        trace := trace w ++ [CGetDirectory; CGetFileHandle name false;
                             CGetFile (entry_name name);
                             CText (entry_name name)] |}).
Proof.
  intros (Hs & Hg & H1 & _ & H2 & _ & _ & _ & _ & _ & H3 & H4 & _) Hv He.
  unfold opfsRead. unfold_backend. cbv zeta.
  rewrite Hs, Hg, H1, H2, H3, H4, Hv. cbn. rewrite He. cbn. rewrite He.
  cbn. rewrite <- !app_assoc. reflexivity.
Qed.

Lemma opfsRead_normal P name w s w' :
  opfsRead P name w = (Normal s, w') ->
  exists bs,
    lookup_entry (entry_name name) (entries w) = Some (FileNode bs) /\
    s = Utf8.decode bs.
Proof.
  unfold opfsRead. unfold_backend. cbv zeta.
  generalize (entry_name name) as h. intros h H.
  repeat (case_match; simplify_eq/=); eauto.
Qed.

Lemma opfsCreate_normal P name content w r w1 :
  opfsCreate P name content w = (Normal r, w1) ->
  r = name /\ valid_name (entry_name name) = true /\
  lookup_entry (entry_name name) (entries w1)
    = Some (FileNode (Utf8.encode content)).
Proof.
  rewrite opfsCreate_unfold.
  pose proof (acquire_spec P name true w) as Ha.
  destruct (acquire P name true w) as [[h|e] w0]; [|discriminate].
  destruct Ha as (-> & Hn & Hl & Hv & Ht & Hbs & _).
  pose proof (write_block_path P name content true w w0 Hn Hl Ht Hbs) as Hw.
  destruct (write_block P (entry_name name) content w0) as [[[]|e] w2]; [|discriminate].
  intros [= <- <-]. destruct Hw as [_ [[[? [=]] _]|(k & _ & _ & Hk)]].
  destruct (Hk eq_refl) as [_ Hlk]. auto.
Qed.

(** C3 (as amended).  For a content that is a well-formed string (no lone
    surrogate) and does not start with U+FEFF: after a successful
    [create(name, content)] the file the name designates holds the UTF-8
    encoding of the content, and a [read(name)] on a store with the same
    entries returns exactly the content whenever it returns, and does return
    when the platform fails no call. *)
Theorem create_read_roundtrip P P' name content w r w1 w1' :
  Utf8.code_units content ->
  Utf8.isWellFormed content = true ->
  Utf8.starts_with_bom content = false ->
  opfsCreate P name content w = (Normal r, w1) ->
  entries w1' = entries w1 ->
  lookup_entry (entry_name name) (entries w1)
    = Some (FileNode (Utf8.encode content)) /\
  (forall s w2, opfsRead P' name w1' = (Normal s, w2) -> s = content) /\
  (healthy P' -> fst (opfsRead P' name w1') = Normal content).
Proof.
  intros Hu Hw Hb Hc He.
  destruct (opfsCreate_normal _ _ _ _ _ _ Hc) as (-> & Hv & Hl).
  split; [assumption|]. split.
  - intros s w2 Hr. destruct (opfsRead_normal _ _ _ _ _ Hr) as (bs & Hbs & ->).
    rewrite He, Hl in Hbs. injection Hbs as <-. now apply decode_encode.
  - intros Ha. rewrite (opfsRead_file P' name w1' (Utf8.encode content)); auto.
    + cbn. f_equal. now apply decode_encode.
    + now rewrite He.
Qed.

Lemma opfsRead_missing P name w :
  lookup_entry (entry_name name) (entries w) = None ->
  is_Some (thrown (fst (opfsRead P name w))) /\
  unchanged w (snd (opfsRead P name w)) /\
  (healthy P -> valid_name (entry_name name) = true ->
   opfsRead P name w =
     (Throw (not_found P), with_trace [CGetDirectory; CGetFileHandle name false] w)).
Proof.
  unfold opfsRead, unchanged, healthy, not_found, with_trace. unfold_backend. cbv zeta.
  generalize (entry_name name) as h. intros h He.
  split; [|split].
  - repeat (case_match; simplify_eq/=); eauto.
  - repeat (case_match; simplify_eq/=); split; reflexivity.
  - intros (Hs & Hg & H1 & _ & H2 & _) Hv. rewrite Hs, Hg, H1, H2, Hv. cbn.
    rewrite He. cbn. now rewrite <- app_assoc.
Qed.

Lemma opfsUpdate_missing P name content w :
  lookup_entry (entry_name name) (entries w) = None ->
  is_Some (thrown (fst (opfsUpdate P name content w))) /\
  unchanged w (snd (opfsUpdate P name content w)) /\
  (healthy P -> valid_name (entry_name name) = true ->
   opfsUpdate P name content w =
     (Throw (not_found P), with_trace [CGetDirectory; CGetFileHandle name false] w)).
Proof.
  rewrite opfsUpdate_unfold.
  unfold acquire, unchanged, healthy, not_found, with_trace. unfold_backend. cbv zeta.
  generalize (entry_name name) as h. intros h He.
  split; [|split].
  - repeat (case_match; simplify_eq/=); eauto.
  - repeat (case_match; simplify_eq/=); split; reflexivity.
  - intros (Hs & Hg & H1 & _ & H2 & _) Hv. rewrite Hs, Hg, H1, H2, Hv. cbn.
    rewrite He. cbn. now rewrite <- app_assoc.
Qed.

Lemma opfsDelete_missing P name w :
  lookup_entry (entry_name name) (entries w) = None ->
  is_Some (thrown (fst (opfsDelete P name w))) /\
  unchanged w (snd (opfsDelete P name w)) /\
  (healthy P -> valid_name (entry_name name) = true ->
   opfsDelete P name w =
     (Throw (not_found P), with_trace [CGetDirectory; CRemoveEntry name] w)).
Proof.
  unfold opfsDelete, unchanged, healthy, not_found, with_trace. unfold_backend. cbv zeta.
  generalize (entry_name name) as h. intros h He.
  split; [|split].
  - repeat (case_match; simplify_eq/=); eauto.
  - repeat (case_match; simplify_eq/=); split; reflexivity.
  - intros (Hs & Hg & H1 & _ & _ & _ & _ & _ & _ & _ & _ & _ & H2) Hv.
    rewrite Hs, Hg, H1, H2, Hv. cbn. rewrite He. cbn. now rewrite <- app_assoc.
Qed.

Lemma opfsDelete_normal P name w w' :
  opfsDelete P name w = (Normal tt, w') ->
  valid_name (entry_name name) = true /\
  lookup_entry (entry_name name) (entries w') = None.
Proof.
  unfold opfsDelete. unfold_backend. cbv zeta.
  generalize (entry_name name) as h. intros h H.
  repeat (case_match; simplify_eq/=); rewrite ?lookup_entry_delete;
    try match goal with H : negb _ = false |- _ => apply negb_false_iff in H end; auto.
Qed.

Lemma cut_at_nul_id s : 0 ∉ s -> cut_at_nul s = s.
Proof.
  induction s as [|c s IH]; intros Hn; [reflexivity|]. cbn.
  destruct (N.eqb_spec c 0) as [->|_]; [destruct Hn; left|].
  f_equal. apply IH. intros Hin. apply Hn. now right.
Qed.

Lemma toWellFormed_id_len n s :
  (length s <= n)%nat ->
  Utf8.code_units s -> Utf8.isWellFormed s = true -> Utf8.toWellFormed s = s.
Proof.
  unfold toWellFormed, code_units. revert s.
  induction n as [|n IH]; intros s Hlen Hu Hw.
  { destruct s; [reflexivity|cbn in Hlen; lia]. }
  destruct s as [|c s]; [reflexivity|].
  cbn [to_scalars isWellFormed] in *. apply Forall_cons in Hu as [Hc Hu].
  cbn [length] in Hlen.
  destruct (is_high c) eqn:Hh.
  - destruct s as [|d s]; [discriminate|].
    apply andb_prop in Hw as [Hd Hw]. rewrite Hd. cbn [flat_map].
    apply Forall_cons in Hu as [Hdu Hu]. cbn [length] in Hlen.
    rewrite (IH s) by (auto; lia).
    unfold is_high, is_low in *.
    apply andb_prop in Hh as [Hh1 Hh2]. apply andb_prop in Hd as [Hd1 Hd2].
    apply N.leb_le in Hh1, Hh2, Hd1, Hd2.
    unfold of_scalar.
    destruct (N.ltb_spec (65536 + (c - 55296) * 1024 + (d - 56320)) 65536) as [Hlt|_];
      [lia|]. cbn [app]. f_equal; [|f_equal]; nlia.
  - apply andb_prop in Hw as [Hl Hw]. apply negb_true_iff in Hl. rewrite Hl.
    cbn [flat_map]. rewrite (IH s) by (auto; lia).
    unfold of_scalar. destruct (N.ltb_spec c 65536) as [_|Hge]; [reflexivity|lia].
Qed.

Lemma toWellFormed_id s :
  Utf8.code_units s -> Utf8.isWellFormed s = true -> Utf8.toWellFormed s = s.
Proof. apply (toWellFormed_id_len (length s)). lia. Qed.

(** C7.  The entry a name designates is the one the platform looks up: the
    name as a USVString (a lone surrogate stands for U+FFFD), ending before
    the first U+0000; for a well-formed name without U+0000 it is the name
    itself.  When the store has no such entry, also because a [delete] of
    that name has just succeeded, [read], [update] and [delete] each fail and
    leave the entries and the locks as they were.  When the name is valid and
    the platform fails no call, the error is the not-found error of the
    platform, raised for [read] and [update] by [getFileHandle] called
    without [create] and for [delete] by [removeEntry], and no other call
    follows.  A name whose [delete] has succeeded is valid. *)
Theorem missing_file_is_an_error P name content w :
  lookup_entry (entry_name name) (entries w) = None \/
  (exists P0 w0, opfsDelete P0 name w0 = (Normal tt, w)) ->
  (is_Some (thrown (fst (opfsRead P name w))) /\
   unchanged w (snd (opfsRead P name w))) /\
  (is_Some (thrown (fst (opfsUpdate P name content w))) /\
   unchanged w (snd (opfsUpdate P name content w))) /\
  (is_Some (thrown (fst (opfsDelete P name w))) /\
   unchanged w (snd (opfsDelete P name w))) /\
  (healthy P -> valid_name (entry_name name) = true ->
   opfsRead P name w =
     (Throw (not_found P), with_trace [CGetDirectory; CGetFileHandle name false] w) /\
   opfsUpdate P name content w =
     (Throw (not_found P), with_trace [CGetDirectory; CGetFileHandle name false] w) /\
   opfsDelete P name w =
     (Throw (not_found P), with_trace [CGetDirectory; CRemoveEntry name] w)) /\
  ((exists P0 w0, opfsDelete P0 name w0 = (Normal tt, w)) ->
   valid_name (entry_name name) = true) /\
  (Utf8.code_units name -> Utf8.isWellFormed name = true -> 0 ∉ name ->
   entry_name name = name).
Proof.
  intros H.
  assert (lookup_entry (entry_name name) (entries w) = None) as He.
  { destruct H as [H|(P0 & w0 & H)]; [assumption|].
    now apply opfsDelete_normal in H. }
  destruct (opfsRead_missing P name w He) as (R1 & R2 & R3).
  destruct (opfsUpdate_missing P name content w He) as (U1 & U2 & U3).
  destruct (opfsDelete_missing P name w He) as (D1 & D2 & D3).
  split; [now split|]. split; [now split|]. split; [now split|].
  split; [auto|]. split.
  - intros (P0 & w0 & H0). now apply opfsDelete_normal in H0.
  - intros Hu Hw Hn. unfold entry_name. rewrite toWellFormed_id by assumption.
    now apply cut_at_nul_id.
Qed.

(** C8.  [init] fails with the error "OPFS is not supported in this
    browser." exactly when [navigator.storage] or its [getDirectory] is
    missing, and never changes the store.  When the capability is there and
    opening the root directory does not fail, [init] returns without payload
    whether [persist] is missing, grants or refuses: it calls [persist] only
    if it exists, ignores its answer, and then opens the root directory. *)
Theorem init_capability P w :
  (thrown (fst (opfsInit P w)) = Some unsupported <->
   storage P && getDirectory_present P = false) /\
  unchanged w (snd (opfsInit P w)) /\
  (storage P && getDirectory_present P = true -> fault_getDirectory P = None ->
   match persist P with
   | None => opfsInit P w = (Normal tt, with_trace [CGetDirectory] w)
   | Some (PersistResolves granted) =>
       opfsInit P w = (Normal tt, with_trace [CPersist; CGetDirectory] w)
   | Some (PersistRejects n msg) =>
       opfsInit P w = (Throw (ThrowNative n msg), with_trace [CPersist] w)
   end).
Proof.
  unfold opfsInit, unsupported, unchanged, with_trace. unfold_backend.
  destruct (storage P && getDirectory_present P) eqn:Hc; cbn [negb].
  - split; [|split].
    + repeat (case_match; simplify_eq/=); split; intros; discriminate.
    + repeat (case_match; simplify_eq/=); split; reflexivity.
    + intros _ ->. repeat (case_match; simplify_eq/=); rewrite <- ?app_assoc; reflexivity.
  - cbn. split; [tauto|]. split; [split; reflexivity|discriminate].
Qed.

Lemma collect_names_visible es acc :
  collect_names (map (fun e => (fst e, kind_of (snd e))) es) acc = acc ++ visible es.
Proof.
  unfold visible. revert acc. induction es as [|[n node] es IH]; intros acc.
  - cbn. now rewrite app_nil_r.
  - cbn [map fst snd collect_names].
    destruct node as [bs|e]; cbn [kind_of].
    + destruct (startsWith_dot n) eqn:Hd; cbn [negb].
      * rewrite filter_cons_False by (cbn; rewrite Hd; intros [_ ?]; discriminate).
        apply IH.
      * rewrite filter_cons_True by (cbn; rewrite Hd; auto).
        rewrite IH. cbn. now rewrite <- app_assoc.
    + rewrite filter_cons_False by (cbn; intros [? _]; discriminate). apply IH.
Qed.

Section Sort.
Context {A : Type} (cmp : A -> A -> Z).

Lemma sort_insert_perm x l : Permutation (sort_insert cmp x l) (x :: l).
Proof.
  induction l as [|y l IH]; cbn; [reflexivity|].
  destruct (cmp x y <=? 0)%Z; [reflexivity|].
  rewrite IH. apply perm_swap.
Qed.

Lemma sort_perm l : Permutation (sort cmp l) l.
Proof.
  induction l as [|x l IH]; cbn; [reflexivity|].
  rewrite sort_insert_perm. now constructor.
Qed.

Hypothesis Hcmp : consistent cmp.

Lemma sort_insert_sorted x l :
  StronglySorted (ordered cmp) l -> StronglySorted (ordered cmp) (sort_insert cmp x l).
Proof.
  destruct Hcmp as [Hsym Htrans].
  assert (forall a b, (cmp a b <= 0)%Z \/ (cmp b a <= 0)%Z) as Htotal.
  { intros a b. destruct (Z.leb_spec (cmp a b) 0) as [|Hlt]; [now left|right].
    apply Hsym in Hlt. lia. }
  induction 1 as [|y l Hs IH Hy]; cbn.
  - repeat constructor.
  - destruct (Z.leb_spec (cmp x y) 0) as [Hxy|Hxy].
    + constructor; [constructor; assumption|].
      constructor; [assumption|].
      eapply Forall_impl; [exact Hy|]. intros z Hz. exact (Htrans _ _ _ Hxy Hz).
    + constructor; [assumption|].
      rewrite sort_insert_perm. constructor; [|assumption].
      destruct (Htotal x y); [lia|assumption].
Qed.

Lemma sort_sorted l : StronglySorted (ordered cmp) (sort cmp l).
Proof.
  induction l as [|x l IH]; cbn; [constructor|]. now apply sort_insert_sorted.
Qed.
End Sort.

Lemma sorted_perm_unique {A} (R : A -> A -> Prop) (l1 l2 : list A) :
  (forall a b, R a b -> R b a -> a = b) ->
  StronglySorted R l1 -> StronglySorted R l2 -> Permutation l1 l2 -> l1 = l2.
Proof.
  intros Hanti Hs1. revert l2.
  induction Hs1 as [|x l1 Hs1 IH Hx]; intros l2 Hs2 Hp.
  - now apply Permutation_nil in Hp.
  - destruct Hs2 as [|y l2 Hs2 Hy].
    + symmetry in Hp. now apply Permutation_nil in Hp.
    + assert (x = y) as ->.
      { assert (x ∈ y :: l2) as Hin by (rewrite <- Hp; left).
        assert (y ∈ x :: l1) as Hin' by (rewrite Hp; left).
        apply elem_of_cons in Hin as [|Hin]; [assumption|].
        apply elem_of_cons in Hin' as [|Hin']; [congruence|].
        rewrite Forall_forall in Hx, Hy. apply Hanti; auto. }
      f_equal. apply IH; [assumption|]. eapply Permutation_cons_inv, Hp.
Qed.

Lemma visible_perm es1 es2 :
  Permutation es1 es2 -> Permutation (visible es1) (visible es2).
Proof. intros H. unfold visible. now rewrite H. Qed.

Lemma opfsList_healthy P w :
  healthy P ->
  opfsList P w =
    (Normal (sort (localeCompare P) (visible (entries w))),
     with_trace [CGetDirectory; CValues] w).
Proof.
  intros (Hs & Hg & H1 & H2 & _). unfold opfsList, with_trace. unfold_backend.
  rewrite Hs, Hg, H1, H2. cbn. rewrite collect_names_visible, <- app_assoc.
  reflexivity.
Qed.

(** C6.  With a consistent collation and a platform that fails no call,
    [list] returns the names of the file entries that do not start with a
    dot, each once, sorted ascending by [localeCompare].  The result depends
    on the entries of the directory only, and not on the order in which they
    are enumerated when the collation separates distinct names.  With files
    b.txt, a.txt and .hidden it is a.txt, b.txt as soon as the collation puts
    a.txt before b.txt. *)
Theorem list_visible_sorted P w :
  healthy P -> consistent (localeCompare P) ->
  exists names,
    opfsList P w = (Normal names, with_trace [CGetDirectory; CValues] w) /\
    Permutation names (visible (entries w)) /\
    StronglySorted (ordered (localeCompare P)) names /\
    (forall w2, entries w2 = entries w -> fst (opfsList P w2) = Normal names) /\
    ((forall a b, ordered (localeCompare P) a b -> ordered (localeCompare P) b a -> a = b) ->
     forall w2, Permutation (entries w2) (entries w) ->
                fst (opfsList P w2) = Normal names) /\
    (forall bb ba bh,
       entries w = [(js "b.txt", FileNode bb); (js "a.txt", FileNode ba);
                    (js ".hidden", FileNode bh)] ->
       (localeCompare P (js "a.txt") (js "b.txt") < 0)%Z ->
       names = [js "a.txt"; js "b.txt"]).
Proof.
  intros Hh Hc. eexists. split; [apply opfsList_healthy, Hh|].
  split; [apply sort_perm|]. split; [now apply sort_sorted|].
  split; [|split].
  - intros w2 He. rewrite opfsList_healthy by assumption. cbn. now rewrite He.
  - intros Hanti w2 Hp. rewrite opfsList_healthy by assumption. cbn. f_equal.
    apply (sorted_perm_unique (ordered (localeCompare P))); auto using sort_sorted.
    rewrite !sort_perm. now apply visible_perm.
  - intros bb ba bh He Hab. rewrite He.
    change (visible _) with [js "b.txt"; js "a.txt"].
    cbn [sort sort_insert].
    apply (proj1 Hc) in Hab.
    destruct (Z.leb_spec (localeCompare P (js "b.txt") (js "a.txt")) 0); [lia|reflexivity].
Qed.

Lemma compare_units_sym a b : (compare_units a b < 0)%Z <-> (0 < compare_units b a)%Z.
Proof.
  revert b. induction a as [|x a IH]; intros [|y b]; cbn; try lia.
  destruct (N.ltb_spec x y), (N.ltb_spec y x); try lia. apply IH.
Qed.

Lemma compare_units_trans a b c :
  (compare_units a b <= 0)%Z -> (compare_units b c <= 0)%Z -> (compare_units a c <= 0)%Z.
Proof.
  revert b c. induction a as [|x a IH]; intros [|y b] [|z c]; cbn; try lia.
  destruct (N.ltb_spec x y), (N.ltb_spec y x), (N.ltb_spec y z), (N.ltb_spec z y),
    (N.ltb_spec x z), (N.ltb_spec z x); try lia.
  apply IH.
Qed.

Lemma compare_units_consistent : consistent compare_units.
Proof. split; [apply compare_units_sym|apply compare_units_trans]. Qed.

Lemma quiet_ret {A} (a : A) : quiet (ret a).
Proof. intros w. reflexivity. Qed.

Lemma quiet_throw {A} e : quiet (@throw A e).
Proof. intros w. reflexivity. Qed.

Lemma quiet_bind {A B} (m : M A) (k : A -> M B) :
  quiet m -> (forall a, quiet (k a)) -> quiet (bind m k).
Proof.
  intros Hm Hk w. unfold bind. specialize (Hm w).
  destruct (m w) as [[a|e] w1]; cbn in *; [|assumption].
  now rewrite Hk.
Qed.

Lemma quiet_try_finally {A} (body : M A) (fin : M unit) :
  quiet body -> quiet fin -> quiet (try_finally body fin).
Proof.
  intros Hb Hf w. unfold try_finally. specialize (Hb w).
  destruct (body w) as [c w1]. specialize (Hf w1).
  destruct (fin w1) as [[[]|e] w2]; cbn in *; congruence.
Qed.

Lemma quiet_record c :
  (forall r, c <> CPostMessage r) -> quiet (record c).
Proof.
  intros Hc w. unfold record, posted. cbn. rewrite omap_app. cbn.
  destruct c; try (now rewrite app_nil_r). now destruct (Hc r).
Qed.

Lemma quiet_may_fail f : quiet (may_fail f).
Proof. destruct f as [[n msg]|]; intros w; reflexivity. Qed.

Lemma quiet_native {A} P n : quiet (@native A P n).
Proof. intros w. reflexivity. Qed.

Lemma quiet_state :
  quiet get_entries /\ quiet get_locks /\
  (forall es, quiet (set_entries es)) /\ (forall ls, quiet (set_locks ls)).
Proof. repeat split. Qed.

Ltac quiet_step :=
  first
    [ apply quiet_ret | apply quiet_throw | apply quiet_may_fail
    | apply quiet_native
    | apply quiet_record; discriminate
    | apply (proj1 quiet_state) | apply (proj1 (proj2 quiet_state))
    | apply (proj1 (proj2 (proj2 quiet_state)))
    | apply (proj2 (proj2 (proj2 quiet_state)))
    | apply quiet_try_finally
    | apply quiet_bind; [|intros ?]
    | match goal with |- quiet (match ?x with _ => _ end) => destruct x end
    | match goal with |- quiet (if ?x then _ else _) => destruct x end ].

Ltac quiet_solve := repeat quiet_step.

Lemma quiet_operations P f c :
  quiet (opfsInit P) /\ quiet (opfsList P) /\ quiet (opfsCreate P f c) /\
  quiet (opfsRead P f) /\ quiet (opfsUpdate P f c) /\ quiet (opfsDelete P f).
Proof.
  unfold opfsInit, opfsList, opfsCreate, opfsRead, opfsUpdate, opfsDelete,
    getDirectory, values, getFileHandle, createSyncAccessHandle, getFile, text,
    removeEntry, TextEncoder_encode, truncate, write, flush, close, on_handle.
  repeat split; quiet_solve.
Qed.

Lemma quiet_executor P data m : executor P data = Some m -> quiet m.
Proof.
  unfold executor. pose proof (quiet_operations P (fileName data) (content data))
    as (Hi & Hl & Hc & Hr & Hu & Hd).
  repeat case_decide; intros [= <-]; apply quiet_bind; auto using @quiet_ret.
Qed.

Lemma executor_recognized P data :
  is_Some (executor P data) <-> type data ∈ recognized.
Proof.
  unfold executor, recognized. cbn [map].
  rewrite !elem_of_cons, elem_of_nil.
  repeat case_decide; split; intros Hx; eauto; try (destruct Hx as [? [=]]); intuition.
Qed.

Lemma errors_ret {A} (a : A) : throws_errors (ret a).
Proof. intros w e [=]. Qed.

Lemma errors_throw {A} e : is_Error e -> throws_errors (@throw A e).
Proof. intros He w e' [= <-]. exact He. Qed.

Lemma errors_bind {A B} (m : M A) (k : A -> M B) :
  throws_errors m -> (forall a, throws_errors (k a)) -> throws_errors (bind m k).
Proof.
  intros Hm Hk w e. unfold bind. specialize (Hm w).
  destruct (m w) as [[a|e'] w1]; cbn in *.
  - apply Hk.
  - intros [= <-]. now apply Hm.
Qed.

Lemma errors_try_finally {A} (body : M A) (fin : M unit) :
  throws_errors body -> throws_errors fin -> throws_errors (try_finally body fin).
Proof.
  intros Hb Hf w e. unfold try_finally. specialize (Hb w).
  destruct (body w) as [c w1]. specialize (Hf w1).
  destruct (fin w1) as [[[]|e'] w2]; cbn in *; [apply Hb|].
  intros [= <-]. now apply Hf.
Qed.

Lemma errors_record c : throws_errors (record c).
Proof. intros w e [=]. Qed.

Lemma errors_may_fail f : throws_errors (may_fail f).
Proof. destruct f as [[n msg]|]; intros w e [=]. subst. exact I. Qed.

Lemma errors_native {A} P n : throws_errors (@native A P n).
Proof. intros w e [= <-]. exact I. Qed.

Lemma errors_state :
  throws_errors get_entries /\ throws_errors get_locks /\
  (forall es, throws_errors (set_entries es)) /\
  (forall ls, throws_errors (set_locks ls)).
Proof. repeat split; intros; intros w e [=]. Qed.

Ltac errors_step :=
  first
    [ apply errors_ret | apply errors_throw; exact I | apply errors_may_fail
    | apply errors_native
    | apply errors_record
    | apply (proj1 errors_state) | apply (proj1 (proj2 errors_state))
    | apply (proj1 (proj2 (proj2 errors_state)))
    | apply (proj2 (proj2 (proj2 errors_state)))
    | apply errors_try_finally
    | apply errors_bind; [|intros ?]
    | match goal with |- throws_errors (match ?x with _ => _ end) => destruct x end
    | match goal with |- throws_errors (if ?x then _ else _) => destruct x end ].

Lemma errors_operations P f c :
  throws_errors (opfsInit P) /\ throws_errors (opfsList P) /\
  throws_errors (opfsCreate P f c) /\ throws_errors (opfsRead P f) /\
  throws_errors (opfsUpdate P f c) /\ throws_errors (opfsDelete P f).
Proof.
  unfold opfsInit, opfsList, opfsCreate, opfsRead, opfsUpdate, opfsDelete,
    getDirectory, values, getFileHandle, createSyncAccessHandle, getFile, text,
    removeEntry, TextEncoder_encode, truncate, write, flush, close, on_handle.
  cbv zeta. repeat split; repeat errors_step.
Qed.

Lemma errors_executor P data m : executor P data = Some m -> throws_errors m.
Proof.
  unfold executor. pose proof (errors_operations P (fileName data) (content data))
    as (Hi & Hl & Hc & Hr & Hu & Hd).
  repeat case_decide; intros [= <-]; apply errors_bind; auto using @errors_ret.
Qed.

Lemma ToString_spec P v w :
  ToString P v w =
    match string_form v with
    | Some text => (Normal text, w)
    | None => (Throw (ThrowNative TypeError (message_of P TypeError)), w)
    end.
Proof. destruct v as [| |[]| | | |[t|]]; reflexivity. Qed.

Lemma replyError_Error P id e w :
  replyError P id e w =
    match e with
    | ThrowError message | ThrowNative _ message =>
        (Normal tt, with_trace [CPostMessage (ErrorResponse id message)] w)
    | ThrowValue v =>
        match string_form v with
        | Some text => (Normal tt, with_trace [CPostMessage (ErrorResponse id text)] w)
        | None => (Throw (ThrowNative TypeError (message_of P TypeError)), w)
        end
    end.
Proof.
  unfold replyError, bind. destruct e as [m|n m|v]; try reflexivity.
  rewrite ToString_spec. now destruct (string_form v).
Qed.

Lemma posted_with_trace r w :
  posted (trace (with_trace [CPostMessage r] w)) = posted (trace w) ++ [r].
Proof. unfold posted. cbn. now rewrite omap_app. Qed.

Lemma onmessage_run P data w :
  onmessage P data w =
    match executor P data with
    | Some m =>
        match m w with
        | (Normal payload, w1) =>
            (Normal tt,
             with_trace [CPostMessage (SuccessResponse (correlationId data) payload)] w1)
        | (Throw e, w1) => replyError P (correlationId data) e w1
        end
    | None =>
        (Normal tt,
         with_trace
           [CPostMessage
              (ErrorResponse (correlationId data)
                 match string_form (type data) with
                 | Some text => js "Unknown message type: " ++ text
                 | None => message_of P TypeError
                 end)] w)
    end.
Proof.
  unfold onmessage, executor. repeat case_decide.
  7: { unfold try_catch, bind. rewrite ToString_spec.
       destruct (string_form (type data)); now rewrite replyError_Error. }
  all: unfold try_catch, bind, reply, postMessage, record, ret, with_trace.
  all: match goal with
       | |- context [opfsInit ?P ?w] => destruct (opfsInit P w) as [[[]|e] w1]
       | |- context [opfsList ?P ?w] => destruct (opfsList P w) as [[?|e] w1]
       | |- context [opfsCreate ?P ?f ?c ?w] => destruct (opfsCreate P f c w) as [[?|e] w1]
       | |- context [opfsRead ?P ?f ?w] => destruct (opfsRead P f w) as [[?|e] w1]
       | |- context [opfsUpdate ?P ?f ?c ?w] => destruct (opfsUpdate P f c w) as [[[]|e] w1]
       | |- context [opfsDelete ?P ?f ?w] => destruct (opfsDelete P f w) as [[[]|e] w1]
       end.
  all: reflexivity.
Qed.

(** C1 (as amended).  Whatever envelope the dispatcher receives, its handler
    completes normally (no exception escapes) and posts exactly one result
    envelope, with the correlation id of the request.  For one of the six
    types the run is the run of the matching operation followed by that one
    post: a success envelope with the result of the operation when it
    succeeds, a failure envelope with the message of the Error when it
    throws, and it throws nothing but Errors.  For any other type nothing
    runs and the failure envelope says "Unknown message type: " followed by
    the string form of the value received; when that value is an object
    whose conversion to a string throws, the envelope carries the message of
    that TypeError instead.  A thrown value that is not an Error is reported
    by its string form. *)
Theorem dispatcher_replies_once P data w :
  fst (onmessage P data w) = Normal tt /\
  (exists r,
    posted (trace (snd (onmessage P data w))) = posted (trace w) ++ [r] /\
    response_id r = correlationId data /\
    match executor P data with
    | Some m =>
        type data ∈ recognized /\
        snd (onmessage P data w) = with_trace [CPostMessage r] (snd (m w)) /\
        match fst (m w) with
        | Normal payload => r = SuccessResponse (correlationId data) payload
        | Throw (ThrowError message) => r = ErrorResponse (correlationId data) message
        | Throw (ThrowNative _ message) => r = ErrorResponse (correlationId data) message
        | Throw (ThrowValue _) => False
        end
    | None =>
        (type data ∉ recognized) /\
        snd (onmessage P data w) = with_trace [CPostMessage r] w /\
        match string_form (type data) with
        | Some text =>
            r = ErrorResponse (correlationId data) (js "Unknown message type: " ++ text)
        | None => r = ErrorResponse (correlationId data) (message_of P TypeError)
        end
    end) /\
  (forall id v text w',
     string_form v = Some text ->
     replyError P id (ThrowValue v) w'
       = (Normal tt, with_trace [CPostMessage (ErrorResponse id text)] w')).
Proof.
  assert (forall id v text w',
            string_form v = Some text ->
            replyError P id (ThrowValue v) w'
              = (Normal tt, with_trace [CPostMessage (ErrorResponse id text)] w')) as Hv.
  { intros id v text w' Hv. now rewrite replyError_Error, Hv. }
  pose proof (executor_recognized P data) as Hrec.
  pose proof (quiet_executor P data) as Hq.
  pose proof (errors_executor P data) as He.
  rewrite onmessage_run.
  destruct (executor P data) as [m|].
  - specialize (Hq m eq_refl w). specialize (He m eq_refl w).
    assert (type data ∈ recognized) as Hin by (apply Hrec; eauto).
    destruct (m w) as [[payload|e] w1]; cbn [fst snd] in *.
    + split; [reflexivity|]. split; [|exact Hv].
      eexists. split; [rewrite posted_with_trace, Hq; reflexivity|].
      split; [reflexivity|]. split; [assumption|]. split; reflexivity.
    + rewrite replyError_Error. specialize (He e eq_refl).
      destruct e as [msg|n msg|v]; [| |destruct He].
      all: split; [reflexivity|]; split; [|exact Hv].
      all: eexists; split; [cbn [snd]; rewrite posted_with_trace, Hq; reflexivity|].
      all: split; [reflexivity|]; split; [assumption|]; split; reflexivity.
  - split; [reflexivity|]. split; [|exact Hv]. cbn [snd].
    eexists. split; [apply posted_with_trace|]. split; [reflexivity|].
    split; [intros Hin; apply Hrec in Hin as [? [=]]|]. split; [reflexivity|].
    now destruct (string_form (type data)).
Qed.

Lemma sample_healthy : healthy sample_platform.
Proof. repeat split. Qed.

(** The round trip on the sample content, created in an empty store. *)
Lemma create_read_roundtrip_witness :
  Utf8.code_units sample_content /\
  Utf8.isWellFormed sample_content = true /\
  Utf8.starts_with_bom sample_content = false /\
  fst (opfsCreate sample_platform (js "a.txt") sample_content empty_world)
    = Normal (js "a.txt") /\
  fst (opfsRead sample_platform (js "a.txt")
         (snd (opfsCreate sample_platform (js "a.txt") sample_content empty_world)))
    = Normal sample_content.
Proof.
  assert (Utf8.code_units sample_content) as Hu
    by (repeat constructor; lia).
  split; [exact Hu|]. split; [reflexivity|]. split; [reflexivity|].
  split; [vm_compute; reflexivity|].
  refine (proj2 (proj2 (create_read_roundtrip sample_platform sample_platform
            (js "a.txt") sample_content empty_world (js "a.txt")
            (snd (opfsCreate sample_platform (js "a.txt") sample_content empty_world))
            (snd (opfsCreate sample_platform (js "a.txt") sample_content empty_world))
            Hu eq_refl eq_refl _ eq_refl)) sample_healthy).
  vm_compute. reflexivity.
Defined.

(** C3 fails for every string: a lone surrogate is stored as the encoding of
    U+FFFD and read back as U+FFFD, and a leading U+FEFF is dropped by the
    decoding of the read. *)
Lemma lone_surrogate_is_replaced :
  let w1 := snd (opfsCreate sample_platform (js "a.txt") [0xD800] empty_world) in
  let w2 := snd (opfsCreate sample_platform (js "a.txt") [0xFEFF; 0x61] empty_world) in
  Utf8.code_units [0xD800] /\
  fst (opfsCreate sample_platform (js "a.txt") [0xD800] empty_world)
    = Normal (js "a.txt") /\
  lookup_entry (js "a.txt") (entries w1) = Some (FileNode [0xEF; 0xBF; 0xBD]) /\
  fst (opfsRead sample_platform (js "a.txt") w1) = Normal [0xFFFD] /\
  fst (opfsRead sample_platform (js "a.txt") w1) <> Normal [0xD800] /\
  Utf8.isWellFormed [0xFEFF; 0x61] = true /\
  fst (opfsCreate sample_platform (js "a.txt") [0xFEFF; 0x61] empty_world)
    = Normal (js "a.txt") /\
  fst (opfsRead sample_platform (js "a.txt") w2) = Normal [0x61].
Proof.
  cbv zeta. split; [repeat constructor; lia|].
  vm_compute. repeat split; discriminate.
Qed.

(** C1 fails for a discriminator that cannot be converted to a string: for
    the clone of [{ toString: 1, valueOf: 1 }] in [type] the template literal
    of the default branch throws a TypeError, the [catch] reports it, and the
    one failure envelope carries the message of the TypeError, not
    "Unknown message type: ...". *)
Lemma unconvertible_type_reports_the_TypeError :
  let r := ErrorResponse (js "id-1") (js "Cannot convert object to primitive value") in
  (type unconvertible_request ∉ recognized) /\
  onmessage sample_platform unconvertible_request empty_world
    = (Normal tt, with_trace [CPostMessage r] empty_world) /\
  forall text, r <> ErrorResponse (js "id-1") (js "Unknown message type: " ++ text).
Proof.
  cbv zeta. split; [|split].
  - intros Hin. apply (executor_recognized sample_platform) in Hin as [? [=]].
  - reflexivity.
  - intros text [=].
Qed.

(** The listing example under the ordering by code units. *)
Lemma list_visible_sorted_witness :
  healthy sample_platform /\ consistent (localeCompare sample_platform) /\
  fst (opfsList sample_platform listing_world) = Normal [js "a.txt"; js "b.txt"].
Proof.
  split; [exact sample_healthy|]. split; [exact compare_units_consistent|].
  destruct (list_visible_sorted sample_platform listing_world sample_healthy
              compare_units_consistent) as (names & Hrun & _ & _ & _ & _ & Hex).
  rewrite Hrun. cbn [fst]. f_equal. eapply Hex; reflexivity.
Defined.

(** Reading a file that has just been deleted. *)
Lemma missing_file_is_an_error_witness :
  let w := snd (opfsDelete sample_platform (js "a.txt") one_file_world) in
  (exists P0 w0, opfsDelete P0 (js "a.txt") w0 = (Normal tt, w)) /\
  fst (opfsRead sample_platform (js "a.txt") w) = Throw (not_found sample_platform).
Proof.
  cbv zeta.
  assert (exists P0 w0, opfsDelete P0 (js "a.txt") w0 =
            (Normal tt, snd (opfsDelete sample_platform (js "a.txt") one_file_world)))
    as Hd.
  { exists sample_platform, one_file_world. vm_compute. reflexivity. }
  split; [exact Hd|].
  destruct (missing_file_is_an_error sample_platform (js "a.txt") [] _ (or_intror Hd))
    as (_ & _ & _ & Hnf & Hv & _).
  now rewrite (proj1 (Hnf sample_healthy (Hv Hd))).
Defined.

End WorkerFacts.

(* ================================================================== *)
(** ** The bridge *)
(* ================================================================== *)

Module BridgeFacts.
Import OPFS BridgeSpec.
Lemma alter_last {A} (f : A -> A) (l : list A) (x : A) :
  alter f (length l) (l ++ [x]) = l ++ [f x].
Proof. rewrite alter_app_r_alt by lia. now rewrite Nat.sub_diag. Qed.

Lemma getWorker_spec s :
  getWorker s =
    match worker s with
    | Some w => (w, s)
    | None =>
        (length (workers s),
         {| worker := Some (length (workers s));
            workers := workers s ++ [{| onerror_set := true; onmessage_set := true;
                                        inbox := [] |}];
            pending := pending s; promises := promises s |})
    end.
Proof.
  unfold getWorker. destruct (worker s) as [w|]; [reflexivity|].
  unfold new_Worker, set_worker, set_onerror, attachResponseListener, set_workers.
  cbn. now rewrite !alter_last.
Qed.

Lemma send_spec request s :
  send request s =
    (length (promises s),
     {| worker := Some (default (length (workers s)) (worker s));
        workers :=
          match worker s with
          | Some w => alter (post request) w (workers s)
          | None => workers s ++ [post request fresh_worker]
          end;
        pending := <[correlationId request := length (promises s)]> (pending s);
        promises := promises s ++ [[]] |}).
Proof.
  unfold send, send_body, then_, stmt, stmt_, return_. rewrite getWorker_spec.
  destruct (worker s) as [w|] eqn:Hw; cbn.
  - unfold postMessage, pending_set, set_pending, set_promises, set_workers. cbn.
    rewrite Hw. reflexivity.
  - unfold postMessage, pending_set, set_pending, set_promises, set_workers. cbn.
    now rewrite alter_last.
Qed.

Lemma onmessage_spec data s :
  onmessage data s =
    match pending s !! response_id data with
    | None => s
    | Some p =>
        {| worker := worker s; workers := workers s;
           pending := delete (response_id data) (pending s);
           promises := alter (fun calls => calls ++ [settlement_of data]) p (promises s) |}
    end.
Proof.
  unfold onmessage. destruct (pending s !! response_id data); [|reflexivity].
  destruct data; reflexivity.
Qed.

Lemma settlements_alter (p q : nat) (f : list Settlement -> list Settlement)
    (ps : list (list Settlement)) :
  default [] (alter f q ps !! p) =
    if decide (q = p) then
      match ps !! p with Some c => f c | None => [] end
    else default [] (ps !! p).
Proof.
  case_decide as Hq.
  - subst. rewrite list_lookup_alter_eq. now destruct (ps !! p).
  - now rewrite list_lookup_alter_ne.
Qed.

Lemma inv_initial : bridge_inv initial.
Proof. split; cbn; intros; simplify_map_eq; try discriminate. Qed.

Lemma inv_call u proc s : bridge_inv s -> bridge_inv (snd (OPFSFileSystem u proc s)).
Proof.
  intros [I1 I2 I3 I4 I5]. unfold OPFSFileSystem. rewrite send_spec. cbn.
  split; cbn.
  - intros id p Hp. destruct (decide (id = correlationId (request_of u proc))) as [->|Hne].
    + rewrite lookup_insert_eq in Hp. injection Hp as <-.
      now rewrite lookup_app_r, Nat.sub_diag by lia.
    + rewrite lookup_insert_ne in Hp by congruence.
      rewrite lookup_app_l; [now apply (I1 id)|].
      apply lookup_lt_is_Some. rewrite (I1 id p Hp). eauto.
  - intros id1 id2 p H1 H2.
    assert (forall id, pending s !! id = Some p -> (p < length (promises s))%nat) as Hlt.
    { intros id Hid. apply lookup_lt_is_Some. rewrite (I1 id p Hid). eauto. }
    destruct (decide (id1 = correlationId (request_of u proc))) as [->|Hn1];
      destruct (decide (id2 = correlationId (request_of u proc))) as [->|Hn2]; auto.
    + rewrite lookup_insert_eq in H1. rewrite lookup_insert_ne in H2 by congruence.
      injection H1 as <-. apply Hlt in H2. lia.
    + rewrite lookup_insert_eq in H2. rewrite lookup_insert_ne in H1 by congruence.
      injection H2 as <-. apply Hlt in H1. lia.
    + rewrite lookup_insert_ne in H1, H2 by congruence. eauto.
  - intros p calls Hp. apply lookup_app_Some in Hp as [Hp|[_ Hp]]; [eauto|].
    apply list_lookup_singleton_Some in Hp as [_ <-]. cbn. lia.
  - intros w o Hw. destruct (worker s) as [w0|] eqn:Hslot.
    + destruct (decide (w0 = w)) as [->|Hne].
      * rewrite list_lookup_alter_eq in Hw.
        destruct (workers s !! w) as [o'|] eqn:Ho; [|discriminate].
        injection Hw as <-. cbn. eauto.
      * rewrite list_lookup_alter_ne in Hw by assumption. eauto.
    + apply lookup_app_Some in Hw as [Hw|[_ Hw]]; [eauto|].
      apply list_lookup_singleton_Some in Hw as [_ <-]. cbn. auto.
  - intros w [= <-]. destruct (worker s) as [w0|] eqn:Hslot; cbn.
    + rewrite list_lookup_alter_eq. destruct (I5 w0 eq_refl) as [o ->]. cbn. eauto.
    + rewrite lookup_app_r, Nat.sub_diag by lia. cbn. eauto.
Qed.

Lemma inv_onmessage data s : bridge_inv s -> bridge_inv (onmessage data s).
Proof.
  intros [I1 I2 I3 I4 I5]. rewrite onmessage_spec.
  destruct (pending s !! response_id data) as [p|] eqn:Hp; [|now split].
  split; cbn; auto.
  - intros id q Hq. apply lookup_delete_Some in Hq as [Hne Hq].
    rewrite list_lookup_alter_ne; [eauto|].
    intros ->. apply Hne. eauto.
  - intros id1 id2 q H1 H2. apply lookup_delete_Some in H1 as [_ H1].
    apply lookup_delete_Some in H2 as [_ H2]. eauto.
  - intros q calls Hq. destruct (decide (p = q)) as [->|Hne].
    + rewrite list_lookup_alter_eq, (I1 _ _ Hp) in Hq. injection Hq as <-. cbn. lia.
    + rewrite list_lookup_alter_ne in Hq by assumption. eauto.
Qed.

Lemma deliver_spec w data s :
  deliver w data s =
    match workers s !! w with
    | Some o =>
        let s1 := set_workers (alter (answer (response_id data)) w (workers s)) s in
        if onmessage_set o then onmessage data s1 else s1
    | None => s
    end.
Proof. reflexivity. Qed.

Lemma inv_answer id w s :
  bridge_inv s -> bridge_inv (set_workers (alter (answer id) w (workers s)) s).
Proof.
  intros [I1 I2 I3 I4 I5]. split; cbn; auto.
  - intros w' o Hw. destruct (decide (w = w')) as [->|Hne].
    + rewrite list_lookup_alter_eq in Hw.
      destruct (workers s !! w') as [o'|] eqn:Ho; [|discriminate].
      injection Hw as <-. cbn. eauto.
    + rewrite list_lookup_alter_ne in Hw by assumption. eauto.
  - intros w' Hs. apply I5 in Hs. apply lookup_lt_is_Some.
    rewrite length_alter. now apply lookup_lt_is_Some.
Qed.

Lemma inv_step s e : bridge_inv s -> bridge_inv (step s e).
Proof.
  intros Hs. destruct e as [u proc|w data|w]; cbn [step].
  - now apply inv_call.
  - rewrite deliver_spec. destruct (workers s !! w) as [o|]; [|assumption].
    cbn zeta. destruct (onmessage_set o); [apply inv_onmessage|]; now apply inv_answer.
  - destruct (workers s !! w) as [o|]; [|assumption].
    destruct (onerror_set o); [|assumption].
    destruct Hs as [I1 I2 I3 I4 I5]. split; cbn; auto. discriminate.
Qed.

Lemma run_snoc s es e : run s (es ++ [e]) = step (run s es) e.
Proof. unfold run. now rewrite foldl_app. Qed.

Lemma inv_run s es : bridge_inv s -> bridge_inv (run s es).
Proof.
  revert s. induction es as [|e es IH]; intros s Hs; [assumption|].
  apply IH, inv_step, Hs.
Qed.

(** ** Which events touch a promise *)

Lemma settlements_lookup p s c :
  promises s !! p = Some c -> settlements p s = c.
Proof. unfold settlements. now intros ->. Qed.

Lemma step_promises_length s e :
  (length (promises s) <= length (promises (step s e)))%nat.
Proof.
  destruct e as [u proc|w data|w]; cbn [step].
  - unfold OPFSFileSystem. rewrite send_spec. cbn. rewrite length_app. lia.
  - rewrite deliver_spec. destruct (workers s !! w) as [o|]; [|lia].
    cbn zeta. destruct (onmessage_set o); [|cbn; lia].
    rewrite onmessage_spec. cbn.
    destruct (pending s !! response_id data); cbn; rewrite ?length_alter; lia.
  - destruct (workers s !! w) as [o|]; [|lia]. destruct (onerror_set o); cbn; lia.
Qed.

Lemma step_keys s e p id :
  (p < length (promises s))%nat ->
  pending (step s e) !! id = Some p -> pending s !! id = Some p.
Proof.
  intros Hp. destruct e as [u proc|w data|w]; cbn [step].
  - unfold OPFSFileSystem. rewrite send_spec. cbn. intros H.
    apply lookup_insert_Some in H as [[_ <-]|[_ H]]; [lia|assumption].
  - rewrite deliver_spec. destruct (workers s !! w) as [o|]; [|auto].
    cbn zeta. destruct (onmessage_set o); [|auto].
    rewrite onmessage_spec. cbn.
    destruct (pending s !! response_id data); cbn; [|auto].
    intros H. now apply lookup_delete_Some in H as [_ H].
  - destruct (workers s !! w) as [o|]; [|auto]. destruct (onerror_set o); auto.
Qed.

Lemma step_settlements s e p :
  bridge_inv s -> (p < length (promises s))%nat ->
  settlements p (step s e) = settlements p s \/
  exists w data,
    e = EMessage w data /\ pending s !! response_id data = Some p /\
    settlements p s = [] /\
    settlements p (step s e) = [settlement_of data] /\
    forall id, pending (step s e) !! id <> Some p.
Proof.
  intros Hs Hp. destruct e as [u proc|w data|w]; cbn [step].
  - left. unfold OPFSFileSystem, settlements. rewrite send_spec. cbn.
    now rewrite lookup_app_l.
  - rewrite deliver_spec. destruct (workers s !! w) as [o|]; [|now left].
    cbn zeta. destruct (onmessage_set o); [|now left].
    rewrite onmessage_spec. cbn [pending set_workers].
    destruct (pending s !! response_id data) as [q|] eqn:Hq; [|now left].
    destruct (decide (q = p)) as [->|Hne].
    + right. exists w, data. pose proof (inv_unsettled s Hs _ _ Hq) as Hu.
      split; [reflexivity|]. split; [assumption|].
      split; [now apply settlements_lookup|].
      split.
      * unfold settlements. cbn. now rewrite list_lookup_alter_eq, Hu.
      * cbn. intros id Hid. apply lookup_delete_Some in Hid as [Hne Hid].
        apply Hne. exact (inv_injective s Hs _ _ _ Hq Hid).
    + left. unfold settlements. cbn. now rewrite list_lookup_alter_ne.
  - left. destruct (workers s !! w) as [o|]; [|reflexivity].
    now destruct (onerror_set o).
Qed.

Lemma settled_is_stable es s p :
  bridge_inv s -> (p < length (promises s))%nat ->
  (forall id, pending s !! id <> Some p) ->
  settlements p (run s es) = settlements p s.
Proof.
  revert s. induction es as [|e es IH]; intros s Hs Hp Hk; [reflexivity|].
  cbn [run foldl]. fold (run (step s e) es).
  rewrite IH.
  - destruct (step_settlements s e p Hs Hp) as [H|(w & data & _ & H & _)];
      [assumption|]. now destruct (Hk _ H).
  - now apply inv_step.
  - pose proof (step_promises_length s e). lia.
  - intros id Hid. apply (Hk id). eapply step_keys; eauto.
Qed.


Lemma issue_snoc calls c : issue (calls ++ [c]) = issue calls ++ [ECall (fst c) (snd c)].
Proof. unfold issue. now rewrite map_app. Qed.



Lemma correlationId_request_of u proc : correlationId (request_of u proc) = u.
Proof. now destruct proc. Qed.

Lemma call_fields u proc s :
  fst (OPFSFileSystem u proc s) = length (promises s) /\
  promises (snd (OPFSFileSystem u proc s)) = promises s ++ [[]] /\
  pending (snd (OPFSFileSystem u proc s)) = <[u := length (promises s)]> (pending s).
Proof.
  unfold OPFSFileSystem. rewrite send_spec. cbn. now rewrite correlationId_request_of.
Qed.


(** ** The [error] event *)

Lemma error_step s w :
  bridge_inv s -> is_Some (workers s !! w) -> step s (EError w) = set_worker None s.
Proof.
  intros Hs [o Ho]. cbn. rewrite Ho.
  now destruct (inv_handlers s Hs w o Ho) as [-> _].
Qed.

Lemma issue_keeps_others s calls id :
  id ∉ map fst calls -> pending (run s (issue calls)) !! id = pending s !! id.
Proof.
  induction calls as [|[u proc] calls IH] using rev_ind; intros Hn; [reflexivity|].
  rewrite issue_snoc, run_snoc. cbn [step fst snd].
  destruct (call_fields u proc (run s (issue calls))) as (_ & _ & ->).
  rewrite map_app in Hn. cbn in Hn.
  rewrite lookup_insert_ne.
  - apply IH. intros Hin. apply Hn, elem_of_app. now left.
  - intros ->. apply Hn, elem_of_app. right. left.
Qed.

Lemma issue_keeps_promises s calls p :
  (p < length (promises s))%nat ->
  promises (run s (issue calls)) !! p = promises s !! p.
Proof.
  intros Hp. induction calls as [|[u proc] calls IH] using rev_ind; [reflexivity|].
  rewrite issue_snoc, run_snoc. cbn [step fst snd].
  destruct (call_fields u proc (run s (issue calls))) as (_ & -> & _).
  rewrite lookup_app_l; [assumption|].
  apply lookup_lt_is_Some. rewrite IH. now apply lookup_lt_is_Some.
Qed.

Lemma message_settles s w data p :
  bridge_inv s -> is_Some (workers s !! w) ->
  pending s !! response_id data = Some p ->
  settlements p (step s (EMessage w data)) = [settlement_of data].
Proof.
  intros Hs [o Ho] Hp. cbn [step]. rewrite deliver_spec, Ho. cbn zeta.
  destruct (inv_handlers s Hs w o Ho) as [_ ->].
  rewrite onmessage_spec. cbn [pending set_workers]. rewrite Hp.
  unfold settlements. cbn. rewrite list_lookup_alter_eq.
  now rewrite (inv_unsettled s Hs _ _ Hp).
Qed.

(** C9.  The handler of the [error] event of a worker changes the worker
    slot only: the state afterwards is the state before with the slot set to
    null, so the registry, the promises and the worker objects are the same
    and an entry registered before is still there.  After any further calls
    with other ids, a result envelope with the id of such an entry, delivered
    by any worker object (old or new), settles the promise of that entry
    with the outcome of the envelope. *)
Theorem crash_keeps_registry es s w id p calls data :
  s = run initial es ->
  is_Some (workers s !! w) -> pending s !! id = Some p ->
  id ∉ map fst calls -> response_id data = id ->
  let s1 := step s (EError w) in
  let s2 := run s1 (issue calls) in
  s1 = set_worker None s /\
  pending s1 = pending s /\ promises s1 = promises s /\ workers s1 = workers s /\
  settlements p s1 = [] /\
  pending s2 !! id = Some p /\
  forall w', is_Some (workers s2 !! w') ->
    settlements p (step s2 (EMessage w' data)) = [settlement_of data].
Proof.
  intros -> Hw Hp Hn Hid s1 s2.
  set (s := run initial es) in *.
  assert (bridge_inv s) as Hs by apply inv_run, inv_initial.
  assert (s1 = set_worker None s) as H1 by now apply error_step.
  assert (bridge_inv s1) as Hs1 by now apply inv_step.
  assert (bridge_inv s2) as Hs2 by now apply inv_run.
  assert (pending s2 !! id = Some p) as Hp2.
  { unfold s2. rewrite issue_keeps_others by assumption. now rewrite H1. }
  split; [assumption|].
  split; [now rewrite H1|]. split; [now rewrite H1|]. split; [now rewrite H1|].
  split; [|split; [assumption|]].
  - rewrite H1. apply settlements_lookup. exact (inv_unsettled s Hs _ _ Hp).
  - intros w' Hw'. apply message_settles; auto. now rewrite Hid.
Qed.




(** A late failure envelope for call A, delivered by the new worker. *)
Lemma crash_keeps_registry_witness :
  is_Some (workers after_call_A !! 0%nat) /\
  pending after_call_A !! js "A" = Some 0%nat /\
  (js "A" ∉ map fst [(js "B", List_)]) /\
  settlements 0
    (step (run (step after_call_A (EError 0)) (issue [(js "B", List_)]))
       (EMessage 1 late_answer_A))
    = [Rejected (ThrowError (js "late"))].
Proof.
  assert (is_Some (workers after_call_A !! 0%nat)) as Hw by (vm_compute; eauto).
  assert (pending after_call_A !! js "A" = Some 0%nat) as Hp
    by (vm_compute; reflexivity).
  assert (js "A" ∉ map fst [(js "B", List_)]) as Hn.
  { intros Hin. apply list_elem_of_singleton in Hin. discriminate. }
  pose proof (crash_keeps_registry [ECall (js "A") Init] after_call_A 0 (js "A") 0
                [(js "B", List_)] late_answer_A eq_refl Hw Hp Hn eq_refl) as H.
  cbv zeta in H. destruct H as (_ & _ & _ & _ & _ & _ & Hset).
  split; [exact Hw|]. split; [exact Hp|]. split; [exact Hn|].
  apply (Hset 1%nat). vm_compute. eauto.
Defined.

(** ** The order of the statements of [send] *)

Lemma in_flight_alter (f : WorkerObj -> WorkerObj) w ws o :
  ws !! w = Some o ->
  exists pre suf,
    flat_map inbox ws = pre ++ inbox o ++ suf /\
    flat_map inbox (alter f w ws) = pre ++ inbox (f o) ++ suf.
Proof.
  revert w. induction ws as [|x ws IH]; intros [|w] Hw; try discriminate.
  - injection Hw as ->. exists [], (flat_map inbox ws). split; reflexivity.
  - destruct (IH w Hw) as (pre & suf & H1 & H2).
    exists (inbox x ++ pre), suf. cbn. rewrite H1, H2, <- !app_assoc. split; reflexivity.
Qed.

Lemma in_flight_post request w s :
  is_Some (workers s !! w) ->
  in_flight (postMessage w request s) ≡ₚ request :: in_flight s.
Proof.
  intros [o Ho]. unfold in_flight, postMessage. cbn.
  destruct (in_flight_alter (post request) w _ o Ho) as (pre & suf & H1 & H2).
  unfold post in H2. rewrite H1. etransitivity; [rewrite H2; reflexivity|].
  cbn. rewrite <- !app_assoc. cbn.
  rewrite !app_assoc. symmetry. apply Permutation_middle.
Qed.

Lemma answered_split id l :
  (exists req, req ∈ l /\ correlationId req = id) ->
  exists l1 req l2,
    l = l1 ++ req :: l2 /\ correlationId req = id /\ answered id l = l1 ++ l2.
Proof.
  induction l as [|x l IH]; intros (req & Hin & Hid).
  - now apply elem_of_nil in Hin.
  - cbn. destruct (decide (correlationId x = id)) as [Hx|Hx].
    + exists [], x, l. auto.
    + apply elem_of_cons in Hin as [->|Hin]; [contradiction|].
      destruct IH as (l1 & r & l2 & -> & Hr & Ha); [eauto|].
      exists (x :: l1), r, l2. rewrite Ha. auto.
Qed.

Lemma in_flight_answer w data s :
  admissible s (EMessage w data) ->
  exists req,
    correlationId req = response_id data /\
    in_flight s ≡ₚ
      req :: in_flight (set_workers (alter (answer (response_id data)) w (workers s)) s).
Proof.
  intros (o & req & Ho & Hin & Hid). unfold in_flight. cbn.
  destruct (in_flight_alter (answer (response_id data)) w _ o Ho)
    as (pre & suf & H1 & H2).
  destruct (answered_split (response_id data) (inbox o)) as (l1 & r & l2 & Hl & Hr & Ha);
    [eauto|].
  exists r. split; [assumption|]. rewrite H1, H2. cbn. rewrite Ha, Hl.
  rewrite <- !app_assoc. cbn. rewrite !(app_assoc pre l1).
  symmetry. apply Permutation_middle.
Qed.

Lemma flight_initial : flight_inv initial.
Proof. split; cbn; [intros req Hin; now apply elem_of_nil in Hin|constructor]. Qed.


Lemma send_states request s :
  bridge_inv s ->
  exists w p s1 s2 s3 s4,
    moments (send_body request) s = [s1; s2; s3; s4] /\
    send request s = (p, s4) /\
    (pending s1 = pending s /\ in_flight s1 = in_flight s) /\
    (pending s2 = pending s /\ in_flight s2 = in_flight s) /\
    (pending s3 = <[correlationId request := p]> (pending s) /\
     in_flight s3 = in_flight s) /\
    (pending s4 = pending s3 /\ s4 = postMessage w request s3 /\
     in_flight s4 ≡ₚ request :: in_flight s).
Proof.
  intros Hs. unfold moments, send, send_body, then_, stmt, stmt_, return_.
  rewrite getWorker_spec.
  destruct (worker s) as [w|] eqn:Hw; cbn.
  - destruct (inv_slot s Hs w Hw) as [o Ho].
    eexists w, _, _, _, _, _. split; [reflexivity|]. split; [reflexivity|].
    cbn. repeat split; try reflexivity.
    apply (in_flight_post request w
             (pending_set (correlationId request) (length (promises s))
                (set_promises (promises s ++ [[]]) s))).
    cbn. eauto.
  - eexists (length (workers s)), _, _, _, _, _.
    split; [reflexivity|]. split; [reflexivity|].
    assert (flat_map inbox
              (workers s ++ [{| onerror_set := true; onmessage_set := true;
                                inbox := [] |}]) = in_flight s) as Hfl.
    { rewrite flat_map_app. cbn. now rewrite app_nil_r. }
    unfold in_flight at 1 3 5. cbn [workers set_promises pending_set set_pending].
    repeat split; try reflexivity; try exact Hfl.
    rewrite <- Hfl.
    apply (in_flight_post request (length (workers s))
             (pending_set (correlationId request) (length (promises s))
                (set_promises (promises s ++ [[]])
                   {| worker := Some (length (workers s));
                      workers := workers s ++ [{| onerror_set := true;
                                                  onmessage_set := true;
                                                  inbox := [] |}];
                      pending := pending s; promises := promises s |}))).
    cbn. rewrite lookup_app_r, Nat.sub_diag by lia. cbn. eauto.
Qed.

Lemma registered_insert s s' id p :
  registered s -> in_flight s' = in_flight s ->
  pending s' = <[id := p]> (pending s) -> registered s'.
Proof.
  intros Hr Hfl Hpe req Hin. rewrite Hfl in Hin. rewrite Hpe.
  destruct (decide (id = correlationId req)) as [->|Hne];
    [rewrite lookup_insert_eq|rewrite lookup_insert_ne by assumption]; eauto.
Qed.

Lemma flight_step s e :
  bridge_inv s -> flight_inv s -> admissible s e -> flight_inv (step s e).
Proof.
  intros Hs [F1 F2] Ha. destruct e as [u proc|w data|w]; cbn [step].
  - unfold OPFSFileSystem.
    destruct (send_states (request_of u proc) s Hs)
      as (w & p & s1 & s2 & s3 & s4 & _ & -> & _ & _ & [Hp3 Hf3] & Hp4 & _ & Hperm).
    cbn [snd]. rewrite correlationId_request_of in Hp3. split.
    + intros req Hin. rewrite Hperm in Hin. rewrite Hp4, Hp3.
      apply elem_of_cons in Hin as [->|Hin].
      * rewrite correlationId_request_of, lookup_insert_eq. eauto.
      * apply F1 in Hin as [q Hq].
        destruct (decide (u = correlationId req)) as [->|Hne];
          [rewrite lookup_insert_eq|rewrite lookup_insert_ne by assumption]; eauto.
    + rewrite Hperm. cbn. constructor; [|assumption].
      rewrite correlationId_request_of. intros Hin.
      apply list_elem_of_fmap in Hin as (req & -> & Hin).
      apply F1 in Hin as [q Hq]. cbn in Ha. congruence.
  - rewrite deliver_spec. destruct (workers s !! w) as [o|] eqn:Ho; [|now split].
    cbn zeta. destruct (in_flight_answer w data s Ha) as (req & Hid & Hperm).
    set (s1 := set_workers _ s) in *.
    assert (NoDup (map correlationId (req :: in_flight s1))) as Hnd
      by now rewrite <- Hperm.
    apply NoDup_cons in Hnd as [Hnotin Hnd].
    assert (forall r, r ∈ in_flight s1 -> correlationId r <> response_id data) as Hne.
    { intros r Hr Heq. apply Hnotin. rewrite Hid, <- Heq.
      apply list_elem_of_fmap. eauto. }
    assert (forall r, r ∈ in_flight s1 -> is_Some (pending s !! correlationId r)) as Hreg.
    { intros r Hr. apply F1. rewrite Hperm. now right. }
    destruct (onmessage_set o).
    + rewrite onmessage_spec. cbn [pending s1 set_workers].
      destruct (pending s !! response_id data) as [p|]; [|now split].
      split; [|assumption]. cbn. intros r Hr.
      rewrite lookup_delete_ne by (intros Heq; now apply (Hne r Hr)). now apply Hreg.
    + now split.
  - destruct (workers s !! w) as [o|]; [|now split].
    destruct (onerror_set o); now split.
Qed.

Lemma flight_run es s :
  bridge_inv s -> flight_inv s -> admissible_run s es -> flight_inv (run s es).
Proof.
  revert s. induction es as [|e es IH]; intros s Hs Hf Ha; [assumption|].
  destruct Ha as [Ha Hrest]. apply IH; auto using inv_step, flight_step.
Qed.

Lemma step_moments_registered s e :
  bridge_inv s -> flight_inv s -> admissible s e ->
  Forall registered (step_moments s e).
Proof.
  intros Hs Hf Ha.
  pose proof (flight_registered _ (flight_step s e Hs Hf Ha)) as Hlast.
  pose proof (flight_registered _ Hf) as Hr.
  destruct e as [u proc|w data|w]; cbn [step_moments];
    [|repeat constructor; exact Hlast..].
  cbn [step] in Hlast. unfold OPFSFileSystem in Hlast.
  destruct (send_states (request_of u proc) s Hs)
    as (w & p & s1 & s2 & s3 & s4 & -> & Hsend & [Hp1 Hf1] & [Hp2 Hf2] & [Hp3 Hf3] & _).
  rewrite Hsend in Hlast. cbn [snd] in Hlast.
  repeat constructor; [| | |exact Hlast].
  - intros req Hin. rewrite Hf1 in Hin. rewrite Hp1. now apply Hr.
  - intros req Hin. rewrite Hf2 in Hin. rewrite Hp2. now apply Hr.
  - eapply registered_insert; eauto.
Qed.

Lemma run_moments_registered es s :
  bridge_inv s -> flight_inv s -> admissible_run s es ->
  Forall registered (run_moments s es).
Proof.
  revert s. induction es as [|e es IH]; intros s Hs Hf Ha; [constructor|].
  destruct Ha as [Ha Hrest]. cbn [run_moments]. apply Forall_app. split.
  - now apply step_moments_registered.
  - apply IH; auto using inv_step, flight_step.
Qed.

(** C10.  The statements of [send] in the order of execution: after
    [getWorker] and after the creation of the promise the registry and the
    envelopes in flight are as before; then the entry is set under the id of
    the request, with nothing posted yet; then the envelope is posted, to a
    registry that already has the entry.  When ids are fresh and workers
    answer the envelopes they were sent, once each, then at every moment of
    a run, between the events and between the statements of each [send],
    every envelope in flight has its id in the registry, and every answer
    finds its entry. *)
Theorem registered_before_posted es :
  admissible_run initial es ->
  let s := run initial es in
  Forall registered (initial :: run_moments initial es) /\
  (forall request,
     exists w p s1 s2 s3 s4,
       moments (send_body request) s = [s1; s2; s3; s4] /\
       send request s = (p, s4) /\
       (pending s1 = pending s /\ in_flight s1 = in_flight s) /\
       (pending s2 = pending s /\ in_flight s2 = in_flight s) /\
       (pending s3 = <[correlationId request := p]> (pending s) /\
        in_flight s3 = in_flight s) /\
       (pending s4 = pending s3 /\ s4 = postMessage w request s3 /\
        in_flight s4 ≡ₚ request :: in_flight s)) /\
  (forall w data, admissible s (EMessage w data) ->
     is_Some (pending s !! response_id data)).
Proof.
  intros Ha s.
  assert (bridge_inv s) as Hs by apply inv_run, inv_initial.
  assert (flight_inv s) as [F1 F2]
    by (apply flight_run; auto using inv_initial, flight_initial).
  split; [|split].
  - constructor; [exact (flight_registered _ flight_initial)|].
    apply run_moments_registered; auto using inv_initial, flight_initial.
  - intros request. now apply send_states.
  - intros w data (o & req & Ho & Hin & Hid). rewrite <- Hid. apply F1.
    unfold in_flight. apply list_elem_of_In, in_flat_map. exists o.
    split; apply list_elem_of_In; [|assumption].
    eapply list_elem_of_lookup_2; eauto.
Qed.

(** Two calls and the answer to the second: the states passed through. *)
Lemma registered_before_posted_witness :
  admissible_run initial sample_events /\
  Forall registered (initial :: run_moments initial sample_events) /\
  length (run_moments initial sample_events) = 9%nat.
Proof.
  assert (admissible_run initial sample_events) as Ha.
  { cbn [admissible_run sample_events]. split; [vm_compute; reflexivity|].
    split; [vm_compute; reflexivity|]. split; [|exact I].
    eexists _, (request_of (js "id-2") List_). split; [vm_compute; reflexivity|].
    split; [|reflexivity]. right. left. }
  split; [exact Ha|]. split; [|reflexivity].
  exact (proj1 (registered_before_posted sample_events Ha)).
Defined.

(** ** Ids drawn from [crypto.randomUUID] *)





















End BridgeFacts.

(* ================================================================== *)
(** ** Further properties of the worker *)
(* ================================================================== *)

Module WorkerExtras.
Import Utf8 Backend OpfsWorker WorkerSpec Utf8Facts WorkerFacts ExtraSpec.

(** *** Reading back any string *)

Lemma decode_scalars_encode cps :
  Forall scalar cps ->
  decode_scalars (flat_map encode_scalar cps) =
    match cps with
    | cp :: rest => if cp =? 0xFEFF then rest else cps
    | [] => []
    end.
Proof.
  intros Hs. unfold decode_scalars. destruct cps as [|cp rest]; [reflexivity|].
  cbn [flat_map]. inversion Hs as [|? ? Hcp Hrest]; subst.
  destruct (N.eqb_spec cp 0xFEFF) as [->|Hne].
  - change (encode_scalar 65279) with [0xEF; 0xBB; 0xBF].
    change (strip_bom ([239; 187; 191] ++ ?x)) with x.
    now apply dec_run_encode.
  - rewrite strip_bom_encode_scalar by assumption.
    change (encode_scalar cp ++ flat_map encode_scalar rest)
      with (flat_map encode_scalar (cp :: rest)).
    now apply dec_run_encode.
Qed.

Lemma of_scalar_head cp :
  scalar cp -> cp <> 0xFEFF ->
  drop_bom (of_scalar cp) = of_scalar cp /\
  exists c tl, of_scalar cp = c :: tl /\ c <> 0xFEFF.
Proof.
  intros [Hlt _] Hne. unfold of_scalar.
  destruct (N.ltb_spec cp 0x10000).
  - cbn. destruct (N.eqb_spec cp 0xFEFF); [contradiction|]. eauto.
  - cbn. destruct (N.eqb_spec (55296 + (cp - 65536) / 1024) 0xFEFF) as [He|He].
    + exfalso. nlia.
    + eauto.
Qed.

Lemma decode_encode_any s :
  code_units s -> decode (encode s) = drop_bom (toWellFormed s).
Proof.
  intros Hu. unfold decode, encode, toWellFormed.
  pose proof (to_scalars_scalar s Hu) as Hs.
  rewrite decode_scalars_encode by assumption.
  destruct (to_scalars s) as [|cp rest]; [reflexivity|].
  inversion Hs as [|? ? Hcp Hrest]; subst.
  destruct (N.eqb_spec cp 0xFEFF) as [->|Hne]; [reflexivity|].
  cbn [flat_map]. destruct (of_scalar_head cp Hcp Hne) as (_ & c & tl & -> & Hc).
  cbn. destruct (N.eqb_spec c 0xFEFF); [contradiction|reflexivity].
Qed.

(** X1.  For every content (a string of 16-bit code units), reading a file
    back after a successful [create] returns the content with each lone
    surrogate replaced by U+FFFD and without a leading U+FEFF. *)
Theorem read_after_create_any_content P P' name content w r w1 :
  code_units content ->
  opfsCreate P name content w = (Normal r, w1) ->
  healthy P' ->
  fst (opfsRead P' name w1) = Normal (drop_bom (toWellFormed content)).
Proof.
  intros Hu Hc Hh.
  destruct (opfsCreate_normal _ _ _ _ _ _ Hc) as (-> & Hv & Hl).
  rewrite (opfsRead_file P' name w1 (encode content)) by assumption.
  cbn. f_equal. now apply decode_encode_any.
Qed.

(** *** What the write path does to the entries *)

Lemma write_block_entries P h content w bs :
  h ∈ locks w -> lookup_entry h (entries w) = Some (FileNode bs) ->
  entries (snd (write_block P h content w)) = entries w \/
  entries (snd (write_block P h content w))
    = update_entry h (FileNode []) (entries w) \/
  entries (snd (write_block P h content w))
    = update_entry h (FileNode (encode content)) (entries w).
Proof.
  intros Hl He. rewrite (write_block_spec P h content w bs) by assumption.
  destruct (call_fails (fault_encode P)); [now left|].
  destruct (call_fails (fault_truncate P)); [now left|].
  destruct (call_fails (fault_write P)); [right; now left|].
  destruct (call_fails (fault_flush P)); right; now right.
Qed.

Lemma write_ops_entries P name content w :
  entries_after P true name content (entries w)
    (entries (snd (opfsCreate P name content w))) /\
  entries_after P false name content (entries w)
    (entries (snd (opfsUpdate P name content w))).
Proof.
  split.
  - rewrite opfsCreate_unfold.
    pose proof (acquire_spec P name true w) as Ha.
    destruct (acquire P name true w) as [[h|e] w1].
    + destruct Ha as (-> & Hn & Hl & _ & _ & [bs Hbs] & Hes).
      assert (entries w1 = entries w \/
              (true = true /\ lookup_entry (entry_name name) (entries w) = None /\
               entries w1 = insert_entry
                              (position P (entry_name name) (map fst (entries w)))
                              (entry_name name, FileNode []) (entries w))) as H1.
      { destruct (lookup_entry (entry_name name) (entries w)); [now left|right].
        destruct Hes. auto. }
      pose proof (write_block_entries P (entry_name name) content w1 bs) as Hw.
      destruct (write_block P (entry_name name) content w1) as [[[]|e] w2]; cbn [snd] in *.
      all: exists (entries w1); split; [exact H1|].
      all: destruct Hw as [Hw|[Hw|Hw]]; [rewrite Hl; left|assumption|now left| |];
        right; (split; [rewrite Hbs; eauto|]); auto.
    + destruct Ha as (_ & _ & Hes). cbn [snd]. exists (entries w1).
      split; [|now left]. destruct Hes as [->|(? & ? & ->)]; auto.
  - rewrite opfsUpdate_unfold.
    pose proof (acquire_spec P name false w) as Ha.
    destruct (acquire P name false w) as [[h|e] w1].
    + destruct Ha as (-> & Hn & Hl & _ & _ & [bs Hbs] & Hes).
      assert (entries w1 = entries w) as H1.
      { destruct (lookup_entry (entry_name name) (entries w)); [assumption|].
        now destruct Hes. }
      pose proof (write_block_entries P (entry_name name) content w1 bs) as Hw.
      exists (entries w1). split; [now left|].
      destruct Hw as [Hw|[Hw|Hw]]; [rewrite Hl; left|assumption|now left| |];
        right; (split; [rewrite Hbs; eauto|]); auto.
    + destruct Ha as (_ & _ & Hes). cbn [snd]. exists (entries w1).
      split; [|now left]. destruct Hes as [->|(? & ? & ->)]; auto.
Qed.

Lemma names_update_entry h n es : names (update_entry h n es) = names es.
Proof.
  unfold names. induction es as [|[k v] es IH]; [reflexivity|]. cbn.
  destruct (decide (k = h)); cbn; [reflexivity|]. now rewrite IH.
Qed.

Lemma names_insert_entry k e es :
  names (insert_entry k e es) = take k (names es) ++ fst e :: drop k (names es).
Proof.
  unfold names, insert_entry. rewrite map_app. cbn.
  now rewrite <- fmap_take, <- fmap_drop.
Qed.

Lemma lookup_entry_None name es : lookup_entry name es = None <-> name ∉ names es.
Proof.
  unfold names. induction es as [|[k v] es IH]; cbn.
  - split; [intros _ H; now apply elem_of_nil in H|reflexivity].
  - destruct (decide (k = name)) as [->|Hne].
    + split; [discriminate|]. intros H. destruct H. left.
    + rewrite IH. split.
      * intros H Hin. apply elem_of_cons in Hin as [?|?]; [congruence|auto].
      * intros H Hin. apply H. now right.
Qed.

Lemma entries_after_lookup P create name content es es' n :
  entries_after P create name content es es' -> n <> entry_name name ->
  lookup_entry n es' = lookup_entry n es.
Proof.
  intros (es1 & H1 & H2) Hne.
  assert (lookup_entry n es1 = lookup_entry n es) as He1.
  { destruct H1 as [->|(_ & Hnone & ->)]; [reflexivity|].
    rewrite lookup_entry_insert_new by assumption.
    now rewrite decide_False by congruence. }
  destruct H2 as [->|(_ & [->| ->])]; [assumption| |];
    now rewrite lookup_entry_update_ne.
Qed.

Lemma entries_after_names P create name content es es' :
  entries_after P create name content es es' ->
  names es' = names es \/
  (create = true /\ (entry_name name ∉ names es) /\
   inserted (entry_name name) (names es) (names es')).
Proof.
  intros (es1 & H1 & H2).
  assert (names es' = names es1) as ->.
  { destruct H2 as [->|(_ & [->| ->])]; auto using names_update_entry. }
  destruct H1 as [->|(Hc & Hnone & ->)]; [now left|right].
  split; [assumption|]. split; [now apply lookup_entry_None|].
  eexists. apply names_insert_entry.
Qed.

(** X2.  [create] and [update], whether they succeed or fail, touch no
    file but the one the name designates: every other name looks up as
    before, the entries keep their order, and the only entry that can appear
    is that one, put in by [create] when it did not exist. *)
Theorem write_touches_one_file P name content w n :
  n <> entry_name name ->
  (lookup_entry n (entries (snd (opfsCreate P name content w)))
     = lookup_entry n (entries w) /\
   lookup_entry n (entries (snd (opfsUpdate P name content w)))
     = lookup_entry n (entries w)) /\
  (names (entries (snd (opfsCreate P name content w))) = names (entries w) \/
   ((entry_name name ∉ names (entries w)) /\
    inserted (entry_name name) (names (entries w))
      (names (entries (snd (opfsCreate P name content w)))))) /\
  names (entries (snd (opfsUpdate P name content w))) = names (entries w).
Proof.
  intros Hne. destruct (write_ops_entries P name content w) as [Hc Hu].
  split; [split; eapply entries_after_lookup; eauto|].
  split.
  - destruct (entries_after_names _ _ _ _ _ _ Hc) as [?|(_ & ? & ?)]; auto.
  - destruct (entries_after_names _ _ _ _ _ _ Hu) as [?|([=] & _)]; auto.
Qed.

(** *** Failures in the write path *)

Lemma acquire_available P name create w :
  storage P = true -> getDirectory_present P = true ->
  fault_getDirectory P = None -> fault_getFileHandle P = None ->
  fault_createSyncAccessHandle P = None ->
  valid_name (entry_name name) = true -> (entry_name name ∉ locks w) ->
  (forall e, lookup_entry (entry_name name) (entries w) <> Some (DirNode e)) ->
  create = true \/ is_Some (lookup_entry (entry_name name) (entries w)) ->
  exists w1, acquire P name create w = (Normal (entry_name name), w1).
Proof.
  intros Hs Hg H1 H2 H3 Hv Hl Hd Hc.
  apply is_locked_false in Hl. unfold is_locked in Hl.
  unfold acquire. unfold_backend. unfold is_locked. cbv zeta.
  revert Hv Hl Hd Hc. generalize (entry_name name) as h. intros h Hv Hl Hd Hc.
  rewrite Hs, Hg, H1, H2, H3, Hv. cbn.
  destruct (lookup_entry h (entries w)) as [[bs|e]|] eqn:He.
  - cbn. rewrite He. cbn. rewrite Hl. eauto.
  - now destruct (Hd e).
  - destruct Hc as [->|[? [=]]]. cbn.
    rewrite lookup_entry_insert_new, decide_True by auto. cbn. rewrite Hl. eauto.
Qed.

Lemma acquire_creates P name w :
  storage P = true -> getDirectory_present P = true ->
  fault_getDirectory P = None -> fault_getFileHandle P = None ->
  valid_name (entry_name name) = true ->
  lookup_entry (entry_name name) (entries w) = None ->
  entries (snd (acquire P name true w))
    = insert_entry (position P (entry_name name) (map fst (entries w)))
        (entry_name name, FileNode []) (entries w).
Proof.
  intros Hs Hg H1 H2 Hv He. unfold acquire. unfold_backend. cbv zeta.
  revert Hv He. generalize (entry_name name) as h. intros h Hv He.
  rewrite Hs, Hg, H1, H2, Hv. cbn. rewrite He. cbn.
  destruct (fault_createSyncAccessHandle P) as [[n msg]|]; [reflexivity|].
  cbn. rewrite lookup_entry_insert_new, decide_True by auto.
  cbn. now destruct (is_locked h (locks w)).
Qed.

(** X3.  [create] is not undone when it fails: once the platform has made
    the file for a new name, a failure of any later step leaves that file in
    the directory, among the others, empty or (when only the flush failed)
    already holding the encoded content. *)
Theorem failed_create_leaves_file P name content w :
  storage P = true -> getDirectory_present P = true ->
  fault_getDirectory P = None -> fault_getFileHandle P = None ->
  valid_name (entry_name name) = true ->
  lookup_entry (entry_name name) (entries w) = None ->
  is_Some (thrown (fst (opfsCreate P name content w))) ->
  inserted (entry_name name) (names (entries w))
    (names (entries (snd (opfsCreate P name content w)))) /\
  (lookup_entry (entry_name name) (entries (snd (opfsCreate P name content w)))
     = Some (FileNode []) \/
   (fault_encode P = None /\ fault_truncate P = None /\ fault_write P = None /\
    lookup_entry (entry_name name) (entries (snd (opfsCreate P name content w)))
      = Some (FileNode (encode content)))).
Proof.
  intros Hs Hg H1 H2 Hv He Hfail.
  pose proof (acquire_creates P name w Hs Hg H1 H2 Hv He) as Hes.
  set (h := entry_name name) in *.
  set (es1 := insert_entry (position P h (map fst (entries w))) (h, FileNode [])
                (entries w)) in *.
  assert (lookup_entry h es1 = Some (FileNode []))
    as Hnew by (unfold es1; rewrite lookup_entry_insert_new, decide_True by auto;
                reflexivity).
  assert (inserted h (names (entries w)) (names es1))
    as Hnames by (eexists; apply names_insert_entry).
  revert Hfail. rewrite opfsCreate_unfold.
  pose proof (acquire_spec P name true w) as Ha.
  destruct (acquire P name true w) as [[h'|e] w1]; cbn [snd] in Hes.
  - destruct Ha as (-> & Hn & Hl & _ & _ & _ & _). fold h in Hn, Hl |- *.
    rewrite (write_block_spec P h content w1 []); [|rewrite Hl; left|now rewrite Hes].
    unfold call_fails.
    destruct (fault_encode P) as [[]|] eqn:Fe; [cbn; rewrite Hes; auto|].
    destruct (fault_truncate P) as [[]|] eqn:Ft; [cbn; rewrite Hes; auto|].
    destruct (fault_write P) as [[]|] eqn:Fw.
    { cbn. rewrite names_update_entry, Hes, lookup_entry_update by (rewrite Hnew; eauto).
      auto. }
    destruct (fault_flush P) as [[]|]; cbn.
    + intros _. rewrite names_update_entry, Hes, lookup_entry_update
        by (rewrite Hnew; eauto). split; [assumption|right; auto].
    + intros [? [=]].
  - cbn. rewrite Hes. auto.
Qed.

(** X4.  What a failed [update] of an existing, unlocked file leaves,
    by the step that throws: the old bytes when the encoding or the truncate
    throws, an empty file when the write throws (the truncate is not undone),
    and the new bytes when only the flush throws.  The call fails with the
    error of that step and the lock is released in every case. *)
Theorem failed_update_effects P name content w old :
  lookup_entry (entry_name name) (entries w) = Some (FileNode old) ->
  (entry_name name ∉ locks w) -> valid_name (entry_name name) = true ->
  let r := opfsUpdate P name content w in
  (forall f t wr fl, healthy_but P (Some f) t wr fl ->
     fst r = Throw (ThrowNative (fst f) (snd f)) /\ locks (snd r) = locks w /\
     lookup_entry (entry_name name) (entries (snd r)) = Some (FileNode old)) /\
  (forall f wr fl, healthy_but P None (Some f) wr fl ->
     fst r = Throw (ThrowNative (fst f) (snd f)) /\ locks (snd r) = locks w /\
     lookup_entry (entry_name name) (entries (snd r)) = Some (FileNode old)) /\
  (forall f fl, healthy_but P None None (Some f) fl ->
     fst r = Throw (ThrowNative (fst f) (snd f)) /\ locks (snd r) = locks w /\
     lookup_entry (entry_name name) (entries (snd r)) = Some (FileNode [])) /\
  (forall f, healthy_but P None None None (Some f) ->
     fst r = Throw (ThrowNative (fst f) (snd f)) /\ locks (snd r) = locks w /\
     lookup_entry (entry_name name) (entries (snd r))
       = Some (FileNode (encode content))).
Proof.
  intros He Hl Hv r. set (h := entry_name name) in *.
  assert (forall e t wr fl, healthy_but P e t wr fl ->
            exists w1, r = write_block P h content w1 /\
                       locks w1 = h :: locks w /\ entries w1 = entries w) as Hacq.
  { intros e t wr fl (Hs & Hg & H1 & H2 & H3 & _).
    destruct (acquire_available P name false w Hs Hg H1 H2 H3 Hv Hl) as [w1 Ha].
    { intros d. fold h. rewrite He. discriminate. }
    { right. fold h. rewrite He. eauto. }
    pose proof (acquire_spec P name false w) as Hsp. rewrite Ha in Hsp.
    destruct Hsp as (_ & _ & Hlk & _ & _ & _ & Hes). fold h in Hes, Hlk.
    rewrite He in Hes.
    exists w1. unfold r. rewrite opfsUpdate_unfold, Ha. auto. }
  assert (forall w1, locks w1 = h :: locks w -> unlock h (locks w1) = locks w)
    as Hunl by (intros w1 ->; now apply unlock_fresh).
  repeat split.
  all: match goal with
       | H : healthy_but _ _ _ _ _ |- _ =>
           destruct (Hacq _ _ _ _ H) as (w1 & -> & Hlk & Hes);
           destruct H as (_ & _ & _ & _ & _ & Fe & Ft & Fw & Ff)
       end.
  all: rewrite (write_block_spec P h content w1 old)
         by (rewrite ?Hlk, ?Hes; auto; left).
  all: unfold call_fails; rewrite ?Fe, ?Ft, ?Fw, ?Ff;
       repeat match goal with f : (ErrName * jsstring)%type |- _ => destruct f end.
  all: cbn; rewrite ?Hunl, ?Hes by assumption; auto.
  all: apply lookup_entry_update; rewrite He; eauto.
Qed.

(** *** Locks, and the operations that only read *)

Lemma write_ops_locks P name content w :
  locks (snd (opfsCreate P name content w)) = locks w /\
  locks (snd (opfsUpdate P name content w)) = locks w.
Proof.
  split.
  - rewrite opfsCreate_unfold.
    pose proof (acquire_spec P name true w) as Ha.
    destruct (acquire P name true w) as [[h|e] w1].
    + destruct Ha as (-> & Hn & Hl & _ & Ht & Hbs & _).
      destruct (write_block_path P name content true w w1 Hn Hl Ht Hbs) as [Hlk _].
      now destruct (write_block P (entry_name name) content w1) as [[[]|e] w2].
    + now destruct Ha as (Hl & _).
  - rewrite opfsUpdate_unfold.
    pose proof (acquire_spec P name false w) as Ha.
    destruct (acquire P name false w) as [[h|e] w1].
    + destruct Ha as (-> & Hn & Hl & _ & Ht & Hbs & _).
      now destruct (write_block_path P name content false w w1 Hn Hl Ht Hbs) as [Hlk _].
    + now destruct Ha as (Hl & _).
Qed.

Lemma opfsRead_unchanged P name w : unchanged w (snd (opfsRead P name w)).
Proof.
  unfold opfsRead, unchanged. unfold_backend. cbv zeta.
  repeat (case_match; simplify_eq/=); split; reflexivity.
Qed.

Lemma opfsList_unchanged P w : unchanged w (snd (opfsList P w)).
Proof.
  unfold opfsList, unchanged. unfold_backend.
  repeat (case_match; simplify_eq/=); split; reflexivity.
Qed.


Lemma opfsDelete_store P name w :
  locks (snd (opfsDelete P name w)) = locks w /\
  (entries (snd (opfsDelete P name w)) = entries w /\
   is_Some (thrown (fst (opfsDelete P name w))) \/
   entries (snd (opfsDelete P name w)) = delete_entry (entry_name name) (entries w) /\
   fst (opfsDelete P name w) = Normal tt /\
   is_Some (lookup_entry (entry_name name) (entries w)) /\
   (entry_name name ∉ locks w)).
Proof.
  unfold opfsDelete. unfold_backend. cbv zeta.
  generalize (entry_name name) as h. intros h.
  repeat (case_match; simplify_eq/=); split; try reflexivity.
  all: try (left; split; [reflexivity|eexists; reflexivity]).
  all: right; repeat split; eauto; now apply is_locked_false.
Qed.

(** X5.  [read] and [list] only read: whatever they return or throw, the
    entries of the directory and the locks are afterwards what they were. *)
Theorem read_and_list_change_nothing P name w :
  unchanged w (snd (opfsRead P name w)) /\ unchanged w (snd (opfsList P w)).
Proof. split; [apply opfsRead_unchanged|apply opfsList_unchanged]. Qed.

Lemma lookup_entry_delete_ne name n es :
  n <> name -> lookup_entry n (delete_entry name es) = lookup_entry n es.
Proof.
  intros Hne. unfold delete_entry. induction es as [|[k v] es IH]; [reflexivity|].
  destruct (decide (k = name)) as [->|Hk].
  - rewrite filter_cons_False by (cbn; intros H; now apply H).
    cbn. now rewrite decide_False by congruence.
  - rewrite filter_cons_True by (cbn; assumption). cbn.
    now rewrite IH.
Qed.

Lemma opfsDelete_available P name w :
  healthy P -> valid_name (entry_name name) = true -> (entry_name name ∉ locks w) ->
  (exists bs, lookup_entry (entry_name name) (entries w) = Some (FileNode bs)) ->
  fst (opfsDelete P name w) = Normal tt.
Proof.
  intros (Hs & Hg & H1 & _ & _ & _ & _ & _ & _ & _ & _ & _ & H2) Hv Hl [bs He].
  apply is_locked_false in Hl.
  unfold opfsDelete. unfold_backend. cbv zeta. rewrite Hs, Hg, H1, H2, Hv. cbn.
  rewrite He. cbn. now rewrite Hl.
Qed.

(** X6.  A [delete] that succeeds removes the entry the name designates,
    which existed and was not locked, and nothing else: that entry no longer
    looks up, every other name looks up as before, and the locks are as they
    were.  It does succeed on an unlocked file when the platform fails no
    call. *)
Theorem delete_removes_one_entry P name w :
  (fst (opfsDelete P name w) = Normal tt ->
   is_Some (lookup_entry (entry_name name) (entries w)) /\
   (entry_name name ∉ locks w) /\
   entries (snd (opfsDelete P name w)) = delete_entry (entry_name name) (entries w) /\
   lookup_entry (entry_name name) (entries (snd (opfsDelete P name w))) = None /\
   (forall n, n <> entry_name name ->
      lookup_entry n (entries (snd (opfsDelete P name w)))
        = lookup_entry n (entries w)) /\
   locks (snd (opfsDelete P name w)) = locks w) /\
  (healthy P -> valid_name (entry_name name) = true -> (entry_name name ∉ locks w) ->
   (exists bs, lookup_entry (entry_name name) (entries w) = Some (FileNode bs)) ->
   fst (opfsDelete P name w) = Normal tt).
Proof.
  split; [|apply opfsDelete_available].
  intros Hok. destruct (opfsDelete_store P name w) as [Hl [[_ [e He]]|(Hes & _ & Hin & Hn)]].
  { rewrite Hok in He. discriminate. }
  rewrite Hes. repeat split; auto using lookup_entry_delete.
  intros n Hne. now apply lookup_entry_delete_ne.
Qed.

(** *** A sequence of operations *)

Lemma opfsUpdate_normal P name content w w' :
  opfsUpdate P name content w = (Normal tt, w') ->
  lookup_entry (entry_name name) (entries w') = Some (FileNode (encode content)).
Proof.
  rewrite opfsUpdate_unfold.
  pose proof (acquire_spec P name false w) as Ha.
  destruct (acquire P name false w) as [[h|e] w0]; [|discriminate].
  destruct Ha as (-> & Hn & Hl & Hv & Ht & Hbs & _).
  pose proof (write_block_path P name content false w w0 Hn Hl Ht Hbs) as Hw.
  intros Heq. rewrite Heq in Hw. cbn in Hw.
  destruct Hw as [_ [[[? [=]] _]|(k & _ & _ & Hk)]].
  now destruct (Hk eq_refl).
Qed.

(** X7.  On a platform that fails no call, [create(name, a)], then
    [update(name, b)], then [read(name)] all succeed for a valid name that
    is neither locked nor a directory; the file then holds exactly the
    encoding of [b], nothing of [a] whatever their lengths, the read returns
    [b] (as a well-formed string without leading U+FEFF), and no lock is
    left. *)
Theorem create_update_read P1 P2 P3 name a b w :
  healthy P1 -> healthy P2 -> healthy P3 ->
  valid_name (entry_name name) = true -> (entry_name name ∉ locks w) ->
  (forall e, lookup_entry (entry_name name) (entries w) <> Some (DirNode e)) ->
  code_units b ->
  let w1 := snd (opfsCreate P1 name a w) in
  let w2 := snd (opfsUpdate P2 name b w1) in
  fst (opfsCreate P1 name a w) = Normal name /\
  fst (opfsUpdate P2 name b w1) = Normal tt /\
  lookup_entry (entry_name name) (entries w2) = Some (FileNode (encode b)) /\
  fst (opfsRead P3 name w2) = Normal (drop_bom (toWellFormed b)) /\
  locks w2 = locks w.
Proof.
  intros Hh1 Hh2 Hh3 Hv Hl Hd Hu w1 w2.
  pose proof (opfsCreate_healthy P1 name a w Hh1 Hv Hl Hd) as Hc.
  assert (opfsCreate P1 name a w = (Normal name, w1)) as Hc'
    by (unfold w1; destruct (opfsCreate P1 name a w); cbn in *; congruence).
  destruct (opfsCreate_normal _ _ _ _ _ _ Hc') as (_ & _ & Hl1).
  assert (locks w1 = locks w) as Hlk1 by apply write_ops_locks.
  pose proof (opfsUpdate_healthy P2 name b w1 (encode a) Hh2 Hv) as Hup.
  rewrite Hlk1 in Hup. specialize (Hup Hl Hl1).
  assert (opfsUpdate P2 name b w1 = (Normal tt, w2)) as Hup'
    by (unfold w2; destruct (opfsUpdate P2 name b w1); cbn in *; congruence).
  pose proof (opfsUpdate_normal _ _ _ _ _ Hup') as Hl2.
  repeat split; auto.
  - rewrite (opfsRead_file P3 name w2 (encode b)) by assumption.
    cbn. f_equal. now apply decode_encode_any.
  - unfold w2. rewrite (proj2 (write_ops_locks P2 name b w1)). exact Hlk1.
Qed.

(** *** Listing after a change *)

Lemma visible_elem name es :
  name ∈ visible es <->
  exists node, (name, node) ∈ es /\ kind_of node = KFile /\
               startsWith_dot name = false.
Proof.
  unfold visible. rewrite list_elem_of_fmap. split.
  - intros ([n node] & -> & Hin). apply list_elem_of_filter in Hin as [[Hk Hd] Hin].
    exists node. auto.
  - intros (node & Hin & Hk & Hd). exists (name, node). split; [reflexivity|].
    apply list_elem_of_filter. auto.
Qed.

Lemma lookup_entry_elem name node es :
  lookup_entry name es = Some node -> (name, node) ∈ es.
Proof.
  induction es as [|[k v] es IH]; cbn; [discriminate|].
  destruct (decide (k = name)) as [->|Hne].
  - intros [= ->]. left.
  - intros H. right. auto.
Qed.

Lemma update_entry_elem h x n node es :
  n <> h -> (n, node) ∈ update_entry h x es <-> (n, node) ∈ es.
Proof.
  intros Hne. induction es as [|[k v] es IH]; cbn; [reflexivity|].
  destruct (decide (k = h)) as [->|Hk].
  - rewrite !elem_of_cons. split; intros [[=]|?]; auto; congruence.
  - rewrite !elem_of_cons, IH. reflexivity.
Qed.

Lemma insert_entry_perm k e es : insert_entry k e es ≡ₚ e :: es.
Proof.
  unfold insert_entry. rewrite <- (take_drop k es) at 3.
  symmetry. apply Permutation_middle.
Qed.

Lemma entries_after_elem P create name content es es' n node :
  entries_after P create name content es es' -> n <> entry_name name ->
  (n, node) ∈ es' <-> (n, node) ∈ es.
Proof.
  intros (es1 & H1 & H2) Hne.
  assert ((n, node) ∈ es1 <-> (n, node) ∈ es) as He1.
  { destruct H1 as [->|(_ & _ & ->)]; [reflexivity|].
    rewrite insert_entry_perm, elem_of_cons. split; [|auto].
    intros [[=]|?]; [congruence|assumption]. }
  destruct H2 as [->|(_ & [->| ->])]; [assumption| |];
    now rewrite update_entry_elem.
Qed.

Lemma listed P w l n :
  healthy P -> fst (opfsList P w) = Normal l -> n ∈ l <-> n ∈ visible (entries w).
Proof.
  intros Hh. rewrite opfsList_healthy by assumption. cbn. intros [= <-].
  now rewrite sort_perm.
Qed.

Lemma list_after_create P P' name content w r w1 :
  opfsCreate P name content w = (Normal r, w1) -> healthy P' ->
  exists l,
    fst (opfsList P' w1) = Normal l /\
    (entry_name name ∈ l <-> startsWith_dot (entry_name name) = false) /\
    (forall n, n <> entry_name name -> n ∈ l <-> n ∈ visible (entries w)).
Proof.
  intros Hc Hh.
  destruct (opfsCreate_normal _ _ _ _ _ _ Hc) as (_ & _ & Hl).
  pose proof (proj1 (write_ops_entries P name content w)) as Hes.
  rewrite Hc in Hes. cbn [snd] in Hes.
  exists (sort (localeCompare P') (visible (entries w1))).
  split; [now rewrite opfsList_healthy|]. split.
  - rewrite sort_perm, visible_elem. split.
    + now intros (node & _ & _ & Hd).
    + intros Hd. exists (FileNode (encode content)).
      split; [now apply lookup_entry_elem|auto].
  - intros n Hne. rewrite sort_perm, !visible_elem.
    pose proof (fun node => entries_after_elem _ _ _ _ _ _ n node Hes Hne) as Hel.
    split; intros (node & Hin & Hk); exists node; (split; [|exact Hk]);
      now apply Hel.
Qed.

(** X8.  After a successful [create], a [list] that the platform does not
    fail contains the name of the entry (the name given, as the platform
    reads it) exactly when it does not start with a dot: a hidden name is
    stored and readable, yet never listed.  It contains any other name
    exactly when that was a visible file before. *)
Theorem created_file_is_listed P P' name content w r w1 :
  opfsCreate P name content w = (Normal r, w1) -> healthy P' ->
  exists l,
    fst (opfsList P' w1) = Normal l /\
    (entry_name name ∈ l <-> startsWith_dot (entry_name name) = false) /\
    (forall n, n <> entry_name name -> n ∈ l <-> n ∈ visible (entries w)).
Proof. apply list_after_create. Qed.

(** X9.  After a successful [delete], a [list] that the platform does not
    fail no longer contains the name of the entry, and contains any other
    name exactly when that was a visible file before. *)
Theorem deleted_file_is_not_listed P P' name w :
  fst (opfsDelete P name w) = Normal tt -> healthy P' ->
  exists l,
    fst (opfsList P' (snd (opfsDelete P name w))) = Normal l /\
    (entry_name name ∉ l) /\
    (forall n, n <> entry_name name -> n ∈ l <-> n ∈ visible (entries w)).
Proof.
  intros Hok Hh.
  destruct (opfsDelete_store P name w) as [_ [[_ [e He]]|(Hes & _)]].
  { rewrite Hok in He. discriminate. }
  exists (sort (localeCompare P') (visible (entries (snd (opfsDelete P name w))))).
  split; [now rewrite opfsList_healthy|]. rewrite Hes. split.
  - rewrite sort_perm, visible_elem. intros (node & Hin & _).
    unfold delete_entry in Hin. apply list_elem_of_filter in Hin as [Hne _].
    now apply Hne.
  - intros n Hne. rewrite sort_perm, !visible_elem. unfold delete_entry.
    split; intros (node & Hin & Hk); exists node; split; auto.
    + now apply list_elem_of_filter in Hin as [_ Hin].
    + apply list_elem_of_filter. auto.
Qed.

(** *** The dispatcher on a queue of envelopes *)










(** *** Instances *)

(** A lone surrogate written and read back. *)
Lemma read_after_create_any_content_witness :
  code_units [0xD800] /\
  fst (opfsRead sample_platform (js "a.txt")
         (snd (opfsCreate sample_platform (js "a.txt") [0xD800] empty_world)))
    = Normal [0xFFFD].
Proof.
  assert (code_units [0xD800]) as Hu by (repeat constructor; lia).
  split; [exact Hu|].
  exact (read_after_create_any_content sample_platform sample_platform (js "a.txt")
           [0xD800] empty_world (js "a.txt")
           (snd (opfsCreate sample_platform (js "a.txt") [0xD800] empty_world))
           Hu eq_refl sample_healthy).
Defined.

(** Creating "b.txt" beside "a.txt". *)
Lemma write_touches_one_file_witness :
  lookup_entry (js "a.txt")
    (entries (snd (opfsCreate sample_platform (js "b.txt") (js "x") one_file_world)))
  = Some (FileNode [0x68]).
Proof.
  assert (js "a.txt" <> entry_name (js "b.txt")) as Hne by discriminate.
  rewrite (proj1 (proj1 (write_touches_one_file sample_platform (js "b.txt") (js "x")
                           one_file_world (js "a.txt") Hne))).
  reflexivity.
Defined.

(** A create whose write fails leaves the new file, empty. *)
Lemma failed_create_leaves_file_witness :
  is_Some (thrown (fst (opfsCreate write_fails (js "a.txt") (js "x") empty_world))) /\
  names (entries (snd (opfsCreate write_fails (js "a.txt") (js "x") empty_world)))
    = [js "a.txt"].
Proof.
  assert (is_Some (thrown (fst (opfsCreate write_fails (js "a.txt") (js "x") empty_world))))
    as Hf by (vm_compute; eauto).
  split; [exact Hf|].
  destruct (failed_create_leaves_file write_fails (js "a.txt") (js "x") empty_world
              eq_refl eq_refl eq_refl eq_refl eq_refl eq_refl Hf) as [[k Hk] _].
  rewrite Hk. cbn. now destruct k.
Defined.

(** An update whose write fails leaves the file empty. *)
Lemma failed_update_effects_witness :
  lookup_entry (js "a.txt")
    (entries (snd (opfsUpdate write_fails (js "a.txt") (js "x") one_file_world)))
  = Some (FileNode []).
Proof.
  assert (entry_name (js "a.txt") ∉ locks one_file_world) as Hl
    by (intros Hin; now apply elem_of_nil in Hin).
  pose proof (failed_update_effects write_fails (js "a.txt") (js "x") one_file_world
                [0x68] eq_refl Hl eq_refl) as H.
  cbv zeta in H. destruct H as (_ & _ & H & _).
  apply (H (QuotaExceededError, js "The quota has been exceeded.") None).
  repeat split.
Defined.

(** Create, update, read on the sample platform. *)
Lemma create_update_read_witness :
  fst (opfsRead sample_platform (js "a.txt")
         (snd (opfsUpdate sample_platform (js "a.txt") (js "B")
                 (snd (opfsCreate sample_platform (js "a.txt") (js "AAA") empty_world)))))
    = Normal (js "B").
Proof.
  assert (entry_name (js "a.txt") ∉ locks empty_world) as Hl
    by (intros Hin; now apply elem_of_nil in Hin).
  assert (code_units (js "B")) as Hu by (repeat constructor; lia).
  pose proof (create_update_read sample_platform sample_platform sample_platform
                (js "a.txt") (js "AAA") (js "B") empty_world
                sample_healthy sample_healthy sample_healthy eq_refl Hl
                ltac:(intros e; discriminate) Hu) as H.
  cbv zeta in H. exact (proj1 (proj2 (proj2 (proj2 H)))).
Defined.

(** A hidden file is created and not listed. *)
Lemma created_file_is_listed_witness :
  exists l,
    fst (opfsList sample_platform
           (snd (opfsCreate sample_platform (js ".hidden") (js "x") one_file_world)))
      = Normal l /\
    (js ".hidden" ∉ l) /\ js "a.txt" ∈ l.
Proof.
  destruct (created_file_is_listed sample_platform sample_platform (js ".hidden") (js "x")
              one_file_world (js ".hidden")
              (snd (opfsCreate sample_platform (js ".hidden") (js "x") one_file_world))
              eq_refl sample_healthy) as (l & Hl & Hnew & Hold).
  exists l. split; [exact Hl|]. split.
  - intros Hin. apply Hnew in Hin. discriminate.
  - apply (Hold (js "a.txt")); [discriminate|]. vm_compute. left.
Defined.

(** The one file deleted: the listing is empty of it. *)
Lemma deleted_file_is_not_listed_witness :
  exists l,
    fst (opfsList sample_platform
           (snd (opfsDelete sample_platform (js "a.txt") one_file_world))) = Normal l /\
    (js "a.txt" ∉ l).
Proof.
  destruct (deleted_file_is_not_listed sample_platform sample_platform (js "a.txt")
              one_file_world eq_refl sample_healthy) as (l & Hl & Hn & _).
  exists l. split; [exact Hl|exact Hn].
Defined.


End WorkerExtras.

(* ================================================================== *)
(** ** Further properties of the bridge *)
(* ================================================================== *)

Module BridgeExtras.
Import OPFS BridgeSpec BridgeFacts ExtraSpec.

(** *** One worker for all calls *)

Lemma call_on_live_worker u proc s w o :
  worker s = Some w -> workers s !! w = Some o ->
  let s1 := snd (OPFSFileSystem u proc s) in
  worker s1 = Some w /\
  workers s1 !! w = Some (post (request_of u proc) o) /\
  length (workers s1) = length (workers s) /\
  forall w', w' <> w -> workers s1 !! w' = workers s !! w'.
Proof.
  intros Hw Ho. unfold OPFSFileSystem. rewrite send_spec. cbn. rewrite Hw. cbn.
  split; [reflexivity|]. split; [now rewrite list_lookup_alter_eq, Ho|].
  split; [apply length_alter|]. intros w' Hne. now apply list_lookup_alter_ne.
Qed.

Lemma calls_on_live_worker calls :
  forall s w o, worker s = Some w -> workers s !! w = Some o ->
  let s1 := run s (issue calls) in
  worker s1 = Some w /\
  (exists o1, workers s1 !! w = Some o1 /\
              inbox o1 = inbox o ++ requests calls /\
              onerror_set o1 = onerror_set o /\ onmessage_set o1 = onmessage_set o) /\
  length (workers s1) = length (workers s) /\
  forall w', w' <> w -> workers s1 !! w' = workers s !! w'.
Proof.
  induction calls as [|[u proc] calls IH]; intros s w o Hw Ho.
  - cbn. split; [assumption|]. split; [|auto].
    exists o. now rewrite app_nil_r.
  - cbn [issue map run foldl fst snd]. fold (issue calls).
    fold (run (step s (ECall u proc)) (issue calls)). cbn [step].
    destruct (call_on_live_worker u proc s w o Hw Ho) as (Hw1 & Ho1 & Hlen & Hoth).
    destruct (IH _ w _ Hw1 Ho1) as (Hw2 & (o2 & Ho2 & Hin & He & Hm) & Hlen2 & Hoth2).
    split; [assumption|]. split.
    + exists o2. split; [assumption|]. cbn in Hin, He, Hm.
      rewrite Hin, <- app_assoc. auto.
    + split; [congruence|]. intros w' Hne. rewrite Hoth2, Hoth; auto.
Qed.

(** X12.  The worker is a singleton: calls issued in a row, after any
    history, all go to one worker, the one in the slot if there is one and
    else a single new one; its inbox grows by exactly their envelopes, in the
    order of the calls, and no other worker object is created or touched. *)
Theorem calls_share_one_worker es s u proc calls :
  s = run initial es ->
  let s1 := run s (issue ((u, proc) :: calls)) in
  let w := default (length (workers s)) (worker s) in
  worker s1 = Some w /\
  (exists o1, workers s1 !! w = Some o1 /\
     inbox o1 = default [] (inbox <$> workers s !! w)
                  ++ requests ((u, proc) :: calls) /\
     onerror_set o1 = true /\ onmessage_set o1 = true) /\
  length (workers s1)
    = match worker s with
      | Some _ => length (workers s)
      | None => S (length (workers s))
      end /\
  forall w', w' <> w -> workers s1 !! w' = workers s !! w'.
Proof.
  intros -> s1 w. set (s := run initial es) in *.
  assert (bridge_inv s) as Hs by apply inv_run, inv_initial.
  unfold s1. cbn [issue map run foldl fst snd]. fold (issue calls).
  fold (run (step s (ECall u proc)) (issue calls)). cbn [step].
  destruct (worker s) as [w0|] eqn:Hslot.
  - destruct (inv_slot s Hs w0 Hslot) as [o Ho].
    destruct (inv_handlers s Hs w0 o Ho) as [He Hm].
    destruct (call_on_live_worker u proc s w0 o Hslot Ho) as (Hw1 & Ho1 & Hlen & Hoth).
    destruct (calls_on_live_worker calls _ w0 _ Hw1 Ho1)
      as (Hw2 & (o2 & Ho2 & Hin & He2 & Hm2) & Hlen2 & Hoth2).
    cbn in w. subst w. split; [assumption|]. split.
    + exists o2. rewrite Ho. cbn in *. rewrite Hin, <- app_assoc.
      repeat split; auto; congruence.
    + split; [congruence|]. intros w' Hne. rewrite Hoth2, Hoth; auto.
  - cbn in w. subst w.
    assert (worker (snd (OPFSFileSystem u proc s)) = Some (length (workers s)) /\
            workers (snd (OPFSFileSystem u proc s))
              = workers s ++ [post (request_of u proc) fresh_worker]) as [Hw1 Hws].
    { unfold OPFSFileSystem. rewrite send_spec. cbn. now rewrite Hslot. }
    assert (workers (snd (OPFSFileSystem u proc s)) !! length (workers s)
            = Some (post (request_of u proc) fresh_worker)) as Ho1.
    { rewrite Hws. now rewrite lookup_app_r, Nat.sub_diag by lia. }
    destruct (calls_on_live_worker calls _ _ _ Hw1 Ho1)
      as (Hw2 & (o2 & Ho2 & Hin & He2 & Hm2) & Hlen2 & Hoth2).
    split; [assumption|]. split.
    + exists o2. rewrite (lookup_ge_None_2 (workers s)) by lia. cbn in *.
      rewrite Hin. repeat split; auto.
    + split; [rewrite Hlen2, Hws, length_app; cbn; lia|].
      intros w' Hne. rewrite Hoth2 by assumption. rewrite Hws.
      destruct (decide (w' < length (workers s))%nat).
      * now rewrite lookup_app_l.
      * rewrite lookup_ge_None_2 by (rewrite length_app; cbn; lia).
        symmetry. apply lookup_ge_None_2. lia.
Qed.

(** *** An error event of a worker that is not the current one *)

(** X13.  The error handler does not look at which worker failed: an
    [error] event of any worker object other than the current one still
    empties the slot, so the next call abandons the current worker, which
    did not fail, for a new one.  The abandoned worker keeps its handlers:
    its answers still settle the calls registered before. *)
Theorem stale_error_discards_live_worker es s w0 w1 u proc :
  s = run initial es ->
  worker s = Some w1 -> w0 <> w1 -> is_Some (workers s !! w0) ->
  let s1 := step s (EError w0) in
  let s2 := snd (OPFSFileSystem u proc s1) in
  worker s1 = None /\
  worker s2 = Some (length (workers s)) /\ length (workers s) <> w1 /\
  workers s2 !! w1 = workers s !! w1 /\
  forall id p data,
    pending s !! id = Some p -> id <> u -> response_id data = id ->
    settlements p (step s2 (EMessage w1 data)) = [settlement_of data].
Proof.
  intros -> Hw1 Hne Hw0 s1 s2. set (s := run initial es) in *.
  assert (bridge_inv s) as Hs by apply inv_run, inv_initial.
  assert (s1 = set_worker None s) as H1 by now apply error_step.
  assert (bridge_inv s1) as Hs1 by now apply inv_step.
  assert (bridge_inv s2) as Hs2 by now apply inv_call.
  destruct (inv_slot s Hs w1 Hw1) as [o1 Ho1].
  pose proof (lookup_lt_Some _ _ _ Ho1) as Hlt.
  assert (workers s2 = workers s
            ++ [post (request_of u proc) fresh_worker] /\
          worker s2 = Some (length (workers s)) /\
          pending s2 = <[u := length (promises s)]> (pending s)) as (Hws & Hslot & Hpe).
  { unfold s2, OPFSFileSystem. rewrite send_spec, H1. cbn.
    now rewrite correlationId_request_of. }
  split; [now rewrite H1|]. split; [assumption|]. split; [lia|].
  split; [rewrite Hws; now apply lookup_app_l|].
  intros id p data Hp Hid Hrid. apply message_settles; auto.
  - rewrite Hws, lookup_app_l by assumption. eauto.
  - rewrite Hrid, Hpe. now rewrite lookup_insert_ne by congruence.
Qed.

(** *** Two calls with one id *)

(** X14.  The registry holds one entry per id.  When [crypto.randomUUID]
    returns for a second call the id of a call still outstanding, the second
    registration replaces the first: the promise of the first call is never
    settled whatever happens afterwards, and an envelope with that id, also
    the answer to the first request, settles the promise of the second
    call. *)
Theorem colliding_ids_cross_talk es s u proc1 proc2 :
  s = run initial es ->
  let p1 := fst (OPFSFileSystem u proc1 s) in
  let s1 := snd (OPFSFileSystem u proc1 s) in
  let p2 := fst (OPFSFileSystem u proc2 s1) in
  let s2 := snd (OPFSFileSystem u proc2 s1) in
  p1 <> p2 /\ pending s1 !! u = Some p1 /\ pending s2 !! u = Some p2 /\
  (forall es', settlements p1 (run s2 es') = []) /\
  (forall w data, is_Some (workers s2 !! w) -> response_id data = u ->
     settlements p2 (step s2 (EMessage w data)) = [settlement_of data]).
Proof.
  intros -> p1 s1 p2 s2. set (s := run initial es) in *.
  assert (bridge_inv s) as Hs by apply inv_run, inv_initial.
  assert (bridge_inv s1) as Hs1 by now apply inv_call.
  assert (bridge_inv s2) as Hs2 by now apply inv_call.
  destruct (call_fields u proc1 s) as (Hp1 & Hpr1 & Hpe1).
  destruct (call_fields u proc2 s1) as (Hp2 & Hpr2 & Hpe2).
  fold p1 in Hp1. fold s1 in Hpr1, Hpe1, Hp2, Hpr2, Hpe2. fold p2 in Hp2.
  fold s2 in Hpr2, Hpe2.
  assert (p2 = S p1) as Hp21 by (rewrite Hp2, Hpr1, length_app, Hp1; cbn; lia).
  assert (pending s2 !! u = Some p2) as Hu2
    by (rewrite Hpe2, Hp2; apply lookup_insert_eq).
  split; [lia|]. split; [rewrite Hpe1, Hp1; apply lookup_insert_eq|].
  split; [assumption|]. split.
  - intros es'. rewrite settled_is_stable; auto.
    + apply settlements_lookup. rewrite Hpr2, Hpr1, Hp1.
      rewrite lookup_app_l by (rewrite length_app; cbn; lia).
      now rewrite lookup_app_r, Nat.sub_diag by lia.
    + rewrite Hpr2, Hpr1, !length_app. cbn. lia.
    + intros id Hid. destruct (decide (id = u)) as [->|Hne].
      * rewrite Hu2 in Hid. injection Hid. lia.
      * rewrite Hpe2, lookup_insert_ne, Hpe1, lookup_insert_ne in Hid by congruence.
        pose proof (inv_unsettled s Hs _ _ Hid) as Hlk.
        apply lookup_lt_Some in Hlk. lia.
  - intros w data Hw Hid. apply message_settles; auto. now rewrite Hid.
Qed.

(** *** Answers in any order *)

Lemma answered_comm id1 id2 l :
  id1 <> id2 -> answered id2 (answered id1 l) = answered id1 (answered id2 l).
Proof.
  intros Hne. induction l as [|r l IH]; [reflexivity|]. cbn.
  destruct (decide (correlationId r = id1)) as [H1|H1];
    destruct (decide (correlationId r = id2)) as [H2|H2]; cbn.
  - congruence.
  - now rewrite decide_True by assumption.
  - now rewrite decide_True by assumption.
  - rewrite !decide_False by assumption. now rewrite IH.
Qed.

Lemma answer_comm id1 id2 w1 w2 (ws : list WorkerObj) :
  id1 <> id2 ->
  alter (answer id2) w2 (alter (answer id1) w1 ws)
    = alter (answer id1) w1 (alter (answer id2) w2 ws).
Proof.
  intros Hne. destruct (decide (w1 = w2)) as [->|Hw].
  - rewrite !list_alter_alter_eq. apply list_alter_ext; [|reflexivity].
    intros o _. unfold answer. cbn. f_equal. now apply answered_comm.
  - now apply list_alter_alter_ne.
Qed.

Lemma deliver_handled s w data :
  bridge_inv s ->
  deliver w data s =
    match workers s !! w with
    | Some _ =>
        {| worker := worker s;
           workers := alter (answer (response_id data)) w (workers s);
           pending := pending (onmessage data s);
           promises := promises (onmessage data s) |}
    | None => s
    end.
Proof.
  intros Hs. rewrite deliver_spec. destruct (workers s !! w) as [o|] eqn:Ho; [|reflexivity].
  cbn zeta. destruct (inv_handlers s Hs w o Ho) as [_ ->].
  rewrite !onmessage_spec. cbn [pending set_workers].
  now destruct (pending s !! response_id data).
Qed.

(** X15.  Answers to different calls can be delivered in either order: for
    two envelopes with different ids, the [message] event of the one followed
    by that of the other leaves the bridge, its registry, its promises and
    the envelopes in flight, in the same state as the opposite order. *)
Theorem answers_commute es s w1 d1 w2 d2 :
  s = run initial es -> response_id d1 <> response_id d2 ->
  run s [EMessage w1 d1; EMessage w2 d2] = run s [EMessage w2 d2; EMessage w1 d1].
Proof.
  intros -> Hne. set (s := run initial es).
  assert (bridge_inv s) as Hs by apply inv_run, inv_initial.
  assert (onmessage d2 (onmessage d1 s) = onmessage d1 (onmessage d2 s)) as Hcomm.
  { rewrite (onmessage_spec d2 s), (onmessage_spec d1 s).
    destruct (pending s !! response_id d1) as [p1|] eqn:H1;
      destruct (pending s !! response_id d2) as [p2|] eqn:H2.
    - rewrite !onmessage_spec. cbn [pending].
      rewrite !lookup_delete_ne, H1, H2 by congruence. cbn.
      assert (p1 <> p2) as Hp.
      { intros ->. apply Hne. exact (inv_injective s Hs _ _ _ H1 H2). }
      f_equal; [apply delete_delete|now apply list_alter_alter_ne].
    - rewrite !onmessage_spec. cbn [pending].
      now rewrite lookup_delete_ne, H1, H2 by congruence.
    - rewrite !onmessage_spec. cbn [pending].
      now rewrite lookup_delete_ne, H1, H2 by congruence.
    - rewrite !onmessage_spec. now rewrite H1, H2. }
  cbn [run foldl step].
  assert (bridge_inv (deliver w1 d1 s)) as Hs1 by exact (inv_step s (EMessage w1 d1) Hs).
  assert (bridge_inv (deliver w2 d2 s)) as Hs2 by exact (inv_step s (EMessage w2 d2) Hs).
  rewrite (deliver_handled _ w2 d2 Hs1), (deliver_handled _ w1 d1 Hs2).
  rewrite (deliver_handled s w1 d1 Hs), (deliver_handled s w2 d2 Hs).
  assert (forall d (t t' : Bridge),
            pending t' = pending t -> promises t' = promises t ->
            pending (onmessage d t') = pending (onmessage d t) /\
            promises (onmessage d t') = promises (onmessage d t)) as Hsame.
  { intros d t t' Hp Hq. rewrite !onmessage_spec, Hp.
    destruct (pending t !! response_id d); cbn; rewrite ?Hp, ?Hq; auto. }
  destruct (workers s !! w1) as [o1|] eqn:Ho1;
    destruct (workers s !! w2) as [o2|] eqn:Ho2; cbn [workers].
  - assert (is_Some (alter (answer (response_id d1)) w1 (workers s) !! w2)) as [x ->].
    { apply lookup_lt_is_Some. rewrite length_alter. eapply lookup_lt_Some; eauto. }
    assert (is_Some (alter (answer (response_id d2)) w2 (workers s) !! w1)) as [y ->].
    { apply lookup_lt_is_Some. rewrite length_alter. eapply lookup_lt_Some; eauto. }
    cbn [worker workers].
    destruct (Hsame d2 (onmessage d1 s)
                {| worker := worker s;
                   workers := alter (answer (response_id d1)) w1 (workers s);
                   pending := pending (onmessage d1 s);
                   promises := promises (onmessage d1 s) |} eq_refl eq_refl) as [-> ->].
    destruct (Hsame d1 (onmessage d2 s)
                {| worker := worker s;
                   workers := alter (answer (response_id d2)) w2 (workers s);
                   pending := pending (onmessage d2 s);
                   promises := promises (onmessage d2 s) |} eq_refl eq_refl) as [-> ->].
    rewrite Hcomm. f_equal. now apply answer_comm.
  - assert (alter (answer (response_id d1)) w1 (workers s) !! w2 = None) as ->.
    { apply lookup_ge_None. rewrite length_alter. now apply lookup_ge_None. }
    rewrite ?Ho1, ?Ho2. reflexivity.
  - assert (alter (answer (response_id d2)) w2 (workers s) !! w1 = None) as ->.
    { apply lookup_ge_None. rewrite length_alter. now apply lookup_ge_None. }
    rewrite ?Ho1, ?Ho2. reflexivity.
  - now rewrite ?Ho1, ?Ho2.
Qed.

(** *** The registry and the envelopes in flight *)

Lemma registry_step s e :
  bridge_inv s -> flight_inv s -> admissible s e ->
  (forall id, is_Some (pending s !! id) -> id ∈ map correlationId (in_flight s)) ->
  forall id, is_Some (pending (step s e) !! id) ->
             id ∈ map correlationId (in_flight (step s e)).
Proof.
  intros Hs [F1 F2] Ha HK id. destruct e as [u proc|w data|w]; cbn [step].
  - unfold OPFSFileSystem.
    destruct (send_states (request_of u proc) s Hs)
      as (w & p & s1 & s2 & s3 & s4 & _ & -> & _ & _ & [Hp3 Hf3] & Hp4 & _ & Hperm).
    cbn [snd]. rewrite correlationId_request_of in Hp3.
    rewrite Hp4, Hp3, Hperm. cbn. rewrite correlationId_request_of.
    intros Hid. destruct (decide (u = id)) as [->|Hne]; [left|right].
    rewrite lookup_insert_ne in Hid by assumption. auto.
  - rewrite deliver_spec. destruct (workers s !! w) as [o|] eqn:Ho.
    2: { destruct Ha as (o & req & Ho' & _). congruence. }
    cbn zeta. destruct (in_flight_answer w data s Ha) as (req & Hid & Hperm).
    set (s1 := set_workers _ s) in *.
    destruct (inv_handlers s Hs w o Ho) as [_ ->].
    rewrite onmessage_spec. cbn [pending s1 set_workers].
    assert (is_Some (pending s !! response_id data)) as [p Hp].
    { rewrite <- Hid. apply F1. rewrite Hperm. left. }
    rewrite Hp. cbn. intros Hin.
    apply lookup_delete_is_Some in Hin as [Hne Hin].
    apply HK in Hin. rewrite Hperm in Hin. cbn in Hin.
    apply elem_of_cons in Hin as [->|Hin]; [congruence|assumption].
  - destruct (workers s !! w) as [o|]; [|apply HK].
    destruct (onerror_set o); apply HK.
Qed.

Lemma registry_run es s :
  bridge_inv s -> flight_inv s -> admissible_run s es ->
  (forall id, is_Some (pending s !! id) -> id ∈ map correlationId (in_flight s)) ->
  forall id, is_Some (pending (run s es) !! id) ->
             id ∈ map correlationId (in_flight (run s es)).
Proof.
  revert s. induction es as [|e es IH]; intros s Hs Hf Ha HK; [assumption|].
  destruct Ha as [Ha Hrest]. cbn [run foldl]. fold (run (step s e) es).
  apply IH; auto using inv_step, flight_step, registry_step.
Qed.

(** X16.  The registry holds exactly the calls whose envelope is in
    flight, when ids are fresh and workers answer the envelopes they were
    sent: after any such sequence of events an id is registered if and only
    if an envelope with it has been posted and not answered, so there are as
    many entries as unanswered envelopes and the registry is empty once
    every envelope is answered. *)
Theorem registry_is_in_flight es :
  admissible_run initial es ->
  let s := run initial es in
  (forall id, is_Some (pending s !! id) <-> id ∈ map correlationId (in_flight s)) /\
  size (pending s) = length (in_flight s) /\
  (in_flight s = [] -> pending s = ∅).
Proof.
  intros Ha s.
  assert (flight_inv s) as [F1 F2]
    by (apply flight_run; auto using inv_initial, flight_initial).
  assert (forall id, is_Some (pending s !! id) <-> id ∈ map correlationId (in_flight s))
    as Hiff.
  { intros id. split.
    - apply registry_run; auto using inv_initial, flight_initial.
      cbn. intros id' [? Hx]. now rewrite lookup_empty in Hx.
    - intros Hin. apply list_elem_of_fmap in Hin as (req & -> & Hin). auto. }
  split; [exact Hiff|]. split.
  - rewrite <- size_dom, <- (length_map correlationId).
    rewrite <- (size_list_to_set (C := gset jsstring)) by assumption.
    f_equal. apply set_eq. intros id.
    rewrite elem_of_dom, elem_of_list_to_set. apply Hiff.
  - intros Hnil. apply map_empty. intros id.
    destruct (pending s !! id) eqn:Hid; [|reflexivity].
    assert (id ∈ map correlationId (in_flight s)) as Hin by (apply Hiff; eauto).
    rewrite Hnil in Hin. now apply elem_of_nil in Hin.
Qed.

(** *** Instances *)

(** Three calls from the start: one worker, with their three envelopes. *)
Lemma calls_share_one_worker_witness :
  worker (run initial (issue [(js "A", Init); (js "B", List_); (js "C", Read (js "a.txt"))]))
    = Some 0%nat /\
  length (workers (run initial (issue [(js "A", Init); (js "B", List_);
                                       (js "C", Read (js "a.txt"))]))) = 1%nat.
Proof.
  pose proof (calls_share_one_worker [] initial (js "A") Init
                [(js "B", List_); (js "C", Read (js "a.txt"))] eq_refl) as H.
  cbv zeta in H. destruct H as (Hw & _ & Hlen & _). split; [exact Hw|exact Hlen].
Defined.

(** Worker 0 is abandoned after an error, worker 1 is current; a second
    error event of worker 0 makes the next call create worker 2. *)
Lemma stale_error_discards_live_worker_witness :
  let s := run initial [ECall (js "A") Init; EError 0; ECall (js "B") List_] in
  worker s = Some 1%nat /\ is_Some (workers s !! 0%nat) /\
  worker (snd (OPFSFileSystem (js "C") List_ (step s (EError 0)))) = Some 2%nat.
Proof.
  cbv zeta.
  assert (worker (run initial [ECall (js "A") Init; EError 0; ECall (js "B") List_])
          = Some 1%nat) as Hw by reflexivity.
  assert (is_Some (workers (run initial [ECall (js "A") Init; EError 0;
                                         ECall (js "B") List_]) !! 0%nat)) as H0
    by (vm_compute; eauto).
  split; [exact Hw|]. split; [exact H0|].
  pose proof (stale_error_discards_live_worker
                [ECall (js "A") Init; EError 0; ECall (js "B") List_] _ 0 1
                (js "C") List_ eq_refl Hw ltac:(discriminate) H0) as H.
  cbv zeta in H. exact (proj1 (proj2 H)).
Defined.

(** Two calls that both got the id "A". *)
Lemma colliding_ids_cross_talk_witness :
  pending (snd (OPFSFileSystem (js "A") List_
                  (snd (OPFSFileSystem (js "A") Init initial)))) !! js "A"
    = Some 1%nat.
Proof.
  pose proof (colliding_ids_cross_talk [] initial (js "A") Init List_ eq_refl) as H.
  cbv zeta in H. exact (proj1 (proj2 (proj2 H))).
Defined.

(** The answers to two calls, in the two orders. *)
Lemma answers_commute_witness :
  let s := run initial [ECall (js "A") Init; ECall (js "B") List_] in
  run s [EMessage 0 (SuccessResponse (js "A") PVoid);
         EMessage 0 (SuccessResponse (js "B") (PStrings []))]
  = run s [EMessage 0 (SuccessResponse (js "B") (PStrings []));
           EMessage 0 (SuccessResponse (js "A") PVoid)].
Proof.
  cbv zeta.
  apply (answers_commute [ECall (js "A") Init; ECall (js "B") List_] _ 0
           (SuccessResponse (js "A") PVoid) 0 (SuccessResponse (js "B") (PStrings []))
           eq_refl).
  discriminate.
Defined.

(** Two calls and the answer to the second: one entry, one envelope. *)
Lemma registry_is_in_flight_witness :
  admissible_run initial sample_events /\
  size (pending (run initial sample_events)) = 1%nat.
Proof.
  assert (admissible_run initial sample_events) as Ha.
  { cbn [admissible_run sample_events]. split; [vm_compute; reflexivity|].
    split; [vm_compute; reflexivity|]. split; [|exact I].
    eexists _, (request_of (js "id-2") List_). split; [vm_compute; reflexivity|].
    split; [|reflexivity]. right. left. }
  split; [exact Ha|].
  rewrite (proj1 (proj2 (registry_is_in_flight sample_events Ha))). reflexivity.
Defined.

End BridgeExtras.

(* ================================================================== *)
(** ** The bridge and the worker together *)
(* ================================================================== *)

Module SystemExtras.
Import Backend WorkerSpec WorkerFacts BridgeSpec BridgeFacts ExtraSpec.

(** *** A call through the bridge, the dispatcher and back *)

Lemma executor_request_of P uuid proc :
  executor P (OPFS.request_of uuid proc) = Some (operation P proc).
Proof. destruct proc; reflexivity. Qed.

Lemma operation_payload P proc w d :
  fst (operation P proc w) = Normal d -> payload_fits proc d.
Proof.
  destruct proc as [| |f c|f|f c|f]; cbn; unfold bind, ret.
  - destruct (OpfsWorker.opfsInit P w) as [[[]|e] w1]; cbn; congruence.
  - destruct (OpfsWorker.opfsList P w) as [[l|e] w1]; cbn; [|discriminate].
    intros [= <-]. eauto.
  - destruct (OpfsWorker.opfsCreate P f c w) as [[r|e] w1] eqn:Hc; cbn; [|discriminate].
    intros [= <-]. now destruct (opfsCreate_normal _ _ _ _ _ _ Hc) as (-> & _).
  - destruct (OpfsWorker.opfsRead P f w) as [[s|e] w1]; cbn; [|discriminate].
    intros [= <-]. eauto.
  - destruct (OpfsWorker.opfsUpdate P f c w) as [[[]|e] w1]; cbn; congruence.
  - destruct (OpfsWorker.opfsDelete P f w) as [[[]|e] w1]; cbn; congruence.
Qed.

(** X17.  The two sides of the protocol agree.  For each of the six
    procedures of the bridge, after any history: the envelope it posts is one
    the dispatcher recognizes, never the unknown-type case; the dispatcher
    runs the operation of that name on the arguments of the call and posts
    one envelope with the id of the call; and that envelope, handled by the
    bridge, settles the promise the call returned, once: resolved with the
    result of the operation, of the type the procedure declares, when the
    operation succeeded, and rejected with an Error of its message when it
    threw, which is always an Error. *)
Theorem call_round_trip es s uuid proc P W :
  s = OPFS.run OPFS.initial es ->
  let p := fst (OPFS.OPFSFileSystem uuid proc s) in
  let s1 := snd (OPFS.OPFSFileSystem uuid proc s) in
  let request := OPFS.request_of uuid proc in
  let r := envelope_for uuid (fst (operation P proc W)) in
  (exists w o, worker s1 = Some w /\ workers s1 !! w = Some o /\
               request ∈ inbox o /\
               OPFS.settlements p (OPFS.step s1 (EMessage w r))
                 = [match fst (operation P proc W) with
                    | Normal d => Resolved d
                    | Throw e => Rejected (ThrowError (message_of_error e))
                    end]) /\
  executor P request = Some (operation P proc) /\
  OpfsWorker.posted (trace (snd (OpfsWorker.onmessage P request W)))
    = OpfsWorker.posted (trace W) ++ [r] /\
  entries (snd (OpfsWorker.onmessage P request W))
    = entries (snd (operation P proc W)) /\
  (forall d, fst (operation P proc W) = Normal d -> payload_fits proc d) /\
  (forall e, fst (operation P proc W) = Throw e -> is_Error e).
Proof.
  intros -> p s1 request r. subst request.
  set (s := OPFS.run OPFS.initial es) in *.
  assert (bridge_inv s) as Hs by apply inv_run, inv_initial.
  assert (bridge_inv s1) as Hs1 by now apply inv_call.
  destruct (call_fields uuid proc s) as (Hp & _ & Hpe). fold p in Hp. fold s1 in Hpe.
  assert (pending s1 !! uuid = Some p) as Hu
    by (rewrite Hpe, Hp; apply lookup_insert_eq).
  pose proof (errors_executor P _ _ (executor_request_of P uuid proc) W) as Herr.
  assert (snd (OpfsWorker.onmessage P (OPFS.request_of uuid proc) W)
          = with_trace [CPostMessage r] (snd (operation P proc W))) as Hrun.
  { rewrite onmessage_run, executor_request_of, correlationId_request_of.
    unfold r. destruct (operation P proc W) as [[d|e] W1]; [reflexivity|].
    cbn [fst snd] in *. rewrite replyError_Error. specialize (Herr e eq_refl).
    destruct e as [msg|n msg|v]; [reflexivity|reflexivity|destruct Herr]. }
  split; [|split; [apply executor_request_of|split; [|split; [|split]]]].
  - assert (exists w, worker s1 = Some w) as [w Hw].
    { unfold s1, OPFS.OPFSFileSystem. rewrite send_spec. cbn. eauto. }
    destruct (inv_slot s1 Hs1 w Hw) as [o Ho].
    exists w, o. split; [assumption|]. split; [assumption|]. split.
    + revert Hw Ho. unfold s1, OPFS.OPFSFileSystem. rewrite send_spec. cbn.
      intros [= <-].
      destruct (worker s) as [w0|] eqn:Hslot; cbn.
      * destruct (inv_slot s Hs w0 Hslot) as [o0 Ho0].
        rewrite list_lookup_alter_eq, Ho0. cbn. intros [= <-]. cbn.
        apply elem_of_app. right. left.
      * rewrite lookup_app_r, Nat.sub_diag by lia. cbn. intros [= <-]. cbn. left.
    + rewrite (message_settles s1 w r p Hs1); [| eauto |].
      * unfold r. now destruct (fst (operation P proc W)).
      * unfold r. rewrite <- Hu. f_equal.
        now destruct (fst (operation P proc W)).
  - rewrite Hrun. cbn.
    pose proof (quiet_executor P _ _ (executor_request_of P uuid proc) W) as Hq.
    unfold OpfsWorker.posted in *. now rewrite omap_app, Hq.
  - now rewrite Hrun.
  - intros d. apply operation_payload.
  - exact Herr.
Qed.

(** A read through the bridge and the worker on the one-file store. *)
Lemma call_round_trip_witness :
  OpfsWorker.posted
    (trace (snd (OpfsWorker.onmessage sample_platform
                   (OPFS.request_of (js "id-1") (Read (js "a.txt"))) one_file_world)))
  = [SuccessResponse (js "id-1") (PString (js "h"))].
Proof.
  pose proof (call_round_trip [] OPFS.initial (js "id-1") (Read (js "a.txt"))
                sample_platform one_file_world eq_refl) as H.
  cbv zeta in H. destruct H as (_ & _ & H & _). rewrite H. reflexivity.
Defined.

End SystemExtras.

(* ================================================================== *)
(** ** The helpers of the user interface *)
(* ================================================================== *)

Module AppExtras.
Import Utf8 Backend OpfsWorker WorkerSpec Utf8Facts WorkerFacts ExtraSpec App
  WorkerExtras.

(** *** The log of the user interface *)

Lemma take_app_take {A} n (l1 l2 : list A) :
  take n (l1 ++ take n l2) = take n (l1 ++ l2).
Proof.
  rewrite !take_app. f_equal. rewrite take_take. f_equal. lia.
Qed.

Lemma addLog_fold entries : forall logs,
  (length logs <= 50)%nat ->
  foldl (fun l e => addLog e l) logs entries = take 50 (rev entries ++ logs).
Proof.
  induction entries as [|e entries IH]; intros logs Hl.
  - cbn. now rewrite take_ge.
  - cbn [foldl rev]. rewrite IH by (unfold addLog; rewrite length_take; lia).
    unfold addLog. rewrite take_app_take, <- app_assoc. reflexivity.
Qed.

(** X18.  The log of the interface, which starts empty: after any number of
    [addLog] calls it holds the entries of the last 50 calls, newest first,
    and so never more than 50. *)
Theorem log_keeps_last_50 entries :
  foldl (fun l e => addLog e l) [] entries = take 50 (rev entries) /\
  length (foldl (fun l e => addLog e l) [] entries) = min (length entries) 50.
Proof.
  rewrite addLog_fold by (cbn; lia). rewrite app_nil_r.
  split; [reflexivity|]. rewrite length_take, length_rev. lia.
Qed.

(** *** The content and the names the interface makes up *)





Lemma below_surrogates_well_formed s :
  Forall (fun c => c < 0xD800) s ->
  code_units s /\ isWellFormed s = true /\ starts_with_bom s = false.
Proof.
  intros Hs. split; [|split].
  - eapply Forall_impl; [exact Hs|]. cbn. intros; lia.
  - induction Hs as [|c s Hc Hs IH]; [reflexivity|]. cbn.
    unfold is_high, is_low.
    destruct (N.leb_spec 0xD800 c); [lia|]. cbn.
    destruct (N.leb_spec 0xDC00 c); [lia|]. cbn. exact IH.
  - destruct Hs as [|c s Hc Hs]; [reflexivity|]. cbn.
    destruct (N.eqb_spec c 0xFEFF); [lia|reflexivity].
Qed.



(** *** The name the interface makes up *)

Lemma base36_small c : base36 c -> c < 0xD800 /\ c <> 0 /\ c <> 47.
Proof. unfold base36. lia. Qed.

Lemma randomName_chars digits :
  Forall base36 digits ->
  Forall (fun c => c < 0xD800 /\ c <> 0 /\ c <> 47) (randomName digits).
Proof.
  intros Hd. unfold randomName, substring. rewrite !Forall_app.
  split; [repeat constructor; cbn; lia|]. split; [|repeat constructor; cbn; lia].
  apply Forall_take, Forall_drop. eapply Forall_impl; [exact Hd|].
  apply base36_small.
Qed.

Lemma randomName_valid digits :
  Forall base36 digits ->
  entry_name (randomName digits) = randomName digits /\
  valid_name (randomName digits) = true /\
  startsWith_dot (randomName digits) = false /\
  (9 <= length (randomName digits) <= 14)%nat.
Proof.
  intros Hd. pose proof (randomName_chars digits Hd) as Hc.
  assert (Forall (fun c => c < 0xD800) (randomName digits)) as Hs
    by (eapply Forall_impl; [exact Hc|]; cbn; tauto).
  destruct (below_surrogates_well_formed _ Hs) as (Hu & Hw & _).
  rewrite Forall_forall in Hc.
  split; [|split; [|split]].
  - unfold entry_name. rewrite toWellFormed_id by assumption.
    apply cut_at_nul_id. intros Hin. now destruct (Hc 0 Hin) as (_ & ? & _).
  - unfold valid_name. apply andb_true_intro. split.
    + unfold randomName. cbn. reflexivity.
    + apply negb_true_iff, bool_decide_eq_false. intros Hin.
      now destruct (Hc 47 Hin) as (_ & _ & ?).
  - reflexivity.
  - unfold randomName, substring. rewrite !length_app, length_take, length_drop.
    change (length (js "note_")) with 5%nat. change (length (js ".txt")) with 4%nat.
    change (7 - 2)%nat with 5%nat. lia.
Qed.

(** X20.  The name [createNewFile] makes up from
    [Math.random().toString(36)] is always usable: "note_", at most five
    digits or letters, ".txt", 9 to 14 code units; it is a valid file name
    which the platform takes as it is, and it is not hidden.  So when the
    [create] with it succeeds, a [list] that the platform does not fail
    shows exactly that name. *)
Theorem random_name_is_listed digits P P' content w r w1 :
  Forall base36 digits ->
  opfsCreate P (randomName digits) content w = (Normal r, w1) ->
  healthy P' ->
  entry_name (randomName digits) = randomName digits /\
  valid_name (randomName digits) = true /\
  (9 <= length (randomName digits) <= 14)%nat /\
  exists l, fst (opfsList P' w1) = Normal l /\ randomName digits ∈ l.
Proof.
  intros Hd Hc Hh. destruct (randomName_valid digits Hd) as (He & Hv & Hdot & Hlen).
  split; [assumption|]. split; [assumption|]. split; [assumption|].
  destruct (list_after_create P P' _ content w r w1 Hc Hh) as (l & Hl & Hin & _).
  exists l. split; [assumption|]. rewrite He in Hin. now apply Hin.
Qed.

(** *** Instances *)


(** The name made from "0.4fzyo82mvyr". *)
Lemma random_name_is_listed_witness :
  Forall base36 (js "0.4fzyo82mvyr") /\
  randomName (js "0.4fzyo82mvyr") = js "note_4fzyo.txt" /\
  exists l,
    fst (opfsList sample_platform
           (snd (opfsCreate sample_platform (randomName (js "0.4fzyo82mvyr")) (js "x")
                   empty_world))) = Normal l /\
    js "note_4fzyo.txt" ∈ l.
Proof.
  assert (Forall base36 (js "0.4fzyo82mvyr")) as Hd.
  { let l := eval vm_compute in (js "0.4fzyo82mvyr") in
    change (js "0.4fzyo82mvyr") with l.
    repeat (constructor; [unfold base36; lia|]). constructor. }
  split; [exact Hd|]. split; [reflexivity|].
  destruct (random_name_is_listed (js "0.4fzyo82mvyr") sample_platform sample_platform
              (js "x") empty_world (randomName (js "0.4fzyo82mvyr"))
              (snd (opfsCreate sample_platform (randomName (js "0.4fzyo82mvyr")) (js "x")
                      empty_world))
              Hd ltac:(vm_compute; reflexivity) sample_healthy)
    as (_ & _ & _ & l & Hl & Hin).
  exists l. split; [exact Hl|exact Hin].
Defined.

End AppExtras.
